(** * configmap-aggregator: a shallow embedding of the reconciliation code

    The development follows the Go sources:
    - [aggregator.go] (package aggregator): [New], the option functions and
      [Once], the file-tree cycle;
    - the controller of package main: [createConfigMap], [hashConfigMap],
      [compareConfigMaps] and the two revisions of [upsertConfigMap].

    Go values are modelled as the code has them: strings are byte strings, an
    [error] interface value is [option error] ([None] is Go's nil), a Go map
    that is ranged over or printed is a list of entries in visiting order, the
    64-bit FNV state is a [Z] reduced modulo [2^64]. *)

From Stdlib Require Import ZArith Ascii String.
From stdpp Require Import gmap strings list sorting pretty.

Local Open Scope string_scope.

(** ** Go run-time values *)

Module Go.

(** An error value.  [ErrNotExist] is the sentinel of package main that
    [upsertConfigMap] compares against with [==] (its declaration is not
    among the sources at hand; only its identity matters); [errNew] is an
    error made
    by [errors.New] or handed over by a collaborator; [errWrap] is what
    [errors.Wrap] and [errors.Wrapf] of github.com/pkg/errors build;
    [errPanic] stands for a run-time panic (a method called on a nil
    interface or pointer), which ends the call without a return value. *)
Inductive error : Type :=
| ErrNotExist
| errNew (msg : string)
| errWrap (cause : error) (msg : string)
| errPanic (msg : string).

#[global] Instance error_eq_dec : EqDecision error.
Proof. solve_decision. Defined.

(** [err.Error()]: the annotation, a colon, the message of the cause. *)
Fixpoint Error (e : error) : string :=
  match e with
  | ErrNotExist => "config map does not exist"
  | errNew msg => msg
  | errWrap cause msg => msg +:+ ": " +:+ Error cause
  | errPanic msg => "panic: " +:+ msg
  end.

(** A call that returns [(T, error)]. *)
Inductive result (T : Type) : Type :=
| Ok (v : T)
| Err (e : error).
#[global] Arguments Ok {T} v.
#[global] Arguments Err {T} e.

(** [errors.Wrap(err, msg)] and [errors.Wrapf(err, format, args...)] with
    the format already expanded: both return nil when [err] is nil. *)
Definition Wrap (err : option error) (msg : string) : option error :=
  match err with
  | None => None
  | Some e => Some (errWrap e msg)
  end.

(** [strings.Contains]. *)
Fixpoint HasPrefix (s prefix : string) : bool :=
  match prefix, s with
  | EmptyString, _ => true
  | String p prefix', String c s' =>
      if decide (p = c) then HasPrefix s' prefix' else false
  | String _ _, EmptyString => false
  end.

Fixpoint Contains (s substr : string) : bool :=
  HasPrefix s substr ||
  match s with
  | EmptyString => false
  | String _ s' => Contains s' substr
  end.

(** The entries of a [map[string]string], in the order in which a [range]
    statement or [reflect.Value.MapKeys] happens to visit them. *)
Definition entries : Type := list (string * string).

Fixpoint entries_get (k : string) (es : entries) : option string :=
  match es with
  | [] => None
  | (k', v) :: es' => if decide (k = k') then Some v else entries_get k es'
  end.

(** [m[k] = v] on a non-nil map: the value of an existing key is replaced,
    a new key is added. *)
Fixpoint entries_set (k v : string) (es : entries) : entries :=
  match es with
  | [] => [(k, v)]
  | (k', v') :: es' =>
      if decide (k = k') then (k, v) :: es' else (k', v') :: entries_set k v es'
  end.

(** One assignment [data[kv.1] = kv.2], as a step of a fold. *)
Definition assign (data : entries) (kv : string * string) : entries :=
  entries_set kv.1 kv.2 data.

(** A [map[string]string] value: the nil map, or an allocated table. *)
Inductive gomap : Type :=
| gonil
| gomake (es : entries).

(** [for k, v := range m]: a nil map has no entries to visit. *)
Definition range (m : gomap) : entries :=
  match m with
  | gonil => []
  | gomake es => es
  end.

(** [v, ok := m[k]]. *)
Definition index (m : gomap) (k : string) : option string :=
  entries_get k (range m).

(** The invariant of a Go map: no key occurs twice. *)
Definition wf (m : gomap) : Prop := NoDup (range m).*1.

(** Two maps that agree as key-to-value functions. *)
Definition same_function (m1 m2 : gomap) : Prop :=
  ∀ k, index m1 k = index m2 k.

Definition is_nil (m : gomap) : bool :=
  match m with
  | gonil => true
  | gomake _ => false
  end.

(** The byte [c] does not occur in [s]. *)
Fixpoint free_of (c : ascii) (s : string) : Prop :=
  match s with
  | EmptyString => True
  | String x s' => x ≠ c ∧ free_of c s'
  end.

End Go.

Export Go.

(** ** path/filepath (Unix) *)

Module filepath.

(** [strings.Split(path, "/")]. *)
Fixpoint split (path : string) : list string :=
  match path with
  | EmptyString => [""]
  | String c rest =>
      if decide (c = "/"%char) then "" :: split rest
      else match split rest with
           | x :: xs => String c x :: xs
           | [] => [String c ""]
           end
  end.

Fixpoint join (elems : list string) : string :=
  match elems with
  | [] => ""
  | [x] => x
  | x :: xs => x +:+ "/" +:+ join xs
  end.

Definition IsAbs (path : string) : bool :=
  match path with
  | String c _ => bool_decide (c = "/"%char)
  | EmptyString => false
  end.

(** The element-wise reading of [Clean]: empty and [.] elements are dropped,
    [..] removes the element before it, is dropped at the root and is kept
    at the front of a relative path.  [out] is the output so far, last
    element first. *)
Fixpoint clean_elems (rooted : bool) (elems : list string) (out : list string)
  : list string :=
  match elems with
  | [] => reverse out
  | e :: rest =>
      if decide (e = "") then clean_elems rooted rest out
      else if decide (e = ".") then clean_elems rooted rest out
      else if decide (e = "..") then
        match out with
        | o :: out' =>
            if decide (o = "..") then clean_elems rooted rest (e :: out)
            else clean_elems rooted rest out'
        | [] =>
            if rooted then clean_elems rooted rest []
            else clean_elems rooted rest [e]
        end
      else clean_elems rooted rest (e :: out)
  end.

(** [filepath.Clean]. *)
Definition Clean (path : string) : string :=
  if decide (path = "") then "."
  else
    let elems := clean_elems (IsAbs path) (split path) [] in
    if IsAbs path then "/" +:+ join elems
    else match elems with
         | [] => "."
         | _ => join elems
         end.

(** [filepath.Join(dir, name)]: empty elements are ignored, the rest is
    joined with the separator and cleaned; all elements empty gives the
    empty string. *)
Definition Join (dir name : string) : string :=
  if decide (dir = "") then
    if decide (name = "") then "" else Clean name
  else if decide (name = "") then Clean dir
  else Clean (dir +:+ "/" +:+ name).

(** A single path element that [Clean] leaves as it is. *)
Definition plain (x : string) : Prop :=
  x ≠ "" ∧ x ≠ "." ∧ x ≠ ".." ∧ free_of "/" x.

End filepath.

(** ** github.com/spf13/afero: the store behind [afero.Fs]

    The file system is kept as a finite map from absolute, cleaned paths
    (lists of elements; the root is the empty list and always a directory)
    to nodes.  Relative names are resolved against the root. *)

Module afero.

Inductive node : Type :=
| File (content : string)
| Dir.

Abbreviation Fs := (gmap (list string) node).

(** What [os.FileInfo] tells [Once]. *)
Record FileInfo : Type := { Name : string; IsDir : bool }.

Definition resolve (name : string) : list string :=
  filepath.clean_elems true (filepath.split name) [].

Definition stat (fs : Fs) (p : list string) : option node :=
  match p with
  | [] => Some Dir
  | _ => fs !! p
  end.

Fixpoint strip_prefix (d p : list string) : option (list string) :=
  match d, p with
  | [], _ => Some p
  | x :: d', y :: p' => if decide (x = y) then strip_prefix d' p' else None
  | _ :: _, [] => None
  end.

(** The name under which [p] is listed in directory [d], if it is one of
    its immediate children. *)
Definition child_name (d p : list string) : option string :=
  match strip_prefix d p with
  | Some [n] => Some n
  | _ => None
  end.

Definition info_of (d : list string) (kn : list string * node) : option FileInfo :=
  match child_name d kn.1 with
  | Some n =>
      Some {| Name := n; IsDir := match kn.2 with Dir => true | File _ => false end |}
  | None => None
  end.

Definition by_name (x y : FileInfo) : Prop := String.le (Name x) (Name y).

#[global] Instance by_name_dec : RelDecision by_name.
Proof. intros x y. unfold by_name. apply _. Defined.

Definition children (fs : Fs) (d : list string) : list FileInfo :=
  omap (info_of d) (map_to_list fs).

(** [afero.ReadDir(fs, dirname)]: the entries of the directory, sorted by
    file name. *)
Definition ReadDir (fs : Fs) (dirname : string) : result (list FileInfo) :=
  let d := resolve dirname in
  match stat fs d with
  | Some Dir => Ok (merge_sort by_name (children fs d))
  | Some (File _) => Err (errNew "not a directory")
  | None => Err (errNew "no such file or directory")
  end.

(** [afero.ReadFile(fs, filename)]. *)
Definition ReadFile (fs : Fs) (filename : string) : result string :=
  match stat fs (resolve filename) with
  | Some (File content) => Ok content
  | Some Dir => Err (errNew "is a directory")
  | None => Err (errNew "no such file or directory")
  end.

Definition parent (p : list string) : list string := take (length p - 1) p.

(** [afero.WriteFile(fs, filename, data, perm)]: creates or truncates the
    file; its directory has to exist. *)
Definition WriteFile (fs : Fs) (filename : string) (data : string) : result Fs :=
  let p := resolve filename in
  match stat fs p with
  | Some Dir => Err (errNew "is a directory")
  | _ =>
      match stat fs (parent p) with
      | Some Dir => Ok (<[p := File data]> fs)
      | Some (File _) => Err (errNew "not a directory")
      | None => Err (errNew "no such file or directory")
      end
  end.

(** [fs.Remove(name)]: removes a file or an empty directory. *)
Definition Remove (fs : Fs) (name : string) : result Fs :=
  let p := resolve name in
  match p with
  | [] => Err (errNew "device or resource busy")
  | _ =>
      match fs !! p with
      | Some (File _) => Ok (delete p fs)
      | Some Dir =>
          match children fs p with
          | [] => Ok (delete p fs)
          | _ :: _ => Err (errNew "directory not empty")
          end
      | None => Err (errNew "no such file or directory")
      end
  end.

(** Every path of the store is made of plain elements. *)
Definition wf (fs : Fs) : Prop :=
  ∀ p nd, fs !! p = Some nd → Forall filepath.plain p.

(** The handle stored in the [fs] field of an [Aggregator]: which
    implementation backs the store. *)
Inductive handle : Type :=
| OsFs
| MemMapFs.

End afero.

(** ** net/http, as far as the webhook call goes *)

Module http.

Record Request : Type :=
  { Method : string; URL : string; Body : option string }.

Record Response : Type := { StatusCode : Z }.

(** The token characters of RFC 7230 (the method of a request is a token). *)
Definition isToken (c : ascii) : bool :=
  let n := N_of_ascii c in
  ((48 <=? n) && (n <=? 57) || (65 <=? n) && (n <=? 90) ||
   (97 <=? n) && (n <=? 122))%N ||
  bool_decide (c ∈ list_ascii_of_string "!#$%&'*+-.^_`|~").

Definition validMethod (method : string) : bool :=
  match method with
  | EmptyString => false
  | _ => forallb isToken (list_ascii_of_string method)
  end.

End http.

(** ** The collaborators of a cycle *)

(** [*zap.Logger]. *)
Inductive Logger : Type := ZapLogger.

(** What the code reaches outside the functions at hand.  [url_Parse] is
    [net/url.Parse] reduced to its error; [http_Do] is the answer of
    [http.DefaultClient.Do].  Modelled from the spec: [NewLogger], the
    logger constructor of package aggregator, is not among the sources at
    hand (logging set-up is an external collaborator); its outcome is a
    parameter. *)
Record Env : Type :=
  { url_Parse : string → option error;
    http_Do : http.Request → result http.Response;
    NewLogger : result Logger }.

(** [http.NewRequest(method, url, body)]. *)
Definition http_NewRequest (env : Env) (method url : string) (body : option string)
  : result http.Request :=
  let method := if decide (method = "") then "GET" else method in
  if http.validMethod method then
    match url_Parse env url with
    | Some e => Err e
    | None => Ok {| http.Method := method; http.URL := url; http.Body := body |}
    end
  else Err (errNew "net/http: invalid method").

(** ** Package aggregator ([aggregator.go]) *)

Module aggregator.

(** The fields of [v1.ConfigMap] that [Once] reads. *)
Record ObjectMeta : Type := { Name : string; Namespace : string }.

Record ConfigMap : Type := { Meta : ObjectMeta; Data : gomap }.

Record ConfigMapList : Type := { Items : list ConfigMap }.

(** [ConfigMapLister]: [List(namespace, selector)]. *)
Definition ConfigMapLister : Type := string → string → result ConfigMapList.

Record Aggregator : Type :=
  { namespaces : list string;
    selector : string;
    lister : option ConfigMapLister;
    webhook : string;
    webhookMethod : string;
    outputDir : string;
    logger : option Logger;
    fs : option afero.handle;
    dryRun : bool }.

(** An option function receives the aggregator by pointer: it returns the
    aggregator as it leaves it, and its error. *)
Definition OptionsFunc : Type := Aggregator → Aggregator * option error.

Definition SetNamespaces (nss : list string) : OptionsFunc := λ a,
  ({| namespaces := nss; selector := selector a; lister := lister a;
      webhook := webhook a; webhookMethod := webhookMethod a;
      outputDir := outputDir a; logger := logger a; fs := fs a;
      dryRun := dryRun a |}, None).

Definition SetLabelSelector (sel : string) : OptionsFunc := λ a,
  ({| namespaces := namespaces a; selector := sel; lister := lister a;
      webhook := webhook a; webhookMethod := webhookMethod a;
      outputDir := outputDir a; logger := logger a; fs := fs a;
      dryRun := dryRun a |}, None).

Definition SetConfigMapLister (l : option ConfigMapLister) : OptionsFunc := λ a,
  ({| namespaces := namespaces a; selector := selector a; lister := l;
      webhook := webhook a; webhookMethod := webhookMethod a;
      outputDir := outputDir a; logger := logger a; fs := fs a;
      dryRun := dryRun a |}, None).

Definition SetLogger (l : option Logger) : OptionsFunc := λ a,
  ({| namespaces := namespaces a; selector := selector a; lister := lister a;
      webhook := webhook a; webhookMethod := webhookMethod a;
      outputDir := outputDir a; logger := l; fs := fs a;
      dryRun := dryRun a |}, None).

Definition SetWebHook (env : Env) (hook : string) : OptionsFunc := λ a,
  match url_Parse env hook with
  | Some e => (a, Wrap (Some e) "failed to parse webhook")
  | None =>
      ({| namespaces := namespaces a; selector := selector a; lister := lister a;
          webhook := hook; webhookMethod := webhookMethod a;
          outputDir := outputDir a; logger := logger a; fs := fs a;
          dryRun := dryRun a |}, None)
  end.

Definition SetOutputDir (dir : string) : OptionsFunc := λ a,
  ({| namespaces := namespaces a; selector := selector a; lister := lister a;
      webhook := webhook a; webhookMethod := webhookMethod a;
      outputDir := dir; logger := logger a; fs := fs a;
      dryRun := dryRun a |}, None).

Definition SetFS (h : option afero.handle) : OptionsFunc := λ a,
  ({| namespaces := namespaces a; selector := selector a; lister := lister a;
      webhook := webhook a; webhookMethod := webhookMethod a;
      outputDir := outputDir a; logger := logger a; fs := h;
      dryRun := dryRun a |}, None).

(** The aggregator [New] starts from. *)
Definition initial : Aggregator :=
  {| namespaces := []; selector := ""; lister := None; webhook := "";
     webhookMethod := "POST"; outputDir := "."; logger := None; fs := None;
     dryRun := false |}.

(** The loop over the options: the first error ends it. *)
Fixpoint run_options (options : list OptionsFunc) (a : Aggregator)
  : Aggregator * option error :=
  match options with
  | [] => (a, None)
  | f :: rest =>
      match f a with
      | (a', None) => run_options rest a'
      | (a', Some e) => (a', Some e)
      end
  end.

(** [New(options...)]: the pair of the returned pointer ([None] is nil) and
    the returned error. *)
Definition New (env : Env) (options : list OptionsFunc)
  : option Aggregator * option error :=
  match run_options options initial with
  | (_, Some e) => (None, Wrap (Some e) "failed to run options function")
  | (a, None) =>
      let with_logger : result Aggregator :=
        match logger a with
        | Some _ => Ok a
        | None =>
            match NewLogger env with
            | Err e => Err e
            | Ok l =>
                Ok {| namespaces := namespaces a; selector := selector a;
                      lister := lister a; webhook := webhook a;
                      webhookMethod := webhookMethod a;
                      outputDir := outputDir a; logger := Some l; fs := fs a;
                      dryRun := dryRun a |}
            end
        end in
      match with_logger with
      | Err e => (None, Wrap (Some e) "failed to create logger")
      | Ok a =>
          match lister a with
          | None => (None, Some (errNew "no config map lister was set"))
          | Some _ =>
              (Some {| namespaces :=
                         match namespaces a with
                         | [] => [""]
                         | _ :: _ => namespaces a
                         end;
                       selector := selector a; lister := lister a;
                       webhook := webhook a; webhookMethod := webhookMethod a;
                       outputDir := outputDir a; logger := logger a;
                       fs := match fs a with
                             | None => Some afero.OsFs
                             | Some h => Some h
                             end;
                       dryRun := dryRun a |}, None)
          end
      end
  end.

(** The option functions the package exports. *)
Inductive exported (env : Env) : OptionsFunc → Prop :=
| exported_SetNamespaces nss : exported env (SetNamespaces nss)
| exported_SetLabelSelector sel : exported env (SetLabelSelector sel)
| exported_SetConfigMapLister l : exported env (SetConfigMapLister l)
| exported_SetLogger l : exported env (SetLogger l)
| exported_SetWebHook hook : exported env (SetWebHook env hook)
| exported_SetOutputDir dir : exported env (SetOutputDir dir)
| exported_SetFS h : exported env (SetFS h).

(** *** The state a cycle runs in *)

Inductive FsOp : Type :=
| OpWrite (name : string) (data : string)
| OpRemove (name : string).

(** The store behind [a.fs], the mutations applied to it, the namespaces
    the lister was asked for and the requests sent, each in order. *)
Record World : Type :=
  { w_fs : afero.Fs;
    w_ops : list FsOp;
    w_queries : list string;
    w_requests : list http.Request }.

(** Statements that touch the world and may return early with an error. *)
Definition M (A : Type) : Type := World → World * result A.

Definition ret {A} (x : A) : M A := λ w, (w, Ok x).
Definition fail {A} (e : error) : M A := λ w, (w, Err e).
Definition bind {A B} (m : M A) (k : A → M B) : M B := λ w,
  match m w with
  | (w', Ok x) => k x w'
  | (w', Err e) => (w', Err e)
  end.

(** [if err != nil { return errors.Wrapf(err, msg) }]. *)
Definition wrapf {A} (m : M A) (msg : string) : M A := λ w,
  match m w with
  | (w', Ok x) => (w', Ok x)
  | (w', Err e) => (w', Err (errWrap e msg))
  end.

(** A [for ... range] loop whose body may return from the function. *)
Fixpoint forM {S A} (body : S → A → M S) (s : S) (l : list A) : M S :=
  match l with
  | [] => ret s
  | x :: rest => bind (body s x) (λ s', forM body s' rest)
  end.

(** What a statement establishes from a given world: [Q] on its value and
    the world it leaves when it completes, [E] when it returns early. *)
Definition outcome {A} (m : M A) (w : World)
    (Q : A → World → Prop) (E : error → World → Prop) : Prop :=
  match m w with
  | (w', Ok x) => Q x w'
  | (w', Err e) => E e w'
  end.

(** From [w0] on, no request was sent, the operations [ops] were applied,
    and the loop variable [changed] tells whether there are any. *)
Definition tracks (w0 : World) (changed : bool) (w : World) : Prop :=
  w_requests w = w_requests w0 ∧
  ∃ ops, w_ops w = (w_ops w0 ++ ops)%list ∧ (changed = true ↔ ops ≠ []).

Definition silent (w0 : World) (w : World) : Prop :=
  w_requests w = w_requests w0.

Notation "'let*' x ':=' m 'in' k" := (bind m (λ x, k))
  (at level 10, x name, m at level 100, k at level 200, only parsing).

Definition readDir (dirname : string) : M (list afero.FileInfo) := λ w,
  (w, afero.ReadDir (w_fs w) dirname).

Definition readFile (name : string) : M string := λ w,
  (w, afero.ReadFile (w_fs w) name).

Definition writeFile (name data : string) : M unit := λ w,
  match afero.WriteFile (w_fs w) name data with
  | Ok fs' =>
      ({| w_fs := fs'; w_ops := w_ops w ++ [OpWrite name data];
          w_queries := w_queries w; w_requests := w_requests w |}, Ok ())
  | Err e => (w, Err e)
  end.

Definition remove (name : string) : M unit := λ w,
  match afero.Remove (w_fs w) name with
  | Ok fs' =>
      ({| w_fs := fs'; w_ops := w_ops w ++ [OpRemove name];
          w_queries := w_queries w; w_requests := w_requests w |}, Ok ())
  | Err e => (w, Err e)
  end.

(** [a.lister.List(n, a.selector)]. *)
Definition list_configmaps (l : option ConfigMapLister) (n sel : string)
  : M ConfigMapList := λ w,
  match l with
  | None => (w, Err (errPanic "nil ConfigMapLister"))
  | Some f =>
      ({| w_fs := w_fs w; w_ops := w_ops w; w_queries := w_queries w ++ [n];
          w_requests := w_requests w |}, f n sel)
  end.

(** [a.logger.Debug(...)]: no effect on the world. *)
Definition debug (lg : option Logger) : M unit :=
  match lg with
  | None => fail (errPanic "nil Logger")
  | Some _ => ret ()
  end.

(** [http.DefaultClient.Do(req)]. *)
Definition do_request (env : Env) (req : http.Request) : M http.Response := λ w,
  ({| w_fs := w_fs w; w_ops := w_ops w; w_queries := w_queries w;
      w_requests := w_requests w ++ [req] |}, http_Do env req).

(** [return err] for an [err] that may be nil, as the last statement. *)
Definition return_error (err : option error) : M unit :=
  match err with
  | Some e => fail e
  | None => ret ()
  end.

(** [item.ObjectMeta.Namespace+"_"+item.ObjectMeta.Name+"_"+key]. *)
Definition fileName (item : ConfigMap) (key : string) : string :=
  Namespace (Meta item) +:+ "_" +:+ Name (Meta item) +:+ "_" +:+ key.

(** The [(file name, value)] pairs of an item and of a sequence of listings,
    in the order in which the loops visit them. *)
Definition itemTriples (item : ConfigMap) : entries :=
  (λ kv, (fileName item kv.1, kv.2)) <$> range (Data item).

Definition fileTriples (lists : list ConfigMapList) : entries :=
  (lists ≫= Items) ≫= itemTriples.

(** *** [Once], lines 164-189: the body of the loop over [item.Data].
    The loop variables are [existingFiles] and [changed]. *)
Definition syncKey (a : Aggregator) (item : ConfigMap)
    (st : gmap string bool * bool) (kv : string * string)
  : M (gmap string bool * bool) :=
  let name := filepath.Join (outputDir a) (fileName item kv.1) in
  let write (existingFiles : gmap string bool) : M (gmap string bool * bool) :=
    let* _ := wrapf (writeFile name kv.2) ("failed to write file " +:+ name) in
    ret (existingFiles, true) in
  match st.1 !! name with
  | Some _ =>
      let existingFiles := delete name st.1 in
      let* contents := wrapf (readFile name) ("failed to read file " +:+ name) in
      if decide (contents = kv.2) then
        let* _ := debug (logger a) in
        ret (existingFiles, st.2)
      else write existingFiles
  | None => write st.1
  end.

Definition syncItem (a : Aggregator)
    (st : gmap string bool * bool) (item : ConfigMap)
  : M (gmap string bool * bool) :=
  forM (syncKey a item) st (range (Data item)).

(** Lines 157-191: the loop over the namespaces. *)
Definition syncNamespace (a : Aggregator)
    (st : gmap string bool * bool) (n : string)
  : M (gmap string bool * bool) :=
  let* list :=
    wrapf (list_configmaps (lister a) n (selector a))
      ("failed to list config maps for namespace " +:+ "") in
  forM (syncItem a) st (Items list).

(** Lines 194-199: the files left in the map are removed. *)
Definition removeLeft (changed : bool) (k : string) : M bool :=
  let* _ := wrapf (remove k) ("failed to remove file " +:+ k) in
  ret true.

Definition trackFile (existingFiles : gmap string bool) (f : afero.FileInfo)
  : gmap string bool :=
  if afero.IsDir f then existingFiles
  else <[afero.Name f := true]> existingFiles.

(** Lines 139-199: everything before the webhook; returns [changed]. *)
Definition syncFiles (a : Aggregator) : M bool :=
  let* files :=
    wrapf (readDir (outputDir a)) ("failed to list files in " +:+ outputDir a) in
  let existingFiles := foldl trackFile ∅ files in
  let* st := forM (syncNamespace a) (existingFiles, false) (namespaces a) in
  forM removeLeft st.2 (map_to_list st.1).*1.

(** Lines 201-214: the webhook and the final [return nil]. *)
Definition notify (env : Env) (a : Aggregator) (changed : bool) : M unit :=
  if changed && negb (bool_decide (webhook a = "")) then
    let* req :=
      wrapf (λ w, (w, http_NewRequest env (webhookMethod a) (webhook a) None))
        "failed to create http request for webhook" in
    let* resp := wrapf (do_request env req) "webhook request failed" in
    if (400 <=? http.StatusCode resp)%Z then
      (* [err] is nil at this point *)
      return_error
        (Wrap None ("webhook request receive unexpected status "
                    +:+ pretty (http.StatusCode resp)))
    else ret ()
  else ret ().

(** *** Vocabulary for the default output directory *)

(** The tracking set built from the listing of the default directory: the
    names of the regular files directly under the root. *)
Definition tracked (fs : afero.Fs) (n : string) : option bool :=
  match fs !! [n] with
  | Some (afero.File _) => Some true
  | _ => None
  end.

(** The loops have folded the triples [T] over the store [fs0]: the store
    holds the last value of every name in [T] and is as it was elsewhere. *)
Definition synced (fs0 : afero.Fs) (T : entries) (fs : afero.Fs) : Prop :=
  (∀ n, fs !! [n] =
          match entries_get n (reverse T) with
          | Some v => Some (afero.File v)
          | None => fs0 !! [n]
          end) ∧
  (∀ p, length p ≠ 1 → fs !! p = fs0 !! p).

(** The names of [T] are no longer tracked, the other regular files of [fs0]
    still are. *)
Definition pending (fs0 : afero.Fs) (T : entries) (E : gmap string bool) : Prop :=
  ∀ n, E !! n = if decide (n ∈ T.*1) then None else tracked fs0 n.

Definition folded (fs0 : afero.Fs) (T : entries)
    (st : gmap string bool * bool) (w : World) : Prop :=
  synced fs0 T (w_fs w) ∧ pending fs0 T st.1.

(** A file name the cycle can write in the default directory: a plain path
    element that is not the name of a sub-directory. *)
Definition usable (fs0 : afero.Fs) (n : string) : Prop :=
  filepath.plain n ∧ fs0 !! [n] ≠ Some afero.Dir.

(** The store a completed cycle leaves in the default directory: under the
    root the files of [T] with their last values and the sub-directories of
    [fs0]; everything below as in [fs0]. *)
Definition mirrored (fs0 : afero.Fs) (T : entries) (fs : afero.Fs) : Prop :=
  (∀ n, fs !! [n] =
          match entries_get n (reverse T) with
          | Some v => Some (afero.File v)
          | None =>
              match fs0 !! [n] with
              | Some afero.Dir => Some afero.Dir
              | _ => None
              end
          end) ∧
  (∀ p, length p ≠ 1 → fs !! p = fs0 !! p).

(** During a cycle that finds the store in place: nothing was applied since
    [w0], the flag is still false, and the names of the triples [P] seen so
    far have left the tracking set. *)
Definition quiet (w0 : World) (P : entries)
    (st : gmap string bool * bool) (w : World) : Prop :=
  w_fs w = w_fs w0 ∧ w_ops w = w_ops w0 ∧ w_requests w = w_requests w0 ∧
  st.2 = false ∧ pending (w_fs w0) P st.1.

(** The store holds every triple of [R] as a regular file under the root. *)
Definition holds (fs : afero.Fs) (R : entries) : Prop :=
  Forall (λ nv, filepath.plain nv.1 ∧ fs !! [nv.1] = Some (afero.File nv.2)) R.

(** [a.Once()]: the world after the call and the returned error. *)
Definition Once (env : Env) (a : Aggregator) (w : World) : World * option error :=
  match (let* changed := syncFiles a in notify env a changed) w with
  | (w', Ok _) => (w', None)
  | (w', Err e) => (w', Some e)
  end.

(** [a.Run()]: server mode is not implemented; it returns nil. *)
Definition Run (a : Aggregator) : option error := None.

(** *** [k8s.go]: the lister backed by a Kubernetes client.  The client is
    the answer of [k.client.CoreV1().ConfigMaps(namespace).List(...)]. *)
Definition K8s : Type := string → string → result ConfigMapList.

(** [K8s.List]. *)
Definition K8s_List (k : K8s) : ConfigMapLister := λ namespace selector,
  match k namespace selector with
  | Err e => Err (errWrap e ("failed to list config maps for " +:+ namespace))
  | Ok list => Ok list
  end.

(** *** Vocabulary for the effects of a cycle *)

(** The operation writes the value of a listed entry at its joined path. *)
Definition written (a : Aggregator) (l : ConfigMapLister) (op : FsOp) : Prop :=
  ∃ n list item kv,
    n ∈ namespaces a ∧ l n (selector a) = Ok list ∧ item ∈ Items list ∧
    kv ∈ range (Data item) ∧
    op = OpWrite (filepath.Join (outputDir a) (fileName item kv.1)) kv.2.

(** [k] is the name of a regular file of the listing. *)
Definition listedFile (files : list afero.FileInfo) (k : string) : Prop :=
  ∃ f, f ∈ files ∧ afero.IsDir f = false ∧ afero.Name f = k.

(** The operation removes a name of the listing. *)
Definition removedListed (files : list afero.FileInfo) (op : FsOp) : Prop :=
  ∃ k, listedFile files k ∧ op = OpRemove k.

(** Inside the loop over the namespaces, after the namespaces [cur]: they
    were queried in order, only writes of listed entries were applied, and
    the tracking set holds names of the listing only. *)
Definition phase1 (a : Aggregator) (l : ConfigMapLister)
    (files : list afero.FileInfo) (w0 : World) (cur : list string)
    (st : gmap string bool * bool) (w : World) : Prop :=
  w_queries w = (w_queries w0 ++ cur)%list ∧
  (∃ ops, w_ops w = (w_ops w0 ++ ops)%list ∧ Forall (written a l) ops) ∧
  (∀ k, is_Some (st.1 !! k) → listedFile files k).

(** The cycle returned from inside the loop over the namespaces. *)
Definition aborted1 (a : Aggregator) (l : ConfigMapLister) (w0 : World)
    (w : World) : Prop :=
  ∃ cur, cur `prefix_of` namespaces a ∧
         w_queries w = (w_queries w0 ++ cur)%list ∧
         ∃ ops, w_ops w = (w_ops w0 ++ ops)%list ∧ Forall (written a l) ops.

(** The loop over the namespaces is complete: every namespace was queried,
    and the operations are writes of listed entries and removals of names of
    the listing. *)
Definition phase2 (a : Aggregator) (l : ConfigMapLister)
    (files : list afero.FileInfo) (w0 : World) (w : World) : Prop :=
  w_queries w = (w_queries w0 ++ namespaces a)%list ∧
  ∃ ops, w_ops w = (w_ops w0 ++ ops)%list ∧
         Forall (λ op, written a l op ∨ removedListed files op) ops.

(** *** Vocabulary for an output directory whose joined paths are not
    names of the listing *)

(** The writes of the triples [T] into the output directory, in order. *)
Definition writesOf (a : Aggregator) (T : entries) : list FsOp :=
  (λ nv, OpWrite (filepath.Join (outputDir a) nv.1) nv.2) <$> T.

(** No entry of the listing is named like a path the loops look up for a
    triple of [T]. *)
Definition unmatched (a : Aggregator) (files : list afero.FileInfo)
    (T : entries) : Prop :=
  ∀ f nv, f ∈ files → nv ∈ T →
          afero.Name f ≠ filepath.Join (outputDir a) nv.1.

(** The loops have written the triples [P], and the tracking set is still
    the one built from the listing. *)
Definition rewriting (a : Aggregator) (files : list afero.FileInfo)
    (w0 : World) (P : entries) (st : gmap string bool * bool) (w : World) : Prop :=
  st.1 = foldl trackFile ∅ files ∧
  w_ops w = (w_ops w0 ++ writesOf a P)%list.

(** The operations applied since [w0] are the first ones of [full]. *)
Definition stopped (w0 : World) (full : list FsOp) (w : World) : Prop :=
  ∃ ops, ops `prefix_of` full ∧ w_ops w = (w_ops w0 ++ ops)%list.

End aggregator.

(** ** hash/fnv and encoding/hex *)

Module fnv.

Definition offset64 : Z := 14695981039346656037.
Definition prime64 : Z := 1099511628211.

(** One round of the [Write] method of [sum64]: [hash *= prime64; hash ^= sum64(c)] on
    64-bit unsigned integers. *)
Definition step (hash : Z) (c : ascii) : Z :=
  Z.lxor ((hash * prime64) mod 2 ^ 64) (Z.of_N (N_of_ascii c)).

Definition Write (hash : Z) (data : string) : Z :=
  foldl step hash (list_ascii_of_string data).

(** [New64()]. *)
Definition New64 : Z := offset64.

(** [h.Sum(nil)]: the eight bytes of the state, most significant first. *)
Definition Sum (hash : Z) : list Z :=
  (λ i, Z.land (Z.shiftr hash (8 * i)) 255) <$> [7; 6; 5; 4; 3; 2; 1; 0]%Z.

End fnv.

Module hex.

Definition hextable : list ascii := list_ascii_of_string "0123456789abcdef".

Definition digit (v : Z) : ascii := default "0"%char (hextable !! Z.to_nat v).

(** [hex.EncodeToString]: two digits per byte. *)
Fixpoint EncodeToString (src : list Z) : string :=
  match src with
  | [] => ""
  | v :: rest =>
      String (digit (Z.shiftr v 4)) (String (digit (Z.land v 15)) (EncodeToString rest))
  end.

End hex.

(** ** github.com/davecgh/go-spew: the formatter behind [printer.Fprintf] *)

Module spew.

Definition joinWith (sep : string) (parts : list string) : string :=
  match parts with
  | [] => ""
  | p :: rest => foldl (λ acc q, acc +:+ sep +:+ q) p rest
  end.

(** [sortValues(keys, cs)] on string keys: byte-wise order. *)
Definition sortKeys (keys : list string) : list string :=
  merge_sort String.le keys.

(** The [%#v] rendering of a [map[string]string] under
    [ConfigState{SortKeys: true, DisableMethods: true, SpewKeys: true}]:
    the type in parentheses, then [<nil>] for a nil map, else [map[], the
    entries as [key:value] in sorted key order separated by one space, and
    the closing bracket.  Strings are written as they are, unquoted. *)
Definition Sprintf_map (m : gomap) : string :=
  "(map[string]string)" +:+
  match m with
  | gonil => "<nil>"
  | gomake es =>
      "map[" +:+
      joinWith " "
        ((λ k, k +:+ ":" +:+ default "" (entries_get k es)) <$> sortKeys es.*1)
      +:+ "]"
  end.

End spew.

(** ** Package main: the controller that writes one target config map *)

Module main.

(** Modelled from the spec: the declarations of [ConfigMap] and of its
    metadata are not among the sources at hand.  The record has the fields
    the functions below read and write: the data mapping, and in the
    metadata the identity, the labels, the annotations and the version
    token. *)
Record Metadata : Type :=
  { Name : string;
    Namespace : string;
    Annotations : gmap string string;
    Labels : gmap string string;
    ResourceVersion : string }.

Record ConfigMap : Type := { Data : gomap; Meta : Metadata }.

Record ConfigMapList : Type := { Items : list ConfigMap }.

(** Modelled from the spec: [newConfigMap] is not among the sources at hand.
    It stamps the identity; the maps it hands out are allocated and empty
    (the callers assign into them). *)
Definition newConfigMap (namespace name : string) : ConfigMap :=
  {| Data := gomake [];
     Meta := {| Name := name; Namespace := namespace; Annotations := ∅;
                Labels := ∅; ResourceVersion := "" |} |}.

(** Modelled from the spec: the client of the destination store is not
    among the sources at hand; these are its four calls as the controller
    uses them.  [getConfigMap] answers [ErrNotExist] for a resource that is
    not there. *)
Record k8sClient : Type :=
  { getConfigMaps : string → string → result ConfigMapList;
    getConfigMap : string → string → result ConfigMap;
    client_createConfigMap : ConfigMap → option error;
    client_updateConfigMap : ConfigMap → option error }.

Record controller : Type :=
  { client : k8sClient;
    targetNamespace : string;
    targetName : string;
    selector : string;
    namespaces : list string }.

(** The mutating calls a cycle makes on the destination store. *)
Inductive call : Type :=
| CallCreate (cm : ConfigMap)
| CallUpdate (cm : ConfigMap).

(** [hashConfigMap]: FNV-1 (64 bit) of the sorted rendering of [cm.Data],
    in hexadecimal. *)
Definition hashConfigMap (cm : ConfigMap) : string :=
  hex.EncodeToString
    (fnv.Sum (fnv.Write fnv.New64 (spew.Sprintf_map (Data cm)))).

(** [compareConfigMaps]: true if they are the same. *)
Definition compareConfigMaps (a b : ConfigMap) : bool :=
  bool_decide (hashConfigMap a = hashConfigMap b).

(** [fmt.Sprintf("%s_%s_%s", namespace, name, k)]. *)
Definition aggregateKey (namespace name k : string) : string :=
  namespace +:+ "_" +:+ name +:+ "_" +:+ k.

Definition isTarget (c : controller) (cm : ConfigMap) : bool :=
  bool_decide (Namespace (Meta cm) = targetNamespace c) &&
  bool_decide (Name (Meta cm) = targetName c).

(** [createConfigMap], lines 150-158: one item of a list. *)
Definition mergeItem (c : controller) (data : entries) (cm : ConfigMap) : entries :=
  if isTarget c cm then data
  else
    foldl
      (λ data kv,
         entries_set (aggregateKey (Namespace (Meta cm)) (Name (Meta cm)) kv.1)
           kv.2 data)
      data (range (Data cm)).

(** The [(aggregate key, value)] pairs an item contributes, in the order
    in which the loop folds them. *)
Definition triplesOf (c : controller) (cm : ConfigMap) : entries :=
  if isTarget c cm then []
  else
    (λ kv, (aggregateKey (Namespace (Meta cm)) (Name (Meta cm)) kv.1, kv.2))
      <$> range (Data cm).

Definition triples (c : controller) (items : list ConfigMap) : entries :=
  items ≫= triplesOf c.

(** Two listed collections that differ at most in the order in which their
    data maps hand out their entries. *)
Definition sameItem (i1 i2 : ConfigMap) : Prop :=
  Namespace (Meta i1) = Namespace (Meta i2) ∧ Name (Meta i1) = Name (Meta i2) ∧
  wf (Data i1) ∧ wf (Data i2) ∧ same_function (Data i1) (Data i2).

Definition sameItems (l1 l2 : ConfigMapList) : Prop :=
  Forall2 sameItem (Items l1) (Items l2).

(** All listings succeed: [lists] are the answers, namespace by namespace. *)
Definition listed (flag_selector : string) (c : controller)
    (nss : list string) (lists : list ConfigMapList) : Prop :=
  Forall2 (λ n list, getConfigMaps (client c) n flag_selector = Ok list) nss lists.

(** The store with the collections of the target's identity left out of
    every listing. *)
Definition withoutTarget (c : controller) : controller :=
  {| client :=
       {| getConfigMaps := λ n sel,
            match getConfigMaps (client c) n sel with
            | Ok list =>
                Ok {| Items := filter (λ cm, isTarget c cm = false) (Items list) |}
            | Err e => Err e
            end;
          getConfigMap := getConfigMap (client c);
          client_createConfigMap := client_createConfigMap (client c);
          client_updateConfigMap := client_updateConfigMap (client c) |};
     targetNamespace := targetNamespace c;
     targetName := targetName c;
     selector := selector c;
     namespaces := namespaces c |}.

(** [createConfigMap], lines 143-159: the loop over the namespaces.  The
    result comes with the namespaces that were queried, in order.
    [flag_selector] is the package-level variable [selector]. *)
Fixpoint collect (flag_selector : string) (c : controller) (data : entries)
    (nss : list string) : list string * result entries :=
  match nss with
  | [] => ([], Ok data)
  | n :: rest =>
      match getConfigMaps (client c) n flag_selector with
      | Err e =>
          ([n], Err (errWrap e ("failed to get config maps for " +:+ n +:+ " "
                                +:+ selector c)))
      | Ok list =>
          let r := collect flag_selector c (foldl (mergeItem c) data (Items list)) rest in
          (n :: r.1, r.2)
      end
  end.

Definition createConfigMap (flag_selector : string) (c : controller)
  : list string * result ConfigMap :=
  match collect flag_selector c [] (namespaces c) with
  | (queried, Err e) => (queried, Err e)
  | (queried, Ok data) =>
      let cm := newConfigMap (targetNamespace c) (targetName c) in
      (queried,
       Ok {| Data := gomake data;
             Meta := {| Name := Name (Meta cm); Namespace := Namespace (Meta cm);
                        Annotations :=
                          <["configmap-aggregator" := "target"]> (Annotations (Meta cm));
                        Labels := Labels (Meta cm);
                        ResourceVersion := ResourceVersion (Meta cm) |} |})
  end.

(** [for k, v := range existing { m[k] = v }]. *)
Definition copyInto (existing m : gmap string string) : gmap string string :=
  foldl (λ m kv, <[kv.1 := kv.2]> m) m (map_to_list existing).

(** [upsertConfigMap], lines 177-184: labels, annotations and version of
    the existing resource are copied onto the candidate. *)
Definition adopt (existing cm : ConfigMap) : ConfigMap :=
  {| Data := Data cm;
     Meta := {| Name := Name (Meta cm); Namespace := Namespace (Meta cm);
                Annotations :=
                  copyInto (Annotations (Meta existing)) (Annotations (Meta cm));
                Labels := copyInto (Labels (Meta existing)) (Labels (Meta cm));
                ResourceVersion := ResourceVersion (Meta existing) |} |}.

(** [upsertConfigMap]: the mutating calls made and the returned error. *)
Definition upsertConfigMap (c : controller) (cm : ConfigMap)
  : list call * option error :=
  match getConfigMap (client c) (targetNamespace c) (targetName c) with
  | Err e =>
      if decide (e = ErrNotExist) then
        ([CallCreate cm], client_createConfigMap (client c) cm)
      else
        ([], Wrap (Some e)
               ("failed to get config map " +:+ targetNamespace c +:+ "/"
                +:+ targetName c))
  | Ok existing =>
      let cm := adopt existing cm in
      if compareConfigMaps existing cm then ([], None)
      else ([CallUpdate cm], client_updateConfigMap (client c) cm)
  end.

(** [process]. *)
Definition process (flag_selector : string) (c : controller)
  : list string * list call * option error :=
  match createConfigMap flag_selector c with
  | (queried, Err e) => (queried, [], Some e)
  | (queried, Ok cm) =>
      let r := upsertConfigMap c cm in (queried, r.1, r.2)
  end.

End main.

(** ** Package main, [main.go]: the revision without the content comparison.
    Its [createConfigMap] is, line for line, the one of [main]. *)

Module main_go.

Import main.

Definition createConfigMap := main.createConfigMap.

(** [upsertConfigMap] of [main.go]: an existing resource is always updated. *)
Definition upsertConfigMap (c : controller) (cm : ConfigMap)
  : list call * option error :=
  match getConfigMap (client c) (targetNamespace c) (targetName c) with
  | Err e =>
      if decide (e = ErrNotExist) then
        ([CallCreate cm], client_createConfigMap (client c) cm)
      else
        ([], Wrap (Some e)
               ("failed to get config map " +:+ targetNamespace c +:+ "/"
                +:+ targetName c))
  | Ok existing =>
      let cm := adopt existing cm in
      ([CallUpdate cm], client_updateConfigMap (client c) cm)
  end.

(** The package-level flag variables. *)
Record flags : Type :=
  { flag_selector : string; flag_endpoint : string; flag_namespaces : list string }.

(** What a run of the command leaves: the lines printed, the argument of
    [os.Exit] ([None] when the function returns), the namespaces queried and
    the mutating calls made. *)
Record run : Type :=
  { printed : list string;
    status : option Z;
    queried : list string;
    calls : list call }.

(** [runAggregator] of [main.go].  Modelled from the spec: [newk8sClient] is
    not among the sources at hand; the client it builds for an endpoint is a
    parameter. *)
Definition runAggregator (newk8sClient : string → k8sClient) (fl : flags)
    (args : list string) : run :=
  match args with
  | [targetNamespace; targetName] =>
      let namespaces :=
        match flag_namespaces fl with
        | [] => [""]
        | _ :: _ => flag_namespaces fl
        end in
      let c :=
        {| client := newk8sClient (flag_endpoint fl);
           selector := flag_selector fl;
           namespaces := namespaces;
           targetNamespace := targetNamespace;
           targetName := targetName |} in
      match createConfigMap (flag_selector fl) c with
      | (queried, Err e) =>
          {| printed := [Error e]; status := Some (-4)%Z; queried := queried;
             calls := [] |}
      | (queried, Ok cm) =>
          match upsertConfigMap c cm with
          | (calls, Some e) =>
              {| printed := [Error e]; status := Some (-4)%Z; queried := queried;
                 calls := calls |}
          | (calls, None) =>
              {| printed := []; status := None; queried := queried; calls := calls |}
          end
      end
  | _ =>
      {| printed := ["namespace and name of target configmap is required"];
         status := Some (-2)%Z; queried := []; calls := [] |}
  end.

End main_go.

(** ** Fixtures: the listers, stores and sinks of [aggregator_test.go] *)

Module fixtures.

Import aggregator.

(** [mockConfigMaps]. *)
Definition mockConfigMaps : ConfigMapList :=
  {| Items :=
       [ {| Meta := {| Name := "item1"; Namespace := "default" |};
            Data := gomake [("foo.txt", "1234567890"); ("bar.txt", "0987654321")] |};
         {| Meta := {| Name := "item2"; Namespace := "default" |};
            Data := gomake [("baz.txt", "qwertyuiop"); ("abc.txt", "asdfghjkl")] |} ] |}.

(** [mockLister]: the same list for every namespace. *)
Definition mockLister : ConfigMapLister := λ _ _, Ok mockConfigMaps.

(** A lister whose query of [kube-system] fails. *)
Definition failingLister : ConfigMapLister := λ n _,
  if decide (n = "kube-system") then Err (errNew "boom") else Ok mockConfigMaps.

(** A sink that answers every request with the given status. *)
Definition sink (status : Z) : Env :=
  {| url_Parse := λ _, None;
     http_Do := λ _, Ok {| http.StatusCode := status |};
     NewLogger := Ok ZapLogger |}.

(** A sink that cannot be reached. *)
Definition unreachable : Env :=
  {| url_Parse := λ _, None;
     http_Do := λ _, Err (errNew "connection refused");
     NewLogger := Ok ZapLogger |}.

Definition world (fs : afero.Fs) : World :=
  {| w_fs := fs; w_ops := []; w_queries := []; w_requests := [] |}.

(** [afero.NewMemMapFs()]. *)
Definition emptyFs : afero.Fs := ∅.

(** The store of [TestOnceWithOutputDir] after [fs.Mkdir("/tmp", 0777)]. *)
Definition tmpFs : afero.Fs := {[ ["tmp"] := afero.Dir ]}.

(** [/tmp] holds a stale file, and the working directory has a file of the
    same name. *)
Definition staleFs : afero.Fs :=
  {[ ["tmp"] := afero.Dir;
     ["tmp"; "stale.txt"] := afero.File "old";
     ["stale.txt"] := afero.File "keep" ]}.

(** The aggregator [New] returns, or the initial one when [New] fails. *)
Definition built (env : Env) (options : list OptionsFunc) : Aggregator :=
  default initial (New env options).1.

Definition defaultDir : Aggregator :=
  built (sink 200) [SetConfigMapLister (Some mockLister); SetFS (Some afero.MemMapFs)].

Definition tmpDir : Aggregator :=
  built (sink 200)
    [SetConfigMapLister (Some mockLister); SetFS (Some afero.MemMapFs);
     SetOutputDir "/tmp"].

Definition hooked (env : Env) : Aggregator :=
  built env
    [SetConfigMapLister (Some mockLister); SetFS (Some afero.MemMapFs);
     SetWebHook env "http://127.0.0.1:9090/reload"].

Definition twoNamespaces : Aggregator :=
  built (sink 200)
    [SetConfigMapLister (Some failingLister); SetFS (Some afero.MemMapFs);
     SetNamespaces ["kube-system"; "default"]].

(** A webhook is configured; [default] lists the mock collections and the
    query of [kube-system], the second namespace, fails. *)
Definition hookedFailing (env : Env) : Aggregator :=
  built env
    [SetConfigMapLister (Some failingLister); SetFS (Some afero.MemMapFs);
     SetNamespaces ["default"; "kube-system"];
     SetWebHook env "http://127.0.0.1:9090/reload"].

(** Two namespaces that both list the mock collections: every file name is
    produced twice in a cycle. *)
Definition listedTwice : Aggregator :=
  built (sink 200)
    [SetConfigMapLister (Some mockLister); SetFS (Some afero.MemMapFs);
     SetNamespaces ["staging"; "production"]].

(** An environment whose URL parser rejects what does not start with
    [http], as [url.Parse] rejects the invalid URL of [TestNew]. *)
Definition picky : Env :=
  {| url_Parse := λ u,
       if HasPrefix u "http" then None
       else Some (errNew "first path segment in URL cannot contain colon");
     http_Do := λ _, Ok {| http.StatusCode := 200 |};
     NewLogger := Ok ZapLogger |}.

(** An environment in which no logger can be built. *)
Definition noLogger : Env :=
  {| url_Parse := λ _, None;
     http_Do := λ _, Ok {| http.StatusCode := 200 |};
     NewLogger := Err (errNew "no sink") |}.

(** A Kubernetes client whose listing of [kube-system] is refused. *)
Definition refusing : K8s := λ n _,
  if decide (n = "kube-system") then Err (errNew "forbidden") else Ok mockConfigMaps.

Definition viaK8s : Aggregator :=
  built (sink 200)
    [SetConfigMapLister (Some (K8s_List refusing)); SetFS (Some afero.MemMapFs);
     SetNamespaces ["kube-system"; "default"]].

(** A second cycle starts from the store the first one left, with empty
    logs. *)
Definition again (w : World) : World := world (w_fs w).

(** A source collection [ns/cm], and a target that an earlier cycle wrote
    when [ns/cm] held the single key [a]. *)
Definition source : main.ConfigMap :=
  {| main.Data := gomake [("a", "1"); ("b", "2")];
     main.Meta := {| main.Name := "cm"; main.Namespace := "ns";
                     main.Annotations := ∅; main.Labels := ∅;
                     main.ResourceVersion := "7" |} |}.

(** The same collection with its entries handed out in another order. *)
Definition sourceReordered : main.ConfigMap :=
  {| main.Data := gomake [("b", "2"); ("a", "1")];
     main.Meta := {| main.Name := "cm"; main.Namespace := "ns";
                     main.Annotations := ∅; main.Labels := ∅;
                     main.ResourceVersion := "7" |} |}.

Definition target (data : gomap) : main.ConfigMap :=
  {| main.Data := data;
     main.Meta := {| main.Name := "target"; main.Namespace := "default";
                     main.Annotations := {[ "configmap-aggregator" := "target" ]};
                     main.Labels := {[ "team" := "ops" ]};
                     main.ResourceVersion := "41" |} |}.


(** A destination store that holds [existing] as the target (or nothing),
    lists [items] for every namespace and accepts every write. *)
Definition store (existing : option main.ConfigMap) (items : list main.ConfigMap)
  : main.k8sClient :=
  {| main.getConfigMaps := λ _ _, Ok {| main.Items := items |};
     main.getConfigMap := λ _ _,
       match existing with
       | Some cm => Ok cm
       | None => Err ErrNotExist
       end;
     main.client_createConfigMap := λ _, None;
     main.client_updateConfigMap := λ _, None |}.

Definition controllerOf (existing : option main.ConfigMap)
    (items : list main.ConfigMap) : main.controller :=
  {| main.client := store existing items;
     main.targetNamespace := "default";
     main.targetName := "target";
     main.selector := "";
     main.namespaces := [""] |}.

(** Two collections whose composite keys collide on [a_b_c_d], and the
    target itself among the listed collections. *)
Definition colliding : list main.ConfigMap :=
  [ {| main.Data := gomake [("d", "first")];
       main.Meta := {| main.Name := "b_c"; main.Namespace := "a";
                       main.Annotations := ∅; main.Labels := ∅;
                       main.ResourceVersion := "1" |} |};
    target (gomake [("a_b_c_d", "stale")]);
    {| main.Data := gomake [("d", "second")];
       main.Meta := {| main.Name := "c"; main.Namespace := "a_b";
                       main.Annotations := ∅; main.Labels := ∅;
                       main.ResourceVersion := "2" |} |} ].

(** A destination store whose look-up of the target fails with [e], and
    whose listing of [kube-system] fails. *)
Definition brokenStore (e : error) : main.k8sClient :=
  {| main.getConfigMaps := λ n _,
       if decide (n = "kube-system") then Err (errNew "forbidden")
       else Ok {| main.Items := [source] |};
     main.getConfigMap := λ _ _, Err e;
     main.client_createConfigMap := λ _, None;
     main.client_updateConfigMap := λ _, None |}.

Definition brokenController (e : error) (nss : list string) : main.controller :=
  {| main.client := brokenStore e;
     main.targetNamespace := "default";
     main.targetName := "target";
     main.selector := "app=web";
     main.namespaces := nss |}.

(** The candidate [createConfigMap] builds, or an empty one when it fails. *)
Definition candidate (c : main.controller) : main.ConfigMap :=
  match (main.createConfigMap "" c).2 with
  | Ok cm => cm
  | Err _ => main.newConfigMap "" ""
  end.

End fixtures.

(** * Properties *)

Local Open Scope list_scope.

(** ** The constructor [New] *)

Section constructor.

Import aggregator.

Variable env : Env.

Lemma Wrap_Some (e : error) (msg : string) :
  Wrap (Some e) msg = Some (errWrap e msg).
Proof. reflexivity. Qed.

Lemma New_options_fail (options : list OptionsFunc) (a : Aggregator) (e : error) :
  run_options options initial = (a, Some e) →
  New env options = (None, Some (errWrap e "failed to run options function")).
Proof. intros Hrun. unfold New. by rewrite Hrun. Qed.

Lemma New_without_lister (options : list OptionsFunc) (a : Aggregator) :
  run_options options initial = (a, None) →
  lister a = None →
  ∃ e, New env options = (None, Some e).
Proof.
  intros Hrun Hnil. unfold New. rewrite Hrun.
  destruct (logger a) as [lg|].
  - rewrite Hnil. eauto.
  - destruct (NewLogger env) as [lg|e]; simpl.
    + rewrite Hnil. eauto.
    + eauto.
Qed.

Lemma New_with_lister (options : list OptionsFunc) (a : Aggregator)
    (l : ConfigMapLister) :
  run_options options initial = (a, None) →
  lister a = Some l →
  is_Some (logger a) ∨ (∃ lg, NewLogger env = Ok lg) →
  ∃ a', New env options = (Some a', None) ∧
        lister a' = Some l ∧
        namespaces a' = (if decide (namespaces a = []) then [""] else namespaces a) ∧
        is_Some (logger a') ∧ is_Some (fs a') ∧
        webhook a' = webhook a ∧ webhookMethod a' = webhookMethod a ∧
        outputDir a' = outputDir a ∧ selector a' = selector a.
Proof.
  intros Hrun Hl Hlog. unfold New. rewrite Hrun.
  destruct (logger a) as [lg|] eqn:Hlg.
  - rewrite Hl. eexists. split; [reflexivity|]. simpl.
    repeat split; eauto.
    + destruct (namespaces a); by case_decide.
    + destruct (fs a); eauto.
  - destruct Hlog as [[? [=]]|[lg Hnew]]. rewrite Hnew. simpl. rewrite Hl.
    eexists. split; [reflexivity|]. simpl.
    repeat split; eauto.
    + destruct (namespaces a); by case_decide.
    + destruct (fs a); eauto.
Qed.

(** No exported option touches the method; the webhook it leaves behind
    has passed [url.Parse]. *)
Lemma exported_preserves (f : OptionsFunc) (a a' : Aggregator) :
  exported env f → f a = (a', None) →
  webhookMethod a' = webhookMethod a ∧
  (webhook a = "" ∨ url_Parse env (webhook a) = None →
   webhook a' = "" ∨ url_Parse env (webhook a') = None).
Proof.
  intros Hf Hrun. destruct Hf; cbv [SetNamespaces SetLabelSelector
    SetConfigMapLister SetLogger SetWebHook SetOutputDir SetFS] in Hrun;
    try (injection Hrun as <-; by split).
  destruct (url_Parse env hook) eqn:Hparse; [done|].
  injection Hrun as <-. split; [done|]. intros _. by right.
Qed.

Lemma run_options_exported (options : list OptionsFunc) (a a' : Aggregator) :
  Forall (exported env) options → run_options options a = (a', None) →
  webhookMethod a' = webhookMethod a ∧
  (webhook a = "" ∨ url_Parse env (webhook a) = None →
   webhook a' = "" ∨ url_Parse env (webhook a') = None).
Proof.
  intros Hall. revert a. induction Hall as [|f rest Hf _ IH]; intros a Hrun.
  - injection Hrun as <-. by split.
  - simpl in Hrun. destruct (f a) as [a1 [e|]] eqn:Hfa; [done|].
    destruct (exported_preserves f a a1 Hf Hfa) as [Hm Hw].
    destruct (IH a1 Hrun) as [Hm' Hw']. split; [congruence|auto].
Qed.

(** An aggregator built from exported options posts to a webhook that
    parses: the request for it can always be made. *)
Lemma New_exported_request (options : list OptionsFunc) (a : Aggregator) :
  Forall (exported env) options → New env options = (Some a, None) →
  webhookMethod a = "POST" ∧
  http_NewRequest env (webhookMethod a) (webhook a) None =
    (if decide (webhook a = "")
     then http_NewRequest env "POST" "" None
     else Ok {| http.Method := "POST"; http.URL := webhook a; http.Body := None |}).
Proof.
  intros Hall Hnew. unfold New in Hnew.
  destruct (run_options options initial) as [a0 [e|]] eqn:Hrun; [done|].
  destruct (run_options_exported options initial a0 Hall Hrun) as [Hm Hw].
  specialize (Hw (or_introl eq_refl)).
  assert (webhookMethod a = "POST" ∧ webhook a = webhook a0) as [Hma Hwa].
  { destruct (logger a0); [|destruct (NewLogger env); [|done]]; simpl in Hnew;
      (destruct (lister a0); [|done]); injection Hnew as <-; by split. }
  split; [done|]. rewrite Hma, Hwa. case_decide as Hempty.
  - by rewrite Hempty.
  - destruct Hw as [?|Hparse]; [done|].
    unfold http_NewRequest. by rewrite Hparse.
Qed.

End constructor.

(** C10 (counterexample).  A lister is set and the one option succeeds,
    but no logger was set and the default logger cannot be built: [New]
    returns a nil aggregator and the logger error. *)
Lemma New_with_lister_logger_failure :
  (∃ a, aggregator.run_options
          [aggregator.SetConfigMapLister (Some fixtures.mockLister)] aggregator.initial
        = (a, None) ∧
        aggregator.lister a = Some fixtures.mockLister ∧
        aggregator.logger a = None) ∧
  NewLogger fixtures.noLogger = Err (errNew "no sink") ∧
  aggregator.New fixtures.noLogger
    [aggregator.SetConfigMapLister (Some fixtures.mockLister)]
  = (None, Some (errWrap (errNew "no sink") "failed to create logger")).
Proof. split; [eexists; repeat split|split; reflexivity]. Qed.

(** C10, amended.  [New] with options that leave no [ConfigMapLister] set
    returns a nil aggregator and a non-nil error.  With a lister set, every
    option succeeding and a logger at hand (one set by an option, or the
    default logger can be built), [New] returns a non-nil aggregator and a
    nil error; its namespace list is the configured one, and the single
    empty string when none was configured. *)
Theorem New_requires_lister (env : Env) (options : list aggregator.OptionsFunc) :
  ((∀ a, aggregator.run_options options aggregator.initial = (a, None) →
         aggregator.lister a = None) →
   ∃ e, aggregator.New env options = (None, Some e))
  ∧
  (∀ a l,
     aggregator.run_options options aggregator.initial = (a, None) →
     aggregator.lister a = Some l →
     is_Some (aggregator.logger a) ∨ (∃ lg, NewLogger env = Ok lg) →
     ∃ a', aggregator.New env options = (Some a', None) ∧
           aggregator.lister a' = Some l ∧
           aggregator.namespaces a' =
             (if decide (aggregator.namespaces a = []) then [""]
              else aggregator.namespaces a)).
Proof.
  split.
  - intros Hnil.
    destruct (aggregator.run_options options aggregator.initial) as [a [e|]] eqn:Hrun.
    + eexists. by eapply New_options_fail.
    + eapply New_without_lister; eauto.
  - intros a l Hrun Hl Hlog.
    destruct (New_with_lister env options a l Hrun Hl Hlog) as (a' & ? & ? & ? & _).
    eauto.
Qed.

Lemma New_requires_lister_witness :
  (∃ e, aggregator.New (fixtures.sink 200) [aggregator.SetOutputDir "/tmp"]
        = (None, Some e))
  ∧
  (∃ a', aggregator.New (fixtures.sink 200)
           [aggregator.SetConfigMapLister (Some fixtures.mockLister)]
         = (Some a', None) ∧
         aggregator.lister a' = Some fixtures.mockLister ∧
         aggregator.namespaces a' = [""]).
Proof.
  split.
  - apply (proj1 (New_requires_lister (fixtures.sink 200) [aggregator.SetOutputDir "/tmp"])).
    intros a [= <-]. reflexivity.
  - apply (proj2 (New_requires_lister (fixtures.sink 200)
                    [aggregator.SetConfigMapLister (Some fixtures.mockLister)])
             _ fixtures.mockLister eq_refl eq_refl).
    right. exists ZapLogger. reflexivity.
Defined.

(** ** Reasoning about statements *)

Section statements.

Import aggregator.

Lemma outcome_ret {A} (x : A) w (Q : A → World → Prop) E :
  Q x w → outcome (ret x) w Q E.
Proof. done. Qed.

Lemma outcome_fail {A} (e : error) w (Q : A → World → Prop) (E : error → World → Prop) :
  E e w → outcome (fail e) w Q E.
Proof. done. Qed.

Lemma outcome_bind {A B} (m : M A) (k : A → M B) w Q E :
  outcome m w (λ x w', outcome (k x) w' Q E) E →
  outcome (bind m k) w Q E.
Proof. unfold outcome, bind. by destruct (m w) as [w' [x|e]]. Qed.

Lemma outcome_wrapf {A} (m : M A) (msg : string) w Q E :
  outcome m w Q (λ e w', E (errWrap e msg) w') →
  outcome (wrapf m msg) w Q E.
Proof. unfold outcome, wrapf. by destruct (m w) as [w' [x|e]]. Qed.

Lemma outcome_weaken {A} (m : M A) w (Q Q' : A → World → Prop)
    (E E' : error → World → Prop) :
  outcome m w Q E →
  (∀ x w', Q x w' → Q' x w') → (∀ e w', E e w' → E' e w') →
  outcome m w Q' E'.
Proof. unfold outcome. destruct (m w) as [w' [x|e]]; auto. Qed.

(** The loop rule: an invariant of the loop variables and the world. *)
Lemma outcome_forM {S A} (body : S → A → M S) (I : S → World → Prop)
    (E : error → World → Prop) (l : list A) :
  (∀ s x w, x ∈ l → I s w → outcome (body s x) w I E) →
  ∀ s w, I s w → outcome (forM body s l) w I E.
Proof.
  induction l as [|x l IH]; intros Hbody s w HI; simpl.
  - by apply outcome_ret.
  - apply outcome_bind.
    eapply outcome_weaken; [apply Hbody; [left|done]| |done].
    intros s' w' HI'. apply IH; [|done].
    intros s1 x1 w1 Hin. apply Hbody. by right.
Qed.

Lemma outcome_eq {A} (m : M A) w w' r Q E :
  m w = (w', r) → outcome m w Q E →
  match r with Ok x => Q x w' | Err e => E e w' end.
Proof. unfold outcome. by intros ->. Qed.

End statements.

(** ** The cycle [Once]: what the synchronisation leaves for the webhook *)

Section cycle.

Import aggregator.

Variable env : Env.
Variable a : Aggregator.

Lemma tracks_silent w0 changed w : tracks w0 changed w → silent w0 w.
Proof. by intros [? _]. Qed.

Lemma tracks_step w0 changed w op :
  tracks w0 changed w →
  tracks w0 true
    {| w_fs := w_fs w; w_ops := w_ops w ++ [op]; w_queries := w_queries w;
       w_requests := w_requests w |}.
Proof.
  intros [Hreq (ops & Hops & _)]. split; [done|].
  exists (ops ++ [op])%list. simpl. rewrite Hops, <- app_assoc. split; [done|].
  split; [|done]. intros _. by destruct ops.
Qed.

Lemma syncKey_tracks w0 item st kv w :
  tracks w0 st.2 w →
  outcome (syncKey a item st kv) w (λ st' w', tracks w0 st'.2 w') (λ _, silent w0).
Proof.
  intros Htr. pose proof (tracks_silent _ _ _ Htr) as Hsil.
  unfold outcome, syncKey, bind, wrapf, readFile, writeFile, debug, ret, fail.
  repeat case_match; simplify_eq/=; eauto using tracks_step.
Qed.

Lemma syncItem_tracks w0 st item w :
  tracks w0 st.2 w →
  outcome (syncItem a st item) w (λ st' w', tracks w0 st'.2 w') (λ _, silent w0).
Proof.
  intros Htr. unfold syncItem.
  apply (outcome_forM _ (λ st' w', tracks w0 st'.2 w')); [|done].
  intros st' kv w' _. apply syncKey_tracks.
Qed.

Lemma syncNamespace_tracks w0 st n w :
  tracks w0 st.2 w →
  outcome (syncNamespace a st n) w (λ st' w', tracks w0 st'.2 w') (λ _, silent w0).
Proof.
  intros Htr. unfold syncNamespace. apply outcome_bind, outcome_wrapf.
  unfold outcome at 1, list_configmaps.
  destruct (lister a) as [l|]; [|by eapply tracks_silent].
  destruct (l n (selector a)) as [list|e]; [|by eapply tracks_silent].
  apply (outcome_forM _ (λ st' w', tracks w0 st'.2 w')); [|done].
  intros st' item w' _. apply syncItem_tracks.
Qed.

Lemma removeLeft_tracks w0 changed k w :
  tracks w0 changed w →
  outcome (removeLeft changed k) w (λ changed' w', tracks w0 changed' w')
    (λ _, silent w0).
Proof.
  intros Htr. pose proof (tracks_silent _ _ _ Htr) as Hsil.
  unfold outcome, removeLeft, bind, wrapf, remove, ret.
  repeat case_match; simplify_eq/=; eauto using tracks_step.
Qed.

(** The synchronisation sends no request, and the flag it returns is true
    exactly when it applied at least one write or removal. *)
Lemma syncFiles_tracks w :
  outcome (syncFiles a) w (λ changed w', tracks w changed w') (λ _, silent w).
Proof.
  assert (tracks w false w) as Htr0.
  { split; [done|]. exists []. by rewrite app_nil_r. }
  unfold syncFiles. apply outcome_bind, outcome_wrapf.
  unfold outcome at 1, readDir.
  destruct (afero.ReadDir (w_fs w) (outputDir a)) as [files|e]; [|done].
  apply outcome_bind.
  eapply outcome_weaken;
    [apply (outcome_forM _ (λ st' w', tracks w st'.2 w') (λ _, silent w))| |done];
    [|done|].
  - intros st' n w' _. apply syncNamespace_tracks.
  - intros st' w' Htr.
    apply (outcome_forM _ (λ changed' w', tracks w changed' w')); [|done].
    intros changed' k w'' _. apply removeLeft_tracks.
Qed.

Lemma syncFiles_changed_iff w w1 (changed : bool) :
  syncFiles a w = (w1, Ok changed) →
  (changed = true ↔ w_ops w1 ≠ w_ops w) ∧ w_requests w1 = w_requests w.
Proof.
  intros Hsync.
  pose proof (outcome_eq _ _ _ _ _ _ Hsync (syncFiles_tracks w))
    as [Hreq (ops & Hops & Hflag)]. simpl in Hreq.
  split; [|done]. rewrite Hflag, Hops. split.
  - intros Hne Heq. apply Hne.
    apply (app_inv_head (w_ops w)). by rewrite app_nil_r.
  - intros Hne ->. apply Hne. by rewrite app_nil_r.
Qed.

(** The webhook step: one request when [changed] holds and a webhook is
    configured, none otherwise. *)
Lemma notify_sends (changed : bool) (req : http.Request) w :
  changed = true → webhook a ≠ "" →
  http_NewRequest env (webhookMethod a) (webhook a) None = Ok req →
  w_requests (notify env a changed w).1 = (w_requests w ++ [req])%list ∧
  w_fs (notify env a changed w).1 = w_fs w ∧
  w_ops (notify env a changed w).1 = w_ops w.
Proof.
  intros -> Hhook Hreq. unfold notify. rewrite bool_decide_eq_false_2 by done.
  simpl. unfold bind, wrapf, do_request. rewrite Hreq.
  destruct (http_Do env req) as [resp|e]; [|done].
  by destruct (400 <=? http.StatusCode resp)%Z.
Qed.

Lemma notify_quiet (changed : bool) w :
  changed = false ∨ webhook a = "" →
  notify env a changed w = (w, Ok ()).
Proof.
  intros [->|Hhook]; unfold notify; [done|].
  rewrite bool_decide_eq_true_2 by done. by rewrite andb_false_r.
Qed.

(** A request that got an answer never fails the cycle, whatever the
    status of the answer: [errors.Wrapf] of the nil [err] is nil. *)
Lemma notify_answered (req : http.Request) (resp : http.Response) w :
  webhook a ≠ "" →
  http_NewRequest env (webhookMethod a) (webhook a) None = Ok req →
  http_Do env req = Ok resp →
  (notify env a true w).2 = Ok ().
Proof.
  intros Hhook Hreq Hdo. unfold notify. rewrite bool_decide_eq_false_2 by done.
  simpl. unfold bind, wrapf, do_request. rewrite Hreq, Hdo.
  by destruct (400 <=? http.StatusCode resp)%Z.
Qed.

Lemma notify_transport_failure (req : http.Request) (e : error) w :
  webhook a ≠ "" →
  http_NewRequest env (webhookMethod a) (webhook a) None = Ok req →
  http_Do env req = Err e →
  (notify env a true w).2 = Err (errWrap e "webhook request failed").
Proof.
  intros Hhook Hreq Hdo. unfold notify. rewrite bool_decide_eq_false_2 by done.
  simpl. unfold bind, wrapf, do_request. by rewrite Hreq, Hdo.
Qed.

Lemma Once_unfold w :
  Once env a w =
    match syncFiles a w with
    | (w1, Ok changed) =>
        match notify env a changed w1 with
        | (w2, Ok _) => (w2, None)
        | (w2, Err e) => (w2, Some e)
        end
    | (w1, Err e) => (w1, Some e)
    end.
Proof. unfold Once, bind. by destruct (syncFiles a w) as [w1 [changed|e]]. Qed.

End cycle.

(** C6 (counterexample).  A webhook is configured, the first namespace
    lists the mock collections and the query of the second one fails.  The
    cycle has applied four writes when it returns the listing error, and it
    sends no request.  The next cycle finds the four files in place, fails
    on the same query and sends no request either: the change is never
    notified. *)
Lemma Once_aborted_cycle_sends_nothing :
  let a := fixtures.hookedFailing (fixtures.sink 200) in
  let first := aggregator.Once (fixtures.sink 200) a (fixtures.world fixtures.emptyFs) in
  let second := aggregator.Once (fixtures.sink 200) a (fixtures.again first.1) in
  aggregator.webhook a = "http://127.0.0.1:9090/reload" ∧
  aggregator.w_ops first.1
    = [ aggregator.OpWrite "default_item1_foo.txt" "1234567890";
        aggregator.OpWrite "default_item1_bar.txt" "0987654321";
        aggregator.OpWrite "default_item2_baz.txt" "qwertyuiop";
        aggregator.OpWrite "default_item2_abc.txt" "asdfghjkl" ] ∧
  aggregator.w_queries first.1 = ["default"; "kube-system"] ∧
  first.2 = Some (errWrap (errNew "boom") "failed to list config maps for namespace ") ∧
  aggregator.w_requests first.1 = [] ∧
  aggregator.w_ops second.1 = [] ∧
  second.2 = Some (errWrap (errNew "boom") "failed to list config maps for namespace ") ∧
  aggregator.w_requests second.1 = [].
Proof. vm_compute. repeat split. Qed.

(** C6, amended.  In every cycle whose synchronisation completes (the
    output directory and every namespace are listed, every read, write and
    removal succeeds), the flag [changed] is true exactly when at least one
    write or removal was applied; the webhook is called iff [changed] is
    true and a webhook is configured, and then exactly one request is sent,
    with the configured method and URL and no body; otherwise no request is
    sent.  A cycle that returns before the webhook step sends none, whatever
    it has applied.  An aggregator built by [New] from the exported options
    has method POST, and its request can always be made. *)
Theorem Once_notifies_iff_changed (env : Env) (a : aggregator.Aggregator)
    (w : aggregator.World) :
  (∀ w1 changed,
     aggregator.syncFiles a w = (w1, Ok changed) →
     (changed = true ↔ aggregator.w_ops w1 ≠ aggregator.w_ops w) ∧
     (changed = true → aggregator.webhook a ≠ "" →
      ∀ req,
        http_NewRequest env (aggregator.webhookMethod a) (aggregator.webhook a) None
          = Ok req →
        aggregator.w_requests (aggregator.Once env a w).1
          = (aggregator.w_requests w ++ [req])%list ∧
        http.URL req = aggregator.webhook a ∧
        http.Body req = None ∧
        (aggregator.webhookMethod a ≠ "" →
         http.Method req = aggregator.webhookMethod a)) ∧
     (changed = false ∨ aggregator.webhook a = "" →
      aggregator.w_requests (aggregator.Once env a w).1 = aggregator.w_requests w))
  ∧
  (∀ w1 e,
     aggregator.syncFiles a w = (w1, Err e) →
     aggregator.w_requests (aggregator.Once env a w).1 = aggregator.w_requests w)
  ∧
  (∀ options,
     Forall (aggregator.exported env) options →
     aggregator.New env options = (Some a, None) →
     aggregator.webhookMethod a = "POST" ∧
     (aggregator.webhook a ≠ "" →
      http_NewRequest env (aggregator.webhookMethod a) (aggregator.webhook a) None
        = Ok {| http.Method := "POST"; http.URL := aggregator.webhook a;
                http.Body := None |})).
Proof.
  split; [|split].
  - intros w1 changed Hsync.
    destruct (syncFiles_changed_iff a w w1 changed Hsync) as [Hflag Hreq].
    split; [done|split].
    + intros Hch Hhook req Hnew. rewrite Once_unfold, Hsync.
      destruct (notify_sends env a changed req w1 Hch Hhook Hnew) as (Hsent & _).
      assert (aggregator.w_requests
                (match aggregator.notify env a changed w1 with
                 | (w2, Ok _) => (w2, None)
                 | (w2, Err e) => (w2, Some e)
                 end).1
              = aggregator.w_requests (aggregator.notify env a changed w1).1) as ->.
      { by destruct (aggregator.notify env a changed w1) as [w2 [[]|e]]. }
      rewrite Hsent, Hreq. split; [done|].
      unfold http_NewRequest in Hnew.
      destruct (http.validMethod _); [|done].
      destruct (url_Parse env _); [done|].
      injection Hnew as <-. simpl. repeat split. intros Hm. by case_decide.
    + intros Hquiet. rewrite Once_unfold, Hsync.
      by rewrite (notify_quiet env a changed w1 Hquiet).
  - intros w1 e Hsync. rewrite Once_unfold, Hsync. simpl.
    exact (outcome_eq _ _ _ _ _ _ Hsync (syncFiles_tracks a w)).
  - intros options Hall Hnew.
    destruct (New_exported_request env options a Hall Hnew) as [Hm Hreq].
    split; [done|]. intros Hhook. rewrite Hreq. by case_decide.
Qed.

Lemma Once_notifies_iff_changed_witness :
  aggregator.w_requests
    (aggregator.Once (fixtures.sink 200) (fixtures.hooked (fixtures.sink 200))
       (fixtures.world fixtures.emptyFs)).1
  = [ {| http.Method := "POST"; http.URL := "http://127.0.0.1:9090/reload";
         http.Body := None |} ]
  ∧
  aggregator.w_requests
    (aggregator.Once (fixtures.sink 200) fixtures.defaultDir
       (fixtures.world fixtures.emptyFs)).1
  = [].
Proof.
  split.
  - refine (proj1
      (proj1 (proj2 (proj1
         (Once_notifies_iff_changed (fixtures.sink 200)
            (fixtures.hooked (fixtures.sink 200)) (fixtures.world fixtures.emptyFs))
         (aggregator.syncFiles (fixtures.hooked (fixtures.sink 200))
            (fixtures.world fixtures.emptyFs)).1
         true _)) _ _ _ _)).
    + vm_compute. reflexivity.
    + reflexivity.
    + vm_compute. discriminate.
    + vm_compute. reflexivity.
  - refine (proj2 (proj2 (proj1
         (Once_notifies_iff_changed (fixtures.sink 200) fixtures.defaultDir
            (fixtures.world fixtures.emptyFs))
         (aggregator.syncFiles fixtures.defaultDir (fixtures.world fixtures.emptyFs)).1
         true _)) _).
    + vm_compute. reflexivity.
    + right. reflexivity.
Defined.

(** C4 (failing input).  The sink answers the one request of the cycle with
    status 500.  The four files are written and stay written, the request is
    sent, and [Once] returns nil: [errors.Wrapf] is applied to the nil [err]
    left by the transport check, so the status is never reported. *)
Theorem Once_webhook_status_500_returns_nil :
  let r := aggregator.Once (fixtures.sink 500) (fixtures.hooked (fixtures.sink 500))
             (fixtures.world fixtures.emptyFs) in
  http_Do (fixtures.sink 500)
    {| http.Method := "POST"; http.URL := "http://127.0.0.1:9090/reload";
       http.Body := None |} = Ok {| http.StatusCode := 500 |} ∧
  aggregator.w_requests r.1
    = [ {| http.Method := "POST"; http.URL := "http://127.0.0.1:9090/reload";
           http.Body := None |} ] ∧
  aggregator.w_fs r.1 !! ["default_item1_foo.txt"] = Some (afero.File "1234567890") ∧
  length (aggregator.w_ops r.1) = 4 ∧
  r.2 = None.
Proof. vm_compute. repeat split. Qed.

(** C5 (failing input).  The namespaces are [kube-system] and [default] and
    the query of [kube-system] fails.  [Once] stops at once, with only that
    namespace queried, but the error it returns was formatted with the empty
    string in place of the namespace. *)
Theorem Once_list_error_omits_namespace :
  let r := aggregator.Once (fixtures.sink 200) fixtures.twoNamespaces
             (fixtures.world fixtures.emptyFs) in
  aggregator.namespaces fixtures.twoNamespaces = ["kube-system"; "default"] ∧
  aggregator.w_queries r.1 = ["kube-system"] ∧
  r.2 = Some (errWrap (errNew "boom") "failed to list config maps for namespace ") ∧
  (Error <$> r.2) = Some "failed to list config maps for namespace : boom" ∧
  (λ e, Contains (Error e) "kube-system") <$> r.2 = Some false.
Proof. vm_compute. repeat split. Qed.

(** ** Go maps as entry lists *)

Section entries_facts.

Lemma entries_get_set_eq (k v : string) (es : entries) :
  entries_get k (entries_set k v es) = Some v.
Proof.
  induction es as [|[k' v'] es IH]; simpl.
  - by rewrite decide_True.
  - destruct (decide (k = k')) as [->|Hne]; simpl.
    + by rewrite decide_True.
    + by rewrite decide_False.
Qed.

Lemma entries_get_set_ne (k k' v : string) (es : entries) :
  k ≠ k' → entries_get k' (entries_set k v es) = entries_get k' es.
Proof.
  intros Hne. induction es as [|[k1 v1] es IH]; simpl.
  - rewrite decide_False; [done|congruence].
  - destruct (decide (k = k1)) as [->|Hne1]; simpl.
    + by rewrite !decide_False by congruence.
    + by rewrite IH.
Qed.

Lemma entries_get_app (k : string) (es1 es2 : entries) :
  entries_get k (es1 ++ es2) =
    match entries_get k es1 with
    | Some v => Some v
    | None => entries_get k es2
    end.
Proof.
  induction es1 as [|[k1 v1] es1 IH]; simpl; [done|].
  by destruct (decide (k = k1)).
Qed.

Lemma entries_get_None (k : string) (es : entries) :
  entries_get k es = None ↔ k ∉ es.*1.
Proof.
  induction es as [|[k1 v1] es IH]; simpl.
  - split; [intros _; apply not_elem_of_nil|done].
  - rewrite not_elem_of_cons, <- IH.
    destruct (decide (k = k1)) as [->|Hne]; [|tauto].
    split; [done|]. by intros [? _].
Qed.

Lemma entries_get_Some_elem (k v : string) (es : entries) :
  entries_get k es = Some v → (k, v) ∈ es.
Proof.
  induction es as [|[k1 v1] es IH]; simpl; [done|].
  destruct (decide (k = k1)) as [->|]; [intros [= ->]; left|right; auto].
Qed.

Lemma entries_elem_get (k v : string) (es : entries) :
  NoDup es.*1 → (k, v) ∈ es → entries_get k es = Some v.
Proof.
  induction es as [|[k1 v1] es IH]; simpl; [by intros _ ?%elem_of_nil|].
  intros [Hnot Hnd]%NoDup_cons [[= -> ->]|Hin]%elem_of_cons.
  - by rewrite decide_True.
  - rewrite decide_False; [auto|].
    intros ->. apply Hnot. apply list_elem_of_fmap. by exists (k1, v).
Qed.

(** Folding assignments: the last one for a key decides. *)
Lemma entries_get_assign (k : string) (l data : entries) :
  entries_get k (foldl assign data l) =
    match entries_get k (reverse l) with
    | Some v => Some v
    | None => entries_get k data
    end.
Proof.
  revert data. induction l as [|[k1 v1] l IH]; intros data; simpl; [done|].
  rewrite IH, reverse_cons, entries_get_app. simpl.
  destruct (entries_get k (reverse l)); [done|].
  unfold assign; simpl. destruct (decide (k = k1)) as [->|Hne].
  - apply entries_get_set_eq.
  - by apply entries_get_set_ne.
Qed.

Lemma entries_set_keys_NoDup (k v : string) (es : entries) :
  NoDup es.*1 → NoDup (entries_set k v es).*1.
Proof.
  induction es as [|[k1 v1] es IH]; simpl.
  - intros _. apply NoDup_singleton.
  - intros [Hnot Hnd]%NoDup_cons. destruct (decide (k = k1)) as [->|Hne]; simpl.
    + by apply NoDup_cons.
    + apply NoDup_cons. split; [|auto].
      intros Hin. apply Hnot.
      apply entries_get_None in Hnot.
      destruct (entries_get k1 (entries_set k v es)) eqn:Hget.
      * rewrite entries_get_set_ne in Hget by done. congruence.
      * by apply entries_get_None in Hget.
Qed.

Lemma assign_NoDup (l data : entries) :
  NoDup data.*1 → NoDup (foldl assign data l).*1.
Proof.
  revert data. induction l as [|kv l IH]; intros data Hnd; simpl; [done|].
  apply IH, entries_set_keys_NoDup, Hnd.
Qed.

(** Two well-formed tables with the same lookups hold the same entries. *)
Lemma same_function_Permutation (es1 es2 : entries) :
  NoDup es1.*1 → NoDup es2.*1 →
  (∀ k, entries_get k es1 = entries_get k es2) →
  es1 ≡ₚ es2.
Proof.
  intros Hnd1 Hnd2 Hsame.
  apply NoDup_Permutation.
  - eapply NoDup_fmap_1, Hnd1.
  - eapply NoDup_fmap_1, Hnd2.
  - intros [k v]. split; intros Hin.
    + apply entries_get_Some_elem. rewrite <- Hsame. by apply entries_elem_get.
    + apply entries_get_Some_elem. rewrite Hsame. by apply entries_elem_get.
Qed.

End entries_facts.

(** ** The rendering and the hash of a data mapping *)

Section comparison.

Import main.

Lemma sortKeys_Permutation (ks1 ks2 : list string) :
  ks1 ≡ₚ ks2 → spew.sortKeys ks1 = spew.sortKeys ks2.
Proof.
  intros Hperm. unfold spew.sortKeys.
  apply (Sorted_unique String.le).
  - apply Sorted_merge_sort, _.
  - apply Sorted_merge_sort, _.
  - by rewrite !merge_sort_Permutation.
Qed.

(** The rendering does not depend on the order in which the map hands out
    its keys. *)
Lemma Sprintf_map_same (m1 m2 : gomap) :
  wf m1 → wf m2 → is_nil m1 = is_nil m2 → same_function m1 m2 →
  spew.Sprintf_map m1 = spew.Sprintf_map m2.
Proof.
  intros Hwf1 Hwf2 Hnil Hsame.
  destruct m1 as [|es1], m2 as [|es2]; try done.
  unfold spew.Sprintf_map.
  assert (es1 ≡ₚ es2) as Hperm by by apply same_function_Permutation.
  rewrite (sortKeys_Permutation es1.*1 es2.*1) by by rewrite Hperm.
  assert ((λ k, k +:+ ":" +:+ default "" (entries_get k es1))
            <$> spew.sortKeys es2.*1
          = (λ k, k +:+ ":" +:+ default "" (entries_get k es2))
            <$> spew.sortKeys es2.*1) as ->; [|done].
  apply list_fmap_ext. intros _ k _. simpl.
  by rewrite (Hsame k : entries_get k es1 = entries_get k es2).
Qed.

Lemma compareConfigMaps_same (a b : ConfigMap) :
  wf (Data a) → wf (Data b) → is_nil (Data a) = is_nil (Data b) →
  same_function (Data a) (Data b) →
  compareConfigMaps a b = true.
Proof.
  intros Hwfa Hwfb Hnil Hsame. unfold compareConfigMaps, hashConfigMap.
  rewrite (Sprintf_map_same _ _ Hwfa Hwfb Hnil Hsame).
  by apply bool_decide_eq_true_2.
Qed.

Lemma compareConfigMaps_data (a b a' b' : ConfigMap) :
  Data a = Data a' → Data b = Data b' →
  compareConfigMaps a b = compareConfigMaps a' b'.
Proof.
  intros Ha Hb. unfold compareConfigMaps, hashConfigMap. by rewrite Ha, Hb.
Qed.

End comparison.

(** C7 (counterexample).  A nil data mapping and an allocated empty one are
    the same key-to-value function, but they are rendered as [<nil>] and
    [map[]], their hashes differ and the comparison returns false. *)
Lemma compareConfigMaps_nil_vs_empty :
  same_function (main.Data (fixtures.target gonil))
                (main.Data (fixtures.target (gomake []))) ∧
  wf (main.Data (fixtures.target gonil)) ∧
  wf (main.Data (fixtures.target (gomake []))) ∧
  main.hashConfigMap (fixtures.target gonil) = "fb3d0c82d5ceff2f" ∧
  main.hashConfigMap (fixtures.target (gomake [])) = "123b6ef991b18650" ∧
  main.compareConfigMaps (fixtures.target gonil) (fixtures.target (gomake [])) = false.
Proof.
  split; [done|]. split; [apply NoDup_nil_2|]. split; [apply NoDup_nil_2|].
  vm_compute. repeat split.
Qed.

(** C7, amended.  [compareConfigMaps] depends on the two resources through
    their data mappings only.  For two resources whose data mappings are
    both nil or both allocated and are equal as key-to-value functions, it
    returns true, whatever the order in which the two maps hand out their
    keys. *)
Theorem compareConfigMaps_order_independent (a b : main.ConfigMap) :
  (∀ a' b', main.Data a = main.Data a' → main.Data b = main.Data b' →
            main.compareConfigMaps a b = main.compareConfigMaps a' b')
  ∧
  (wf (main.Data a) → wf (main.Data b) →
   is_nil (main.Data a) = is_nil (main.Data b) →
   same_function (main.Data a) (main.Data b) →
   main.compareConfigMaps a b = true).
Proof.
  split.
  - intros a' b'. apply compareConfigMaps_data.
  - apply compareConfigMaps_same.
Qed.

Lemma compareConfigMaps_order_independent_witness :
  main.compareConfigMaps
    (fixtures.target (gomake [("b", "2"); ("a", "1"); ("c", "3")]))
    (fixtures.target (gomake [("c", "3"); ("b", "2"); ("a", "1")])) = true.
Proof.
  apply (proj2 (compareConfigMaps_order_independent
                  (fixtures.target (gomake [("b", "2"); ("a", "1"); ("c", "3")]))
                  (fixtures.target (gomake [("c", "3"); ("b", "2"); ("a", "1")])))).
  - unfold wf. simpl. apply (bool_decide_unpack _). vm_compute. exact I.
  - unfold wf. simpl. apply (bool_decide_unpack _). vm_compute. exact I.
  - reflexivity.
  - intros k. unfold index. simpl.
    repeat (case_decide; try reflexivity); congruence.
Defined.

(** ** The controller: building the candidate *)

Section candidate.

Import main.

Variable flag_selector : string.
Variable c : controller.

Abbreviation listed := (main.listed flag_selector c).

Lemma mergeItem_triples (data : entries) (cm : ConfigMap) :
  mergeItem c data cm = foldl assign data (triplesOf c cm).
Proof.
  unfold mergeItem, triplesOf. destruct (isTarget c cm); [done|].
  by rewrite foldl_fmap.
Qed.

Lemma mergeItems_triples (data : entries) (items : list ConfigMap) :
  foldl (mergeItem c) data items = foldl assign data (triples c items).
Proof.
  revert data. induction items as [|cm items IH]; intros data; [done|].
  unfold triples. simpl. rewrite foldl_app, IH, mergeItem_triples. done.
Qed.

Lemma collect_listed (nss : list string) (lists : list ConfigMapList)
    (data : entries) :
  listed nss lists →
  collect flag_selector c data nss
    = (nss, Ok (foldl assign data (triples c (lists ≫= Items)))).
Proof.
  intros Hall. revert data.
  induction Hall as [|n list nss lists Hn _ IH]; intros data; [done|].
  simpl. rewrite Hn, IH. simpl.
  unfold triples. rewrite bind_app, foldl_app. fold (triples c (Items list)).
  by rewrite mergeItems_triples.
Qed.

(** The first failing query ends the loop: the namespaces after it are not
    queried, and the error names the namespace. *)
Lemma collect_fail_fast (pre post : list string) (n : string) (e : error)
    (lists : list ConfigMapList) (data : entries) :
  listed pre lists →
  getConfigMaps (client c) n flag_selector = Err e →
  collect flag_selector c data (pre ++ n :: post)
    = (pre ++ [n],
       Err (errWrap e ("failed to get config maps for " +:+ n +:+ " "
                       +:+ selector c))).
Proof.
  intros Hall Hn. revert data.
  induction Hall as [|n1 list nss lists Hn1 _ IH]; intros data; simpl.
  - by rewrite Hn.
  - by rewrite Hn1, IH.
Qed.

Lemma createConfigMap_listed (lists : list ConfigMapList) :
  listed (namespaces c) lists →
  ∃ cm, createConfigMap flag_selector c = (namespaces c, Ok cm) ∧
        Data cm = gomake (foldl assign [] (triples c (lists ≫= Items))) ∧
        Name (Meta cm) = targetName c ∧
        Namespace (Meta cm) = targetNamespace c ∧
        Annotations (Meta cm) !! "configmap-aggregator" = Some "target".
Proof.
  intros Hall. unfold createConfigMap.
  rewrite (collect_listed _ _ _ Hall). eexists. split; [reflexivity|].
  simpl. repeat split; try done.
Qed.

Lemma createConfigMap_fail_fast (pre post : list string) (n : string)
    (e : error) (lists : list ConfigMapList) :
  namespaces c = pre ++ n :: post →
  listed pre lists →
  getConfigMaps (client c) n flag_selector = Err e →
  createConfigMap flag_selector c
    = (pre ++ [n],
       Err (errWrap e ("failed to get config maps for " +:+ n +:+ " "
                       +:+ selector c))).
Proof.
  intros Hnss Hall Hn. unfold createConfigMap.
  by rewrite Hnss, (collect_fail_fast _ _ _ _ _ _ Hall Hn).
Qed.

(** Of two triples with the same aggregate key, the later one decides. *)
Lemma assign_last_wins (pre mid post : entries) (k v1 v2 : string) (data : entries) :
  k ∉ post.*1 →
  entries_get k (foldl assign data (pre ++ (k, v1) :: mid ++ (k, v2) :: post))
    = Some v2.
Proof.
  intros Hpost. rewrite entries_get_assign.
  replace (pre ++ (k, v1) :: mid ++ (k, v2) :: post)
    with ((pre ++ (k, v1) :: mid) ++ (k, v2) :: post)
    by (by rewrite <- app_assoc).
  rewrite reverse_app, reverse_cons, !entries_get_app.
  assert (entries_get k (reverse post) = None) as ->.
  { apply entries_get_None. by rewrite fmap_reverse, elem_of_reverse. }
  simpl. by rewrite decide_True.
Qed.

Lemma triples_elem (items : list ConfigMap) (k v : string) :
  (k, v) ∈ triples c items →
  ∃ item key,
    item ∈ items ∧ isTarget c item = false ∧ (key, v) ∈ range (Data item) ∧
    k = aggregateKey (Namespace (Meta item)) (Name (Meta item)) key.
Proof.
  unfold triples. intros (item & Hin & Hitem)%list_elem_of_bind.
  unfold triplesOf in Hin. destruct (isTarget c item) eqn:Htarget.
  { by apply elem_of_nil in Hin. }
  apply list_elem_of_fmap in Hin as ([key v'] & [= -> ->] & Hkv).
  by exists item, key.
Qed.

Lemma filter_not_target_triples (items : list ConfigMap) :
  triples c (filter (λ cm, isTarget c cm = false) items) = triples c items.
Proof.
  unfold triples. induction items as [|cm items IH]; [done|].
  destruct (isTarget c cm) eqn:Htarget.
  - rewrite filter_cons_False by (by rewrite Htarget).
    rewrite bind_cons, IH. unfold triplesOf at 2. by rewrite Htarget.
  - rewrite filter_cons_True by done. by rewrite !bind_cons, IH.
Qed.

Lemma collect_withoutTarget (nss : list string) (data : entries) :
  collect flag_selector (withoutTarget c) data nss = collect flag_selector c data nss.
Proof.
  revert data. induction nss as [|n nss IH]; intros data; [done|].
  simpl. destruct (getConfigMaps (client c) n flag_selector) as [list|e]; [|done].
  simpl. rewrite IH.
  change (mergeItem (withoutTarget c)) with (mergeItem c).
  by rewrite !mergeItems_triples, filter_not_target_triples.
Qed.

End candidate.

(** Injectivity of the composite key. *)

Lemma free_of_split (d : ascii) (s1 s2 r1 r2 : string) :
  free_of d s1 → free_of d s2 →
  s1 +:+ String d r1 = s2 +:+ String d r2 →
  s1 = s2 ∧ r1 = r2.
Proof.
  revert s2. induction s1 as [|x s1 IH]; intros [|y s2]; simpl.
  - by intros _ _ [= ->].
  - intros _ [Hy _] [= <- _]. done.
  - intros [Hx _] _ [= -> _]. done.
  - intros [_ H1] [_ H2] [= -> Heq].
    destruct (IH s2 H1 H2 Heq) as [-> ->]. done.
Qed.

Lemma aggregateKey_inj (ns1 name1 k1 ns2 name2 k2 : string) :
  free_of "_" ns1 → free_of "_" name1 → free_of "_" ns2 → free_of "_" name2 →
  main.aggregateKey ns1 name1 k1 = main.aggregateKey ns2 name2 k2 →
  ns1 = ns2 ∧ name1 = name2 ∧ k1 = k2.
Proof.
  intros Hns1 Hname1 Hns2 Hname2 Heq. unfold main.aggregateKey in Heq.
  destruct (free_of_split _ _ _ _ _ Hns1 Hns2 Heq) as [-> Heq'].
  destruct (free_of_split _ _ _ _ _ Hname1 Hname2 Heq') as [-> ->].
  done.
Qed.

(** C8.  When every listing succeeds, [createConfigMap] returns a candidate
    and no error, also when two triples produce the same aggregate key; the
    candidate then holds, for that key, the value of the triple folded
    later.  For identifiers that do not contain the delimiter, distinct
    (namespace, name, key) triples have distinct aggregate keys. *)
Theorem createConfigMap_last_wins_keys_distinct (flag_selector : string)
    (c : main.controller) :
  (∀ lists,
     main.listed flag_selector c (main.namespaces c) lists →
     ∃ cm, (main.createConfigMap flag_selector c).2 = Ok cm ∧
       ∀ pre mid post k v1 v2,
         main.triples c (lists ≫= main.Items)
           = pre ++ (k, v1) :: mid ++ (k, v2) :: post →
         k ∉ post.*1 →
         index (main.Data cm) k = Some v2)
  ∧
  (∀ ns1 name1 k1 ns2 name2 k2,
     free_of "_" ns1 → free_of "_" name1 → free_of "_" k1 →
     free_of "_" ns2 → free_of "_" name2 → free_of "_" k2 →
     (ns1, name1, k1) ≠ (ns2, name2, k2) →
     main.aggregateKey ns1 name1 k1 ≠ main.aggregateKey ns2 name2 k2).
Proof.
  split.
  - intros lists Hall.
    destruct (createConfigMap_listed flag_selector c lists Hall)
      as (cm & Hcm & Hdata & _).
    exists cm. rewrite Hcm. split; [done|].
    intros pre mid post k v1 v2 Htriples Hpost.
    unfold index. rewrite Hdata. simpl. rewrite Htriples.
    by apply assign_last_wins.
  - intros ns1 name1 k1 ns2 name2 k2 H1 H2 _ H3 H4 _ Hne Heq.
    destruct (aggregateKey_inj _ _ _ _ _ _ H1 H2 H3 H4 Heq) as (-> & -> & ->).
    done.
Qed.

Lemma createConfigMap_last_wins_keys_distinct_witness :
  index (main.Data (fixtures.candidate (fixtures.controllerOf None fixtures.colliding)))
        "a_b_c_d" = Some "second"
  ∧ main.aggregateKey "default" "item1" "foo.txt"
    ≠ main.aggregateKey "default" "item2" "foo.txt".
Proof.
  split.
  - destruct (proj1 (createConfigMap_last_wins_keys_distinct ""
                       (fixtures.controllerOf None fixtures.colliding))
                [ {| main.Items := fixtures.colliding |} ])
      as (cm & Hcm & Hlast).
    { repeat constructor. }
    unfold fixtures.candidate. rewrite Hcm.
    apply (Hlast [] [] [] "a_b_c_d" "first" "second"); [reflexivity|].
    apply not_elem_of_nil.
  - apply (proj2 (createConfigMap_last_wins_keys_distinct ""
                    (fixtures.controllerOf None fixtures.colliding)));
      simpl; repeat split; discriminate.
Defined.

(** C9.  A collection whose namespace and name are those of the target
    contributes nothing to the aggregate: the loop skips it, the candidate
    is the one built from the listings without such collections, and every
    entry of the candidate comes from a listed collection of another
    identity. *)
Theorem createConfigMap_excludes_target (flag_selector : string)
    (c : main.controller) :
  (∀ data cm,
     main.Namespace (main.Meta cm) = main.targetNamespace c →
     main.Name (main.Meta cm) = main.targetName c →
     main.mergeItem c data cm = data)
  ∧
  main.createConfigMap flag_selector (main.withoutTarget c)
    = main.createConfigMap flag_selector c
  ∧
  (∀ lists cm k v,
     main.listed flag_selector c (main.namespaces c) lists →
     (main.createConfigMap flag_selector c).2 = Ok cm →
     index (main.Data cm) k = Some v →
     ∃ item key,
       item ∈ lists ≫= main.Items ∧
       (main.Namespace (main.Meta item), main.Name (main.Meta item))
         ≠ (main.targetNamespace c, main.targetName c) ∧
       (key, v) ∈ range (main.Data item) ∧
       k = main.aggregateKey (main.Namespace (main.Meta item))
             (main.Name (main.Meta item)) key).
Proof.
  split; [|split].
  - intros data cm Hns Hname. unfold main.mergeItem, main.isTarget.
    by rewrite !bool_decide_eq_true_2.
  - unfold main.createConfigMap.
    change (main.namespaces (main.withoutTarget c)) with (main.namespaces c).
    by rewrite collect_withoutTarget.
  - intros lists cm k v Hall Hcm Hget.
    destruct (createConfigMap_listed flag_selector c lists Hall)
      as (cm' & Hcm' & Hdata & _).
    rewrite Hcm' in Hcm. injection Hcm as <-.
    unfold index in Hget. rewrite Hdata in Hget. simpl in Hget.
    rewrite entries_get_assign in Hget. simpl in Hget.
    destruct (entries_get k (reverse (main.triples c (lists ≫= main.Items))))
      as [v'|] eqn:Hrev; [|done].
    injection Hget as ->.
    apply entries_get_Some_elem in Hrev. rewrite elem_of_reverse in Hrev.
    destruct (triples_elem c _ _ _ Hrev) as (item & key & Hitem & Htarget & Hkv & ->).
    exists item, key. repeat split; [done| |done].
    intros [= Hns Hname]. unfold main.isTarget in Htarget.
    by rewrite !bool_decide_eq_true_2 in Htarget.
Qed.

Lemma createConfigMap_excludes_target_witness :
  main.Data (fixtures.candidate (fixtures.controllerOf None fixtures.colliding))
    = gomake [("a_b_c_d", "second")]
  ∧
  (∃ item key,
     item ∈ fixtures.colliding ∧
     (main.Namespace (main.Meta item), main.Name (main.Meta item))
       ≠ ("default", "target") ∧
     (key, "second") ∈ range (main.Data item) ∧
     "a_b_c_d" = main.aggregateKey (main.Namespace (main.Meta item))
                   (main.Name (main.Meta item)) key).
Proof.
  split; [reflexivity|].
  apply (proj2 (proj2 (createConfigMap_excludes_target ""
                         (fixtures.controllerOf None fixtures.colliding)))
           [ {| main.Items := fixtures.colliding |} ]
           (fixtures.candidate (fixtures.controllerOf None fixtures.colliding))
           "a_b_c_d" "second").
  - repeat constructor.
  - reflexivity.
  - reflexivity.
Defined.

(** ** The controller: the upsert *)

Section upsert.

Import main.

Lemma foldl_insert_lookup (l : list (string * string)) (m : gmap string string)
    (k : string) :
  NoDup l.*1 →
  foldl (λ m kv, <[kv.1 := kv.2]> m) m l !! k =
    match (list_to_map l : gmap string string) !! k with
    | Some v => Some v
    | None => m !! k
    end.
Proof.
  revert m. induction l as [|[k1 v1] l IH]; intros m Hnd; simpl; [done|].
  apply NoDup_cons in Hnd as [Hnot Hnd]. rewrite IH by done.
  destruct (decide (k = k1)) as [->|Hne].
  - rewrite lookup_insert_eq.
    rewrite (not_elem_of_list_to_map_1 _ _ Hnot).
    by rewrite lookup_insert_eq.
  - by rewrite !lookup_insert_ne by done.
Qed.

(** After the copy loop a key of the existing map has the existing value;
    every other key is as it was. *)
Lemma copyInto_lookup (existing m : gmap string string) (k : string) :
  copyInto existing m !! k =
    match existing !! k with
    | Some v => Some v
    | None => m !! k
    end.
Proof.
  unfold copyInto. rewrite foldl_insert_lookup by apply NoDup_fst_map_to_list.
  by rewrite list_to_map_to_list.
Qed.

Variable c : controller.
Variable cm : ConfigMap.


Lemma upsertConfigMap_fetch_error (e : error) :
  getConfigMap (client c) (targetNamespace c) (targetName c) = Err e →
  e ≠ ErrNotExist →
  upsertConfigMap c cm
    = ([], Some (errWrap e ("failed to get config map " +:+ targetNamespace c
                            +:+ "/" +:+ targetName c))).
Proof.
  intros Hget Hne. unfold upsertConfigMap. rewrite Hget. by rewrite decide_False.
Qed.


(** [main.go]: no comparison, an existing target is always updated. *)
Lemma main_go_upsertConfigMap_present (existing : ConfigMap) :
  getConfigMap (client c) (targetNamespace c) (targetName c) = Ok existing →
  main_go.upsertConfigMap c cm
    = ([CallUpdate (adopt existing cm)],
       client_updateConfigMap (client c) (adopt existing cm)).
Proof. intros Hget. unfold main_go.upsertConfigMap. by rewrite Hget. Qed.

End upsert.




(** ** The file tree under a configured output directory *)

(** C1 (failing input).  [TestOnceWithOutputDir]'s set-up: the output
    directory is [/tmp], an empty directory, and the lister is the mock.  The
    first cycle writes the four files.  The second cycle, from the store the
    first one left and with the same collections, finds four names in the
    listing but looks them up under their joined paths: it writes all four
    files again, then tries to remove the first tracked name, a bare file
    name, and returns the error of that removal. *)
Theorem Once_second_cycle_in_tmp_rewrites :
  let first := aggregator.Once (fixtures.sink 200) fixtures.tmpDir
                 (fixtures.world fixtures.tmpFs) in
  let second := aggregator.Once (fixtures.sink 200) fixtures.tmpDir
                  (fixtures.again first.1) in
  aggregator.outputDir fixtures.tmpDir = "/tmp" ∧
  first.2 = None ∧
  aggregator.w_ops first.1
    = [ aggregator.OpWrite "/tmp/default_item1_foo.txt" "1234567890";
        aggregator.OpWrite "/tmp/default_item1_bar.txt" "0987654321";
        aggregator.OpWrite "/tmp/default_item2_baz.txt" "qwertyuiop";
        aggregator.OpWrite "/tmp/default_item2_abc.txt" "asdfghjkl" ] ∧
  aggregator.w_ops second.1
    = [ aggregator.OpWrite "/tmp/default_item1_foo.txt" "1234567890";
        aggregator.OpWrite "/tmp/default_item1_bar.txt" "0987654321";
        aggregator.OpWrite "/tmp/default_item2_baz.txt" "qwertyuiop";
        aggregator.OpWrite "/tmp/default_item2_abc.txt" "asdfghjkl" ] ∧
  second.2
    = Some (errWrap (errNew "no such file or directory")
              "failed to remove file default_item1_foo.txt").
Proof. vm_compute. repeat split. Qed.

(** The same two cycles in the default output directory: the second one
    applies nothing. *)
Lemma Once_second_cycle_in_default_dir :
  let first := aggregator.Once (fixtures.sink 200) fixtures.defaultDir
                 (fixtures.world fixtures.emptyFs) in
  let second := aggregator.Once (fixtures.sink 200) fixtures.defaultDir
                  (fixtures.again first.1) in
  aggregator.outputDir fixtures.defaultDir = "." ∧
  first.2 = None ∧ length (aggregator.w_ops first.1) = 4 ∧
  aggregator.w_ops second.1 = [] ∧ second.2 = None ∧
  map_to_list (aggregator.w_fs second.1) = map_to_list (aggregator.w_fs first.1).
Proof. vm_compute. repeat split. Qed.

(** C2 (failing input).  The output directory [/tmp] holds the stale file
    [stale.txt], and the working directory has a file of the same name.  The
    cycle succeeds, but the file it removes is the one in the working
    directory: [/tmp/stale.txt] is still there next to the four aggregate
    files. *)
Theorem Once_in_tmp_leaves_stale_file :
  let r := aggregator.Once (fixtures.sink 200) fixtures.tmpDir
             (fixtures.world fixtures.staleFs) in
  aggregator.outputDir fixtures.tmpDir = "/tmp" ∧
  aggregator.w_fs (fixtures.world fixtures.staleFs) !! ["tmp"; "stale.txt"]
    = Some (afero.File "old") ∧
  r.2 = None ∧
  aggregator.w_fs r.1 !! ["tmp"; "stale.txt"] = Some (afero.File "old") ∧
  aggregator.w_fs r.1 !! ["stale.txt"] = None ∧
  afero.Name <$> afero.children (aggregator.w_fs r.1) ["tmp"]
    ≡ₚ [ "default_item1_foo.txt"; "default_item1_bar.txt"; "default_item2_baz.txt";
         "default_item2_abc.txt"; "stale.txt" ] ∧
  last (aggregator.w_ops r.1) = Some (aggregator.OpRemove "stale.txt").
Proof.
  vm_compute. repeat split.
  apply (bool_decide_unpack _). vm_compute. exact I.
Qed.

(** ** The file tree in the default output directory *)

Section paths.

Lemma split_free (x : string) :
  free_of "/" x → filepath.split x = [x].
Proof.
  induction x as [|ch x IH]; simpl; [done|].
  intros [Hch Hx]. rewrite decide_False by done. by rewrite IH.
Qed.

Lemma clean_elems_plain (rooted : bool) (x : string) (out : list string) :
  filepath.plain x →
  filepath.clean_elems rooted [x] out = reverse (x :: out).
Proof.
  intros (H1 & H2 & H3 & _). simpl. by rewrite !decide_False.
Qed.

(** In the default directory the joined name is the name itself. *)
Lemma Join_dot_plain (x : string) :
  filepath.plain x → filepath.Join "." x = x.
Proof.
  intros Hx. pose proof Hx as (H1 & _ & _ & Hfree).
  unfold filepath.Join. rewrite decide_False by done.
  rewrite decide_False by done. unfold filepath.Clean.
  rewrite decide_False by done. simpl.
  change ("" +:+ x) with x. rewrite (split_free x Hfree). simpl.
  destruct Hx as (? & ? & ? & _). by rewrite !decide_False.
Qed.

Lemma resolve_plain (x : string) :
  filepath.plain x → afero.resolve x = [x].
Proof.
  intros Hx. unfold afero.resolve.
  destruct Hx as (H1 & H2 & H3 & Hfree). rewrite (split_free x Hfree).
  simpl. by rewrite !decide_False.
Qed.

Lemma resolve_dot : afero.resolve "." = [].
Proof. reflexivity. Qed.

Lemma strip_prefix_nil (p : list string) : afero.strip_prefix [] p = Some p.
Proof. by destruct p. Qed.

Lemma child_name_root (p : list string) (n : string) :
  afero.child_name [] p = Some n ↔ p = [n].
Proof.
  unfold afero.child_name. rewrite strip_prefix_nil.
  destruct p as [|x [|y p]]; naive_solver.
Qed.

End paths.

Section listing.

Import aggregator.

Lemma children_root_elem (fs : afero.Fs) (f : afero.FileInfo) :
  f ∈ afero.children fs [] ↔
  ∃ nd, fs !! [afero.Name f] = Some nd ∧
        afero.IsDir f = match nd with afero.Dir => true | afero.File _ => false end.
Proof.
  unfold afero.children. rewrite list_elem_of_omap. split.
  - intros ([k nd] & Hin%elem_of_map_to_list & Hinfo).
    unfold afero.info_of in Hinfo. simpl in Hinfo.
    destruct (afero.child_name [] k) as [n|] eqn:Hchild; [|done].
    apply child_name_root in Hchild as ->. injection Hinfo as <-. eauto.
  - intros (nd & Hnd & Hdir). exists ([afero.Name f], nd). split.
    + by apply elem_of_map_to_list.
    + unfold afero.info_of. simpl. rewrite <- Hdir. by destruct f.
Qed.

Lemma trackFile_keeps (files : list afero.FileInfo) (E : gmap string bool) (n : string) :
  E !! n = Some true → foldl trackFile E files !! n = Some true.
Proof.
  revert E. induction files as [|f files IH]; intros E HE; simpl; [done|].
  apply IH. unfold trackFile. destruct (afero.IsDir f); [done|].
  destruct (decide (afero.Name f = n)) as [->|Hne].
  - apply lookup_insert_eq.
  - by rewrite lookup_insert_ne.
Qed.

Lemma trackFile_elem (files : list afero.FileInfo) (E : gmap string bool)
    (f : afero.FileInfo) :
  f ∈ files → afero.IsDir f = false →
  foldl trackFile E files !! afero.Name f = Some true.
Proof.
  revert E. induction files as [|f1 files IH]; intros E Hin Hdir.
  { by apply elem_of_nil in Hin. }
  apply elem_of_cons in Hin as [->|Hin]; simpl.
  - apply trackFile_keeps. unfold trackFile. rewrite Hdir. apply lookup_insert_eq.
  - by apply IH.
Qed.

Lemma trackFile_Some (files : list afero.FileInfo) (E : gmap string bool)
    (n : string) (b : bool) :
  foldl trackFile E files !! n = Some b →
  E !! n = Some b ∨ ∃ f, f ∈ files ∧ afero.IsDir f = false ∧ afero.Name f = n.
Proof.
  revert E. induction files as [|f files IH]; intros E Hlook; simpl in Hlook.
  { by left. }
  destruct (IH _ Hlook) as [HE|(f' & Hin & Hdir & Hname)].
  - unfold trackFile in HE. destruct (afero.IsDir f) eqn:Hdir; [by left|].
    destruct (decide (afero.Name f = n)) as [Hname|Hne].
    + right. exists f. split; [left|done].
    + rewrite lookup_insert_ne in HE by done. by left.
  - right. exists f'. split; [by right|done].
Qed.

Lemma existingFiles_root (fs : afero.Fs) :
  ∃ files, afero.ReadDir fs "." = Ok files ∧
           ∀ n, foldl trackFile ∅ files !! n = tracked fs n.
Proof.
  unfold afero.ReadDir. rewrite resolve_dot. simpl.
  eexists. split; [reflexivity|]. intros n. unfold tracked.
  destruct (fs !! [n]) as [[content|]|] eqn:Hn.
  - apply (trackFile_elem _ _ {| afero.Name := n; afero.IsDir := false |}); [|done].
    rewrite merge_sort_Permutation. apply children_root_elem. eauto.
  - destruct (foldl trackFile ∅ _ !! n) as [b|] eqn:Hlook; [|done].
    apply trackFile_Some in Hlook as [?|(f & Hin & Hdir & <-)]; [done|].
    rewrite merge_sort_Permutation in Hin.
    apply children_root_elem in Hin as (nd & Hnd & Hdir').
    rewrite Hn in Hnd. injection Hnd as <-. congruence.
  - destruct (foldl trackFile ∅ _ !! n) as [b|] eqn:Hlook; [|done].
    apply trackFile_Some in Hlook as [?|(f & Hin & Hdir & <-)]; [done|].
    rewrite merge_sort_Permutation in Hin.
    apply children_root_elem in Hin as (nd & Hnd & Hdir').
    congruence.
Qed.

End listing.

Section default_dir.

Import aggregator.

Variable a : Aggregator.
Variable l : ConfigMapLister.
Variable fs0 : afero.Fs.

Hypothesis Hdir : outputDir a = ".".
Hypothesis Hlister : lister a = Some l.
Hypothesis Hlogger : is_Some (logger a).

Lemma readFile_plain (n content : string) (w : World) :
  filepath.plain n → w_fs w !! [n] = Some (afero.File content) →
  readFile n w = (w, Ok content).
Proof.
  intros Hn Hfile. unfold readFile, afero.ReadFile.
  rewrite (resolve_plain n Hn). simpl. by rewrite Hfile.
Qed.

Lemma writeFile_plain (n v : string) (w : World) :
  filepath.plain n → w_fs w !! [n] ≠ Some afero.Dir →
  writeFile n v w
    = ({| w_fs := <[[n] := afero.File v]> (w_fs w);
          w_ops := w_ops w ++ [OpWrite n v];
          w_queries := w_queries w; w_requests := w_requests w |}, Ok ()).
Proof.
  intros Hn Hnodir. unfold writeFile, afero.WriteFile.
  rewrite (resolve_plain n Hn). simpl.
  by destruct (w_fs w !! [n]) as [[content|]|].
Qed.

Lemma remove_plain (n content : string) (w : World) :
  filepath.plain n → w_fs w !! [n] = Some (afero.File content) →
  remove n w
    = ({| w_fs := delete [n] (w_fs w);
          w_ops := w_ops w ++ [OpRemove n];
          w_queries := w_queries w; w_requests := w_requests w |}, Ok ()).
Proof.
  intros Hn Hfile. unfold remove, afero.Remove.
  rewrite (resolve_plain n Hn). by rewrite Hfile.
Qed.

Abbreviation synced := (aggregator.synced fs0).
Abbreviation pending := (aggregator.pending fs0).
Abbreviation folded := (aggregator.folded fs0).
Abbreviation usable := (aggregator.usable fs0).

Lemma entries_get_snoc (T : entries) (n v m : string) :
  entries_get m (reverse (T ++ [(n, v)])) =
    if decide (m = n) then Some v else entries_get m (reverse T).
Proof. by rewrite reverse_app. Qed.

Lemma synced_skip (T : entries) (fs : afero.Fs) (n v : string) :
  synced T fs → fs !! [n] = Some (afero.File v) → synced (T ++ [(n, v)]) fs.
Proof.
  intros [Hone Hrest] Hfile. split; [|done].
  intros m. rewrite entries_get_snoc. case_decide as Hm; [by subst|apply Hone].
Qed.

Lemma synced_write (T : entries) (fs : afero.Fs) (n v : string) :
  synced T fs → synced (T ++ [(n, v)]) (<[[n] := afero.File v]> fs).
Proof.
  intros [Hone Hrest]. split.
  - intros m. rewrite entries_get_snoc. case_decide as Hm.
    + subst. apply lookup_insert_eq.
    + rewrite lookup_insert_ne by congruence. apply Hone.
  - intros p Hp. rewrite lookup_insert_ne; [by apply Hrest|].
    intros <-. by apply Hp.
Qed.

Lemma pending_delete (T : entries) (E : gmap string bool) (n v : string) :
  pending T E → pending (T ++ [(n, v)]) (delete n E).
Proof.
  intros HE m. rewrite fmap_app. simpl.
  destruct (decide (m = n)) as [->|Hne].
  - rewrite lookup_delete_eq. rewrite decide_True; [done|].
    apply elem_of_app. right. left.
  - rewrite lookup_delete_ne by done. rewrite HE.
    destruct (decide (m ∈ T.*1)) as [Hin|Hout].
    + rewrite decide_True; [done|]. apply elem_of_app. by left.
    + rewrite decide_False; [done|].
      by intros [?|?%list_elem_of_singleton]%elem_of_app.
Qed.

Lemma pending_keep (T : entries) (E : gmap string bool) (n v : string) :
  pending T E → E !! n = None → pending (T ++ [(n, v)]) E.
Proof.
  intros HE Hnone m. rewrite <- (delete_id E n) at 1 by done.
  by apply pending_delete.
Qed.

Lemma syncKey_default (T : entries) (item : ConfigMap) (kv : string * string)
    (st : gmap string bool * bool) (w : World) :
  usable (fileName item kv.1) →
  folded T st w →
  outcome (syncKey a item st kv) w
    (λ st' w', folded (T ++ [(fileName item kv.1, kv.2)]) st' w')
    (λ _ _, False).
Proof.
  intros [Hplain Hnodir] [Hsync Hpend].
  unfold syncKey. rewrite Hdir, (Join_dot_plain _ Hplain).
  set (n := fileName item kv.1) in *.
  destruct (st.1 !! n) as [b|] eqn:Hst.
  - (* the file is in the listing: compare, then skip or overwrite *)
    pose proof (Hpend n) as Hn. rewrite Hst in Hn.
    case_decide as Hin; [done|]. unfold tracked in Hn.
    destruct (fs0 !! [n]) as [[content|]|] eqn:Hfs0; try done.
    assert (w_fs w !! [n] = Some (afero.File content)) as Hfile.
    { destruct Hsync as [Hone _]. rewrite Hone.
      assert (entries_get n (reverse T) = None) as ->; [|done].
      apply entries_get_None. by rewrite fmap_reverse, elem_of_reverse. }
    unfold outcome, bind, wrapf. rewrite (readFile_plain n content w Hplain Hfile).
    case_decide as Hsame.
    + destruct Hlogger as [lg ->]. simpl. split.
      * apply synced_skip; [done|]. by rewrite <- Hsame.
      * by apply pending_delete.
    + rewrite (writeFile_plain n kv.2 w Hplain) by (by rewrite Hfile).
      simpl. split; [by apply synced_write|by apply pending_delete].
  - (* not in the listing, or written earlier in this cycle *)
    assert (w_fs w !! [n] ≠ Some afero.Dir) as Hnd.
    { destruct Hsync as [Hone _]. rewrite Hone.
      by destruct (entries_get n (reverse T)). }
    unfold outcome, bind, wrapf. rewrite (writeFile_plain n kv.2 w Hplain Hnd).
    simpl. split; [by apply synced_write|by apply pending_keep].
Qed.

Lemma syncKeys_default (item : ConfigMap) (kvs : entries) :
  ∀ (T : entries) (st : gmap string bool * bool) (w : World),
    Forall (λ kv, usable (fileName item kv.1)) kvs →
    folded T st w →
    outcome (forM (syncKey a item) st kvs) w
      (λ st' w', folded (T ++ ((λ kv, (fileName item kv.1, kv.2)) <$> kvs)) st' w')
      (λ _ _, False).
Proof.
  induction kvs as [|kv kvs IH]; intros T st w Hall Hfold; cbn [forM].
  - apply outcome_ret. by rewrite fmap_nil, app_nil_r.
  - apply Forall_cons in Hall as [Hkv Hall]. apply outcome_bind.
    eapply outcome_weaken; [by apply syncKey_default| |done].
    intros st' w' Hfold'. cbn beta.
    rewrite fmap_cons, (cons_middle _ T), (assoc_L (++)). by apply IH.
Qed.

Lemma syncItem_default (T : entries) (item : ConfigMap)
    (st : gmap string bool * bool) (w : World) :
  Forall usable (itemTriples item).*1 →
  folded T st w →
  outcome (syncItem a st item) w
    (λ st' w', folded (T ++ itemTriples item) st' w') (λ _ _, False).
Proof.
  intros Hall. apply syncKeys_default.
  unfold itemTriples in Hall. rewrite !Forall_fmap in Hall.
  eapply Forall_impl; [exact Hall|]. by intros kv.
Qed.

Lemma syncItems_default (items : list ConfigMap) :
  ∀ (T : entries) (st : gmap string bool * bool) (w : World),
    Forall usable (items ≫= itemTriples).*1 →
    folded T st w →
    outcome (forM (syncItem a) st items) w
      (λ st' w', folded (T ++ (items ≫= itemTriples)) st' w') (λ _ _, False).
Proof.
  induction items as [|item items IH]; intros T st w Hall Hfold; cbn [forM].
  - apply outcome_ret. by rewrite app_nil_r.
  - rewrite bind_cons in Hall |- *. rewrite fmap_app in Hall.
    apply Forall_app in Hall as [Hitem Hall].
    apply outcome_bind.
    eapply outcome_weaken; [by apply syncItem_default| |done].
    intros st' w' Hfold'. cbn beta. rewrite (assoc_L (++)). by apply IH.
Qed.

Lemma fileTriples_cons (list : ConfigMapList) (lists : Datatypes.list ConfigMapList) :
  fileTriples (list :: lists) = (Items list ≫= itemTriples) ++ fileTriples lists.
Proof. unfold fileTriples. by rewrite bind_cons, bind_app. Qed.

Lemma syncNamespaces_default (nss : list string) (lists : list ConfigMapList) :
  Forall2 (λ n list, l n (selector a) = Ok list) nss lists →
  ∀ (T : entries) (st : gmap string bool * bool) (w : World),
    Forall usable (fileTriples lists).*1 →
    folded T st w →
    outcome (forM (syncNamespace a) st nss) w
      (λ st' w', folded (T ++ fileTriples lists) st' w') (λ _ _, False).
Proof.
  induction 1 as [|n list nss lists Hn _ IH]; intros T st w Hall Hfold; cbn [forM].
  - apply outcome_ret. by rewrite !app_nil_r.
  - rewrite fileTriples_cons, fmap_app in Hall.
    apply Forall_app in Hall as [Hlist Hall].
    apply outcome_bind. unfold syncNamespace at 1.
    apply outcome_bind, outcome_wrapf.
    unfold outcome at 1, list_configmaps. rewrite Hlister, Hn.
    eapply outcome_weaken; [apply (syncItems_default _ T); [done|done]| |done].
    intros st' w' Hfold'. cbn beta.
    eapply outcome_weaken;
      [apply (IH (T ++ (Items list ≫= itemTriples))); [done|done]| |done].
    intros st'' w'' Hfold''. cbn beta.
    by rewrite fileTriples_cons, (assoc_L (++)).
Qed.

(** The removal loop over names that are plain and, in the current store,
    regular files under the root. *)
Lemma removeLeft_default (ks : list string) :
  NoDup ks →
  ∀ (changed : bool) (w : World),
    (∀ k, k ∈ ks → filepath.plain k ∧ ∃ content, w_fs w !! [k] = Some (afero.File content)) →
    outcome (forM removeLeft changed ks) w
      (λ _ w', w_fs w' = foldl (λ fs k, delete [k] fs) (w_fs w) ks)
      (λ _ _, False).
Proof.
  induction 1 as [|k ks Hnot Hnd IH]; intros changed w Hks; cbn [forM].
  - by apply outcome_ret.
  - destruct (Hks k) as (Hplain & content & Hfile); [left|].
    apply outcome_bind. unfold removeLeft at 1, outcome at 1, bind, wrapf, ret.
    rewrite (remove_plain k content w Hplain Hfile).
    eapply outcome_weaken; [apply IH| |done].
    + intros k' Hk'. destruct (Hks k') as (Hplain' & content' & Hfile'); [by right|].
      split; [done|]. exists content'. simpl.
      rewrite lookup_delete_ne; [done|]. intros [= ->]. done.
    + by intros _ w' ->.
Qed.

Lemma foldl_delete_lookup (ks : list string) (fs : afero.Fs) (p : list string) :
  foldl (λ fs k, delete [k] fs) fs ks !! p =
    if decide (p ∈ (λ k, [k]) <$> ks) then None else fs !! p.
Proof.
  revert fs. induction ks as [|k ks IH]; intros fs.
  - case_decide as Hin; [|done]. rewrite fmap_nil in Hin. by apply elem_of_nil in Hin.
  - cbn [foldl]. rewrite IH, fmap_cons.
    destruct (decide (p ∈ (λ k, [k]) <$> ks)) as [Hin|Hout].
    + by rewrite decide_True by (by right).
    + destruct (decide (p = [k])) as [->|Hne].
      * by rewrite lookup_delete_eq, decide_True by left.
      * rewrite lookup_delete_ne by done. rewrite decide_False; [done|].
        by intros [?|?]%elem_of_cons.
Qed.

Hypothesis Hwf : afero.wf fs0.

Lemma pending_elem (T : entries) (E : gmap string bool) (k : string) :
  pending T E → is_Some (E !! k) →
  (k ∉ T.*1) ∧ filepath.plain k ∧ ∃ content, fs0 !! [k] = Some (afero.File content).
Proof.
  intros Hpend [b Hk]. rewrite Hpend in Hk. case_decide as Hin; [done|].
  split; [done|]. unfold tracked in Hk.
  destruct (fs0 !! [k]) as [[content|]|] eqn:Hfs0; try done.
  split; [|eauto]. by apply (Forall_inv (Hwf _ _ Hfs0)).
Qed.

(** In the default directory the synchronisation runs to completion and
    leaves the store that mirrors the listed triples. *)
Lemma syncFiles_default (lists : list ConfigMapList) (w : World) :
  w_fs w = fs0 →
  Forall2 (λ n list, l n (selector a) = Ok list) (namespaces a) lists →
  Forall usable (fileTriples lists).*1 →
  outcome (syncFiles a) w
    (λ _ w', mirrored fs0 (fileTriples lists) (w_fs w') ∧ afero.wf (w_fs w'))
    (λ _ _, False).
Proof.
  intros Hfs Hlists Hnames. set (T := fileTriples lists) in *.
  unfold syncFiles. apply outcome_bind, outcome_wrapf.
  unfold outcome at 1, readDir. rewrite Hdir, Hfs.
  destruct (existingFiles_root fs0) as (files & -> & Hfiles).
  apply outcome_bind.
  eapply outcome_weaken;
    [apply (syncNamespaces_default _ _ Hlists []); [done|]| |done].
  { split; [split|].
    - intros n. by rewrite Hfs.
    - intros p _. by rewrite Hfs.
    - intros n. cbn [fst]. rewrite Hfiles. case_decide as Hin; [|done].
      rewrite fmap_nil in Hin. by apply elem_of_nil in Hin. }
  intros st w' [[Hone Hrest] Hpend]. rewrite app_nil_l in Hone, Hpend.
  fold T in Hone, Hpend. cbn beta.
  eapply outcome_weaken;
    [apply removeLeft_default; [apply NoDup_fst_map_to_list|]| |done].
  { intros k Hk.
    assert (is_Some (st.1 !! k)) as Hsome.
    { apply list_elem_of_fmap in Hk as ([k' b] & -> & Hin).
      apply elem_of_map_to_list in Hin. eauto. }
    destruct (pending_elem _ _ _ Hpend Hsome) as (Hout & Hplain & content & Hfile).
    split; [done|]. exists content. rewrite Hone.
    assert (entries_get k (reverse T) = None) as ->; [|done].
    apply entries_get_None. by rewrite fmap_reverse, elem_of_reverse. }
  intros changed' w'' Hw''. cbn beta in Hw'' |- *.
  assert (∀ n, [n] ∈ (λ k, [k]) <$> (map_to_list st.1).*1 ↔ is_Some (st.1 !! n))
    as Hleft.
  { intros n. rewrite list_elem_of_fmap. split.
    - intros (k & [= <-] & Hk).
      apply list_elem_of_fmap in Hk as ([k' b] & -> & Hin).
      apply elem_of_map_to_list in Hin. eauto.
    - intros [b Hb]. exists n. split; [done|].
      apply list_elem_of_fmap. exists (n, b). split; [done|].
      by apply elem_of_map_to_list. }
  assert (mirrored fs0 T (w_fs w'')) as Hmirror.
  { split.
    - intros n. rewrite Hw'', foldl_delete_lookup. case_decide as Hn.
      + apply Hleft in Hn.
        destruct (pending_elem _ _ _ Hpend Hn) as (Hout & _ & content & Hfile).
        assert (entries_get n (reverse T) = None) as ->.
        { apply entries_get_None. by rewrite fmap_reverse, elem_of_reverse. }
        by rewrite Hfile.
      + rewrite Hone. destruct (entries_get n (reverse T)) as [v|] eqn:Hget; [done|].
        assert (st.1 !! n = None) as Hnone.
        { destruct (st.1 !! n) eqn:Hst; [|done]. exfalso. apply Hn, Hleft. eauto. }
        rewrite Hpend in Hnone. apply entries_get_None in Hget.
        rewrite fmap_reverse, elem_of_reverse in Hget.
        rewrite decide_False in Hnone by done. unfold tracked in Hnone.
        by destruct (fs0 !! [n]) as [[content|]|].
    - intros p Hp. rewrite Hw'', foldl_delete_lookup.
      rewrite decide_False; [by apply Hrest|].
      intros (k & -> & _)%list_elem_of_fmap. by apply Hp. }
  split; [done|].
  intros p nd Hp. destruct Hmirror as [Hm1 Hm2].
  destruct (decide (length p = 1)) as [Hlen|Hlen].
  - destruct p as [|n [|]]; try done. rewrite Hm1 in Hp.
    destruct (entries_get n (reverse T)) as [v|] eqn:Hget.
    + apply entries_get_Some_elem in Hget. rewrite elem_of_reverse in Hget.
      apply Forall_singleton.
      assert (usable n) as [Hplain _]; [|done].
      rewrite Forall_forall in Hnames. apply Hnames.
      apply list_elem_of_fmap. by exists (n, v).
    + destruct (fs0 !! [n]) as [[content|]|] eqn:Hfs0; try done.
      by apply (Hwf _ _ Hfs0).
  - rewrite Hm2 in Hp by done. by apply (Hwf _ _ Hp).
Qed.

End default_dir.

Section settled.

Import aggregator.

Variable a : Aggregator.
Variable l : ConfigMapLister.
Variable w0 : World.

Hypothesis Hdir : outputDir a = ".".
Hypothesis Hlister : lister a = Some l.
Hypothesis Hlogger : is_Some (logger a).

Lemma syncKey_quiet (P : entries) (item : ConfigMap) (kv : string * string)
    (st : gmap string bool * bool) (w : World) :
  filepath.plain (fileName item kv.1) →
  w_fs w0 !! [fileName item kv.1] = Some (afero.File kv.2) →
  fileName item kv.1 ∉ P.*1 →
  quiet w0 P st w →
  outcome (syncKey a item st kv) w
    (λ st' w', quiet w0 (P ++ [(fileName item kv.1, kv.2)]) st' w')
    (λ _ _, False).
Proof.
  intros Hplain Hfile Hfresh (Hfs & Hops & Hreq & Hflag & Hpend).
  unfold syncKey. rewrite Hdir, (Join_dot_plain _ Hplain).
  set (n := fileName item kv.1) in *.
  pose proof (Hpend n) as Hn. rewrite decide_False in Hn by done.
  unfold tracked in Hn. rewrite Hfile in Hn. rewrite Hn.
  unfold outcome, bind, wrapf.
  rewrite (readFile_plain n kv.2 w Hplain) by (by rewrite Hfs).
  rewrite decide_True by done. destruct Hlogger as [lg ->]. simpl.
  repeat split; try done. by apply pending_delete.
Qed.

Lemma syncKeys_quiet (item : ConfigMap) (kvs : entries) :
  ∀ (P : entries) (st : gmap string bool * bool) (w : World),
    NoDup (P ++ ((λ kv, (fileName item kv.1, kv.2)) <$> kvs)).*1 →
    holds (w_fs w0) ((λ kv, (fileName item kv.1, kv.2)) <$> kvs) →
    quiet w0 P st w →
    outcome (forM (syncKey a item) st kvs) w
      (λ st' w', quiet w0 (P ++ ((λ kv, (fileName item kv.1, kv.2)) <$> kvs)) st' w')
      (λ _ _, False).
Proof.
  induction kvs as [|kv kvs IH]; intros P st w Hnd Hholds Hquiet; cbn [forM].
  - apply outcome_ret. by rewrite fmap_nil, app_nil_r.
  - rewrite fmap_cons in Hnd, Hholds |- *.
    apply Forall_cons in Hholds as [[Hplain Hfile] Hholds]. simpl in Hplain, Hfile.
    assert (fileName item kv.1 ∉ P.*1) as Hfresh.
    { rewrite fmap_app in Hnd. apply NoDup_app in Hnd as (_ & Hdisj & _).
      intros Hin. apply (Hdisj _ Hin). left. }
    apply outcome_bind.
    eapply outcome_weaken; [by apply syncKey_quiet| |done].
    intros st' w' Hquiet'. cbn beta.
    rewrite (cons_middle _ P), (assoc_L (++)) in Hnd |- *. by apply IH.
Qed.

Lemma syncItems_quiet (items : list ConfigMap) :
  ∀ (P : entries) (st : gmap string bool * bool) (w : World),
    NoDup (P ++ (items ≫= itemTriples)).*1 →
    holds (w_fs w0) (items ≫= itemTriples) →
    quiet w0 P st w →
    outcome (forM (syncItem a) st items) w
      (λ st' w', quiet w0 (P ++ (items ≫= itemTriples)) st' w') (λ _ _, False).
Proof.
  induction items as [|item items IH]; intros P st w Hnd Hholds Hquiet; cbn [forM].
  - apply outcome_ret. by rewrite app_nil_r.
  - rewrite bind_cons in Hnd, Hholds |- *.
    apply Forall_app in Hholds as [Hitem Hholds].
    rewrite (assoc_L (++)) in Hnd |- *.
    apply outcome_bind.
    eapply outcome_weaken; [apply (syncKeys_quiet item _ P)| |done].
    + rewrite fmap_app in Hnd. apply NoDup_app in Hnd as (Hnd & _). done.
    + done.
    + done.
    + intros st' w' Hquiet'. cbn beta. by apply IH.
Qed.

Lemma syncNamespaces_quiet (nss : list string) (lists : list ConfigMapList) :
  Forall2 (λ n list, l n (selector a) = Ok list) nss lists →
  ∀ (P : entries) (st : gmap string bool * bool) (w : World),
    NoDup (P ++ fileTriples lists).*1 →
    holds (w_fs w0) (fileTriples lists) →
    quiet w0 P st w →
    outcome (forM (syncNamespace a) st nss) w
      (λ st' w', quiet w0 (P ++ fileTriples lists) st' w') (λ _ _, False).
Proof.
  induction 1 as [|n list nss lists Hn _ IH]; intros P st w Hnd Hholds Hquiet;
    cbn [forM].
  - apply outcome_ret. by rewrite !app_nil_r.
  - rewrite fileTriples_cons in Hnd, Hholds |- *.
    apply Forall_app in Hholds as [Hlist Hholds].
    rewrite (assoc_L (++)) in Hnd |- *.
    apply outcome_bind. unfold syncNamespace at 1.
    apply outcome_bind, outcome_wrapf.
    unfold outcome at 1, list_configmaps. rewrite Hlister, Hn.
    eapply outcome_weaken; [apply (syncItems_quiet _ P)| |done].
    + rewrite fmap_app in Hnd. apply NoDup_app in Hnd as (Hnd & _). done.
    + done.
    + destruct Hquiet as (? & ? & ? & ? & ?). by repeat split.
    + intros st' w' Hquiet'. cbn beta. by apply IH.
Qed.

(** A cycle over a store that already holds exactly the listed triples, with
    distinct file names: nothing is written or removed and the flag stays
    false. *)
Lemma syncFiles_settled (lists : list ConfigMapList) :
  Forall2 (λ n list, l n (selector a) = Ok list) (namespaces a) lists →
  NoDup (fileTriples lists).*1 →
  holds (w_fs w0) (fileTriples lists) →
  (∀ n content, w_fs w0 !! [n] = Some (afero.File content) →
                n ∈ (fileTriples lists).*1) →
  outcome (syncFiles a) w0
    (λ changed w', changed = false ∧ w_fs w' = w_fs w0 ∧ w_ops w' = w_ops w0 ∧
                   w_requests w' = w_requests w0)
    (λ _ _, False).
Proof.
  intros Hlists Hnd Hholds Honly.
  unfold syncFiles. apply outcome_bind, outcome_wrapf.
  unfold outcome at 1, readDir. rewrite Hdir.
  destruct (existingFiles_root (w_fs w0)) as (files & -> & Hfiles).
  apply outcome_bind.
  eapply outcome_weaken;
    [apply (syncNamespaces_quiet _ _ Hlists []); [done|done|]| |done].
  { by repeat split. }
  intros st w' (Hfs & Hops & Hreq & Hflag & Hpend). rewrite app_nil_l in Hpend.
  cbn beta.
  assert (st.1 = ∅) as ->.
  { apply map_empty. intros n. rewrite Hpend. case_decide as Hin; [done|].
    unfold tracked. destruct (w_fs w0 !! [n]) as [[content|]|] eqn:Hn; try done.
    exfalso. eauto. }
  rewrite map_to_list_empty. cbn [fmap list_fmap forM]. apply outcome_ret.
  by rewrite Hflag.
Qed.

End settled.

Lemma notify_store (env : Env) (a : aggregator.Aggregator) (changed : bool)
    (w : aggregator.World) :
  aggregator.w_fs (aggregator.notify env a changed w).1 = aggregator.w_fs w ∧
  aggregator.w_ops (aggregator.notify env a changed w).1 = aggregator.w_ops w.
Proof.
  unfold aggregator.notify, aggregator.bind, aggregator.wrapf,
    aggregator.do_request, aggregator.return_error, aggregator.ret, aggregator.fail.
  repeat case_match; simplify_eq/=; done.
Qed.

Lemma mirrored_holds (fs0 fs : afero.Fs) (T : entries) :
  NoDup T.*1 → Forall filepath.plain T.*1 → aggregator.mirrored fs0 T fs →
  aggregator.holds fs T ∧
  (∀ n content, fs !! [n] = Some (afero.File content) → n ∈ T.*1).
Proof.
  intros Hnd Hplain [Hone _]. split.
  - apply Forall_forall. intros [n v] Hin. simpl. split.
    + rewrite Forall_forall in Hplain. apply Hplain.
      apply list_elem_of_fmap. by exists (n, v).
    + rewrite Hone, (entries_elem_get n v); [done| |by apply elem_of_reverse].
      by rewrite fmap_reverse, reverse_Permutation.
  - intros n content Hfile. rewrite Hone in Hfile.
    destruct (entries_get n (reverse T)) as [v|] eqn:Hget.
    + apply entries_get_Some_elem in Hget. rewrite elem_of_reverse in Hget.
      apply list_elem_of_fmap. by exists (n, v).
    + by destruct (fs0 !! [n]) as [[?|]|].
Qed.

Lemma Once_world (env : Env) (a : aggregator.Aggregator) (w w1 : aggregator.World)
    (changed : bool) :
  aggregator.syncFiles a w = (w1, Ok changed) →
  (aggregator.Once env a w).1 = (aggregator.notify env a changed w1).1 ∧
  (aggregator.Once env a w).2 =
    match (aggregator.notify env a changed w1).2 with
    | Ok _ => None
    | Err e => Some e
    end.
Proof.
  intros Hsync. rewrite Once_unfold, Hsync.
  by destruct (aggregator.notify env a changed w1) as [w2 [[]|e]].
Qed.

(** The store a cycle in the default output directory leaves. *)
Lemma Once_default_dir_store (env : Env) (a : aggregator.Aggregator)
    (l : aggregator.ConfigMapLister) (lists : list aggregator.ConfigMapList)
    (w : aggregator.World) :
  aggregator.outputDir a = "." →
  aggregator.lister a = Some l →
  is_Some (aggregator.logger a) →
  afero.wf (aggregator.w_fs w) →
  Forall2 (λ n list, l n (aggregator.selector a) = Ok list)
    (aggregator.namespaces a) lists →
  Forall (aggregator.usable (aggregator.w_fs w)) (aggregator.fileTriples lists).*1 →
  ∃ w1 changed,
    aggregator.syncFiles a w = (w1, Ok changed) ∧
    (changed = true ↔ aggregator.w_ops w1 ≠ aggregator.w_ops w) ∧
    aggregator.mirrored (aggregator.w_fs w) (aggregator.fileTriples lists)
      (aggregator.w_fs (aggregator.Once env a w).1) ∧
    afero.wf (aggregator.w_fs (aggregator.Once env a w).1) ∧
    (∀ n content,
       aggregator.w_fs (aggregator.Once env a w).1 !! [n] = Some (afero.File content) ↔
       entries_get n (reverse (aggregator.fileTriples lists)) = Some content).
Proof.
  intros Hdir Hl Hlog Hwf Hlists Hnames.
  pose proof (syncFiles_default a l (aggregator.w_fs w) Hdir Hl Hlog Hwf lists w
                eq_refl Hlists Hnames) as Hout.
  unfold aggregator.outcome in Hout.
  destruct (aggregator.syncFiles a w) as [w1 [changed|e]] eqn:Hsync; [|done].
  destruct Hout as [Hmirror Hwf1]. exists w1, changed. split; [done|].
  destruct (Once_world env a w w1 changed Hsync) as [-> _].
  destruct (notify_store env a changed w1) as [-> _].
  split; [|split; [done|split; [done|]]].
  - exact (proj1 (syncFiles_changed_iff a w w1 changed Hsync)).
  - intros n content. destruct Hmirror as [Hone _]. rewrite Hone.
    destruct (entries_get n (reverse (aggregator.fileTriples lists))) as [v|].
    + split; by intros [= ->].
    + by destruct (aggregator.w_fs w !! [n]) as [[?|]|].
Qed.

(** The fixtures meet the conditions of the default directory. *)
Lemma staleFs_wf : afero.wf fixtures.staleFs.
Proof.
  intros p nd Hp. unfold fixtures.staleFs in Hp.
  repeat (apply lookup_insert_Some in Hp as [[<- _]|[_ Hp]];
          [repeat constructor; try discriminate; try (intros [=])|]).
  apply lookup_singleton_Some in Hp as [<- _].
  repeat constructor; try discriminate; try (intros [=]).
Qed.

Lemma mockLister_usable (fs : afero.Fs) :
  fs !! ["default_item1_foo.txt"] = None → fs !! ["default_item1_bar.txt"] = None →
  fs !! ["default_item2_baz.txt"] = None → fs !! ["default_item2_abc.txt"] = None →
  Forall (aggregator.usable fs) (aggregator.fileTriples [fixtures.mockConfigMaps]).*1.
Proof.
  intros H1 H2 H3 H4.
  assert ((aggregator.fileTriples [fixtures.mockConfigMaps]).*1
          = ["default_item1_foo.txt"; "default_item1_bar.txt";
             "default_item2_baz.txt"; "default_item2_abc.txt"]) as ->.
  { vm_compute. reflexivity. }
  repeat (apply Forall_cons; split;
          [split; [repeat constructor; try discriminate; try (intros [=])
                  |first [by rewrite H1|by rewrite H2|by rewrite H3|by rewrite H4]]|]).
  apply Forall_nil_2.
Qed.

(** X1.  Tree correctness in the default output directory.  The store is
    well-formed, every listing succeeds, and every file name of a listed
    triple is a plain path element that does not name a sub-directory.  Then
    the synchronisation completes, and afterwards the regular files directly
    under the output directory are exactly the file names of the triples,
    each with the value of its last triple; sub-directories and everything
    below them are untouched. *)
Theorem Once_default_dir_mirrors (env : Env) (a : aggregator.Aggregator)
    (l : aggregator.ConfigMapLister) (lists : list aggregator.ConfigMapList)
    (w : aggregator.World) :
  aggregator.outputDir a = "." →
  aggregator.lister a = Some l →
  is_Some (aggregator.logger a) →
  afero.wf (aggregator.w_fs w) →
  Forall2 (λ n list, l n (aggregator.selector a) = Ok list)
    (aggregator.namespaces a) lists →
  Forall (aggregator.usable (aggregator.w_fs w)) (aggregator.fileTriples lists).*1 →
  ∃ w1 changed,
    aggregator.syncFiles a w = (w1, Ok changed) ∧
    (changed = true ↔ aggregator.w_ops w1 ≠ aggregator.w_ops w) ∧
    aggregator.mirrored (aggregator.w_fs w) (aggregator.fileTriples lists)
      (aggregator.w_fs (aggregator.Once env a w).1) ∧
    afero.wf (aggregator.w_fs (aggregator.Once env a w).1) ∧
    (∀ n content,
       aggregator.w_fs (aggregator.Once env a w).1 !! [n] = Some (afero.File content) ↔
       entries_get n (reverse (aggregator.fileTriples lists)) = Some content).
Proof. apply Once_default_dir_store. Qed.

Lemma Once_default_dir_mirrors_witness :
  ∃ w1 changed,
    aggregator.syncFiles fixtures.defaultDir (fixtures.world fixtures.staleFs)
      = (w1, Ok changed) ∧
    (changed = true ↔
     aggregator.w_ops w1 ≠ aggregator.w_ops (fixtures.world fixtures.staleFs)) ∧
    aggregator.mirrored (aggregator.w_fs (fixtures.world fixtures.staleFs))
      (aggregator.fileTriples [fixtures.mockConfigMaps])
      (aggregator.w_fs
         (aggregator.Once (fixtures.sink 200) fixtures.defaultDir
            (fixtures.world fixtures.staleFs)).1) ∧
    afero.wf
      (aggregator.w_fs
         (aggregator.Once (fixtures.sink 200) fixtures.defaultDir
            (fixtures.world fixtures.staleFs)).1) ∧
    (∀ n content,
       aggregator.w_fs
         (aggregator.Once (fixtures.sink 200) fixtures.defaultDir
            (fixtures.world fixtures.staleFs)).1 !! [n] = Some (afero.File content) ↔
       entries_get n (reverse (aggregator.fileTriples [fixtures.mockConfigMaps]))
         = Some content).
Proof.
  apply (Once_default_dir_mirrors (fixtures.sink 200) fixtures.defaultDir
           fixtures.mockLister [fixtures.mockConfigMaps]
           (fixtures.world fixtures.staleFs)).
  - vm_compute. reflexivity.
  - vm_compute. reflexivity.
  - exists ZapLogger. vm_compute. reflexivity.
  - exact staleFs_wf.
  - repeat constructor.
  - apply mockLister_usable; vm_compute; reflexivity.
Defined.

(** X2.  Idempotence in the default output directory.  Under the conditions of
    tree correctness and with distinct file names, a second cycle
    with the same collections finds every file in place: its flag is false,
    it writes and removes nothing, sends no request and returns nil, and the
    store is the one the first cycle left. *)
Theorem Once_default_dir_idempotent (env : Env) (a : aggregator.Aggregator)
    (l : aggregator.ConfigMapLister) (lists : list aggregator.ConfigMapList)
    (w : aggregator.World) :
  aggregator.outputDir a = "." →
  aggregator.lister a = Some l →
  is_Some (aggregator.logger a) →
  afero.wf (aggregator.w_fs w) →
  Forall2 (λ n list, l n (aggregator.selector a) = Ok list)
    (aggregator.namespaces a) lists →
  Forall (aggregator.usable (aggregator.w_fs w)) (aggregator.fileTriples lists).*1 →
  NoDup (aggregator.fileTriples lists).*1 →
  let first := aggregator.Once env a w in
  let second := aggregator.Once env a first.1 in
  (∃ w2, aggregator.syncFiles a first.1 = (w2, Ok false)) ∧
  aggregator.w_fs second.1 = aggregator.w_fs first.1 ∧
  aggregator.w_ops second.1 = aggregator.w_ops first.1 ∧
  aggregator.w_requests second.1 = aggregator.w_requests first.1 ∧
  second.2 = None.
Proof.
  intros Hdir Hl Hlog Hwf Hlists Hnames Hnd first second.
  destruct (Once_default_dir_store env a l lists w Hdir Hl Hlog Hwf Hlists Hnames)
    as (w1 & changed & _ & _ & Hmirror & _ & _).
  fold first in Hmirror.
  assert (Forall filepath.plain (aggregator.fileTriples lists).*1) as Hplain.
  { eapply Forall_impl; [exact Hnames|]. by intros n [? _]. }
  destruct (mirrored_holds _ _ _ Hnd Hplain Hmirror) as [Hholds Honly].
  pose proof (syncFiles_settled a l first.1 Hdir Hl Hlog lists Hlists Hnd Hholds Honly)
    as Hout.
  unfold aggregator.outcome in Hout.
  destruct (aggregator.syncFiles a first.1) as [w2 [changed2|e]] eqn:Hsync; [|done].
  destruct Hout as (-> & Hfs & Hops & Hreq).
  split; [by exists w2|].
  destruct (Once_world env a first.1 w2 false Hsync) as [Hworld Herr].
  fold second in Hworld, Herr.
  rewrite (notify_quiet env a false w2 (or_introl eq_refl)) in Hworld, Herr.
  rewrite Hworld, Herr. by repeat split.
Qed.

Lemma Once_default_dir_idempotent_witness :
  let first := aggregator.Once (fixtures.sink 200) fixtures.defaultDir
                 (fixtures.world fixtures.staleFs) in
  let second := aggregator.Once (fixtures.sink 200) fixtures.defaultDir first.1 in
  (∃ w2, aggregator.syncFiles fixtures.defaultDir first.1 = (w2, Ok false)) ∧
  aggregator.w_fs second.1 = aggregator.w_fs first.1 ∧
  aggregator.w_ops second.1 = aggregator.w_ops first.1 ∧
  aggregator.w_requests second.1 = aggregator.w_requests first.1 ∧
  second.2 = None.
Proof.
  apply (Once_default_dir_idempotent (fixtures.sink 200) fixtures.defaultDir
           fixtures.mockLister [fixtures.mockConfigMaps]
           (fixtures.world fixtures.staleFs)).
  - vm_compute. reflexivity.
  - vm_compute. reflexivity.
  - exists ZapLogger. vm_compute. reflexivity.
  - exact staleFs_wf.
  - repeat constructor.
  - apply mockLister_usable; vm_compute; reflexivity.
  - apply (bool_decide_unpack _). vm_compute. exact I.
Defined.

(** Outside the conditions of idempotence: when a file name
    is produced twice in one cycle, its second occurrence is no longer in the
    tracking set, so it is written on every cycle and the flag is true. *)
Lemma Once_duplicate_names_rewrite :
  let first := aggregator.Once (fixtures.sink 200) fixtures.listedTwice
                 (fixtures.world fixtures.emptyFs) in
  let second := aggregator.Once (fixtures.sink 200) fixtures.listedTwice
                  (fixtures.again first.1) in
  aggregator.outputDir fixtures.listedTwice = "." ∧
  first.2 = None ∧ second.2 = None ∧
  aggregator.w_ops second.1
    = [ aggregator.OpWrite "default_item1_foo.txt" "1234567890";
        aggregator.OpWrite "default_item1_bar.txt" "0987654321";
        aggregator.OpWrite "default_item2_baz.txt" "qwertyuiop";
        aggregator.OpWrite "default_item2_abc.txt" "asdfghjkl" ] ∧
  (aggregator.syncFiles fixtures.listedTwice (fixtures.again first.1)).2 = Ok true ∧
  map_to_list (aggregator.w_fs second.1) = map_to_list (aggregator.w_fs first.1).
Proof. vm_compute. repeat split. Qed.

(** * Further properties of the code *)

(** ** [New]: the error paths *)

Lemma run_options_app (pre post : list aggregator.OptionsFunc)
    (a : aggregator.Aggregator) :
  aggregator.run_options (pre ++ post) a =
    match aggregator.run_options pre a with
    | (a', None) => aggregator.run_options post a'
    | (a', Some e) => (a', Some e)
    end.
Proof.
  revert a. induction pre as [|f pre IH]; intros a; simpl; [done|].
  destruct (f a) as [a' [e|]]; [done|]. apply IH.
Qed.

(** X8.  When an option function returns an error, [New] returns a nil
    aggregator and that error wrapped as "failed to run options function",
    whatever the options after it are (they are not run) and whether or not
    a lister was set.  [SetWebHook] is such an option when the URL does not
    parse. *)
Theorem New_option_error (env : Env) (pre post : list aggregator.OptionsFunc)
    (f : aggregator.OptionsFunc) (a1 a2 : aggregator.Aggregator) (e : error) :
  aggregator.run_options pre aggregator.initial = (a1, None) →
  f a1 = (a2, Some e) →
  aggregator.New env (pre ++ f :: post)
    = (None, Some (errWrap e "failed to run options function"))
  ∧
  (∀ hook cause,
     url_Parse env hook = Some cause →
     aggregator.SetWebHook env hook a1
       = (a1, Some (errWrap cause "failed to parse webhook"))).
Proof.
  intros Hpre Hf. split.
  - unfold aggregator.New. rewrite run_options_app, Hpre. simpl. by rewrite Hf.
  - intros hook cause Hparse. unfold aggregator.SetWebHook. by rewrite Hparse.
Qed.

(** X9.  With no logger set by the options, a failure of [NewLogger] makes
    [New] return a nil aggregator and that error wrapped as "failed to
    create logger"; this is reported before the missing lister is.  A logger
    set by an option is kept, and [NewLogger] is then not consulted. *)
Theorem New_logger_error (env : Env) (options : list aggregator.OptionsFunc)
    (a : aggregator.Aggregator) :
  aggregator.run_options options aggregator.initial = (a, None) →
  (∀ e, aggregator.logger a = None → NewLogger env = Err e →
        aggregator.New env options
          = (None, Some (errWrap e "failed to create logger")))
  ∧
  (∀ lg l, aggregator.logger a = Some lg → aggregator.lister a = Some l →
           ∃ a', aggregator.New env options = (Some a', None) ∧
                 aggregator.logger a' = Some lg).
Proof.
  intros Hrun. split.
  - intros e Hnil Hnew. unfold aggregator.New. by rewrite Hrun, Hnil, Hnew.
  - intros lg l Hlg Hl. unfold aggregator.New. rewrite Hrun, Hlg, Hl.
    eexists. split; [reflexivity|]. done.
Qed.

Lemma New_option_error_witness :
  aggregator.New fixtures.picky
    [aggregator.SetConfigMapLister (Some fixtures.mockLister);
     aggregator.SetWebHook fixtures.picky "\http:/invalid url";
     aggregator.SetOutputDir "/tmp"]
  = (None,
     Some (errWrap
             (errWrap (errNew "first path segment in URL cannot contain colon")
                "failed to parse webhook")
             "failed to run options function")).
Proof.
  apply (proj1 (New_option_error fixtures.picky
                  [aggregator.SetConfigMapLister (Some fixtures.mockLister)]
                  [aggregator.SetOutputDir "/tmp"]
                  (aggregator.SetWebHook fixtures.picky "\http:/invalid url")
                  _ _ _ eq_refl eq_refl)).
Defined.

Lemma New_logger_error_witness :
  aggregator.New fixtures.noLogger
    [aggregator.SetConfigMapLister (Some fixtures.mockLister)]
  = (None, Some (errWrap (errNew "no sink") "failed to create logger")).
Proof.
  apply (proj1 (New_logger_error fixtures.noLogger
                  [aggregator.SetConfigMapLister (Some fixtures.mockLister)]
                  _ eq_refl) (errNew "no sink") eq_refl eq_refl).
Defined.

(** ** The webhook and the listing of the output directory *)

(** X6.  When the synchronisation changed something, a webhook is configured
    and the request cannot be delivered, [Once] returns the transport error
    wrapped as "webhook request failed"; exactly one request was attempted,
    and the store and the operations are those the synchronisation left. *)
Theorem Once_transport_failure (env : Env) (a : aggregator.Aggregator)
    (w w1 : aggregator.World) (req : http.Request) (e : error) :
  aggregator.syncFiles a w = (w1, Ok true) →
  aggregator.webhook a ≠ "" →
  http_NewRequest env (aggregator.webhookMethod a) (aggregator.webhook a) None
    = Ok req →
  http_Do env req = Err e →
  (aggregator.Once env a w).2 = Some (errWrap e "webhook request failed") ∧
  aggregator.w_requests (aggregator.Once env a w).1
    = aggregator.w_requests w ++ [req] ∧
  aggregator.w_fs (aggregator.Once env a w).1 = aggregator.w_fs w1 ∧
  aggregator.w_ops (aggregator.Once env a w).1 = aggregator.w_ops w1.
Proof.
  intros Hsync Hhook Hreq Hdo.
  destruct (Once_world env a w w1 true Hsync) as [-> ->].
  rewrite (notify_transport_failure env a req e w1 Hhook Hreq Hdo).
  destruct (notify_sends env a true req w1 eq_refl Hhook Hreq) as (-> & -> & ->).
  destruct (syncFiles_changed_iff a w w1 true Hsync) as [_ ->]. done.
Qed.

Lemma Once_transport_failure_witness :
  (aggregator.Once fixtures.unreachable (fixtures.hooked fixtures.unreachable)
     (fixtures.world fixtures.emptyFs)).2
    = Some (errWrap (errNew "connection refused") "webhook request failed").
Proof.
  refine (proj1 (Once_transport_failure fixtures.unreachable
                   (fixtures.hooked fixtures.unreachable)
                   (fixtures.world fixtures.emptyFs)
                   (aggregator.syncFiles (fixtures.hooked fixtures.unreachable)
                      (fixtures.world fixtures.emptyFs)).1
                   {| http.Method := "POST"; http.URL := "http://127.0.0.1:9090/reload";
                      http.Body := None |}
                   (errNew "connection refused") _ _ _ _)).
  - vm_compute. reflexivity.
  - vm_compute. discriminate.
  - vm_compute. reflexivity.
  - reflexivity.
Defined.

(** X5.  When the output directory cannot be listed (it does not exist, or
    it is a regular file), [Once] returns the listing error wrapped with
    the directory, and nothing else happens: no namespace is queried, no
    file is written or removed, no request is sent. *)
Theorem Once_unlistable_directory (env : Env) (a : aggregator.Aggregator)
    (w : aggregator.World) :
  afero.stat (aggregator.w_fs w) (afero.resolve (aggregator.outputDir a))
    ≠ Some afero.Dir →
  ∃ e, afero.ReadDir (aggregator.w_fs w) (aggregator.outputDir a) = Err e ∧
       aggregator.Once env a w
         = (w, Some (errWrap e ("failed to list files in " +:+ aggregator.outputDir a))).
Proof.
  intros Hstat. unfold aggregator.Once, aggregator.syncFiles, aggregator.bind,
    aggregator.wrapf, aggregator.readDir, afero.ReadDir.
  destruct (afero.stat _ _) as [[content|]|]; try done; eauto.
Qed.

Lemma Once_unlistable_directory_witness :
  aggregator.Once (fixtures.sink 200) fixtures.tmpDir (fixtures.world fixtures.emptyFs)
  = (fixtures.world fixtures.emptyFs,
     Some (errWrap (errNew "no such file or directory") "failed to list files in /tmp")).
Proof.
  destruct (Once_unlistable_directory (fixtures.sink 200) fixtures.tmpDir
              (fixtures.world fixtures.emptyFs)) as (e & Hlist & Honce).
  - vm_compute. discriminate.
  - rewrite Honce. injection Hlist as <-. reflexivity.
Defined.

(** ** The lister backed by Kubernetes *)

Lemma HasPrefix_app (n rest : string) : HasPrefix (n +:+ rest) n = true.
Proof.
  induction n as [|ch n IH]; simpl; [by destruct rest|]. by rewrite decide_True.
Qed.

Lemma Contains_unfold (s substr : string) :
  Contains s substr =
    HasPrefix s substr ||
    match s with
    | EmptyString => false
    | String _ s' => Contains s' substr
    end.
Proof. by destruct s. Qed.

Lemma Contains_app (pre n rest : string) : Contains (pre +:+ n +:+ rest) n = true.
Proof.
  induction pre as [|ch pre IH].
  - change ("" +:+ n +:+ rest) with (n +:+ rest).
    by rewrite Contains_unfold, HasPrefix_app.
  - change (String ch pre +:+ n +:+ rest) with (String ch (pre +:+ n +:+ rest)).
    rewrite Contains_unfold, IH. apply orb_true_r.
Qed.

(** X7.  [K8s.List] hands a successful listing through unchanged and wraps
    a failure with the namespace.  With this lister, when the output
    directory can be listed and the query of the first namespace fails,
    [Once] returns that error wrapped once more; its message names the
    namespace (through the wrap of [List]), only that namespace was queried
    and nothing was written or removed. *)
Theorem Once_K8s_list_error (env : Env) (a : aggregator.Aggregator)
    (k : aggregator.K8s) (w : aggregator.World) (n : string) (rest : list string)
    (files : list afero.FileInfo) (cause : error) :
  aggregator.lister a = Some (aggregator.K8s_List k) →
  aggregator.namespaces a = n :: rest →
  afero.ReadDir (aggregator.w_fs w) (aggregator.outputDir a) = Ok files →
  k n (aggregator.selector a) = Err cause →
  ∃ e w',
    aggregator.Once env a w = (w', Some e) ∧
    Error e = "failed to list config maps for namespace : failed to list config maps for "
              +:+ n +:+ ": " +:+ Error cause ∧
    Contains (Error e) n = true ∧
    aggregator.w_queries w' = aggregator.w_queries w ++ [n] ∧
    aggregator.w_ops w' = aggregator.w_ops w ∧
    aggregator.w_fs w' = aggregator.w_fs w ∧
    aggregator.w_requests w' = aggregator.w_requests w.
Proof.
  intros Hl Hnss Hdir Hk.
  unfold aggregator.Once, aggregator.syncFiles, aggregator.bind at 1 2,
    aggregator.wrapf at 1, aggregator.readDir.
  rewrite Hdir, Hnss. cbn [aggregator.forM].
  unfold aggregator.bind at 1, aggregator.syncNamespace at 1,
    aggregator.bind at 1, aggregator.wrapf, aggregator.list_configmaps.
  rewrite Hl. unfold aggregator.K8s_List. rewrite Hk.
  eexists _, _. split; [reflexivity|]. simpl. repeat split.
  apply (Contains_app
           "failed to list config maps for namespace : failed to list config maps for ").
Qed.

Lemma Once_K8s_list_error_witness :
  ∃ e w',
    aggregator.Once (fixtures.sink 200) fixtures.viaK8s (fixtures.world fixtures.emptyFs)
      = (w', Some e) ∧
    Error e = "failed to list config maps for namespace : failed to list config maps for kube-system: forbidden".
Proof.
  destruct (Once_K8s_list_error (fixtures.sink 200) fixtures.viaK8s fixtures.refusing
              (fixtures.world fixtures.emptyFs) "kube-system" ["default"] []
              (errNew "forbidden") eq_refl eq_refl eq_refl eq_refl)
    as (e & w' & Honce & Hmsg & _).
  exists e, w'. split; [exact Honce|exact Hmsg].
Defined.

(** ** The controller: fetching and updating the target *)

(** X14.  In both revisions of [upsertConfigMap], a failure to fetch the
    target that is not [ErrNotExist] is returned wrapped with the target's
    namespace and name, and neither create nor update is called. *)
Theorem upsertConfigMap_fetch_failure (c : main.controller) (cm : main.ConfigMap)
    (e : error) :
  main.getConfigMap (main.client c) (main.targetNamespace c) (main.targetName c)
    = Err e →
  e ≠ ErrNotExist →
  main.upsertConfigMap c cm
    = ([], Some (errWrap e ("failed to get config map " +:+ main.targetNamespace c
                            +:+ "/" +:+ main.targetName c)))
  ∧ main_go.upsertConfigMap c cm = main.upsertConfigMap c cm.
Proof.
  intros Hget Hne. rewrite (upsertConfigMap_fetch_error c cm e Hget Hne).
  split; [done|]. unfold main_go.upsertConfigMap. rewrite Hget.
  by rewrite decide_False.
Qed.

Lemma upsertConfigMap_fetch_failure_witness :
  main.upsertConfigMap (fixtures.brokenController (errNew "timeout") ["default"])
    (main.newConfigMap "default" "target")
  = ([], Some (errWrap (errNew "timeout") "failed to get config map default/target")).
Proof.
  apply (proj1 (upsertConfigMap_fetch_failure
                  (fixtures.brokenController (errNew "timeout") ["default"])
                  (main.newConfigMap "default" "target") (errNew "timeout")
                  eq_refl ltac:(discriminate))).
Defined.

(** X15.  [upsertConfigMap] of [main.go] never skips a write: when the
    target does not exist it calls create with the candidate, and when it
    exists it calls update exactly once, whatever the two data mappings are
    (also when they are identical); the updated resource has the
    candidate's data, the existing version token, and labels and
    annotations in which the existing values win.  The error returned is the
    one of that call. *)
Theorem main_go_upsertConfigMap_always_writes (c : main.controller)
    (cm : main.ConfigMap) :
  (main.getConfigMap (main.client c) (main.targetNamespace c) (main.targetName c)
     = Err ErrNotExist →
   main_go.upsertConfigMap c cm
     = ([main.CallCreate cm], main.client_createConfigMap (main.client c) cm))
  ∧
  (∀ existing,
     main.getConfigMap (main.client c) (main.targetNamespace c) (main.targetName c)
       = Ok existing →
     ∃ cm',
       main_go.upsertConfigMap c cm
         = ([main.CallUpdate cm'], main.client_updateConfigMap (main.client c) cm') ∧
       main.Data cm' = main.Data cm ∧
       main.ResourceVersion (main.Meta cm') = main.ResourceVersion (main.Meta existing) ∧
       (∀ k, main.Annotations (main.Meta cm') !! k =
               match main.Annotations (main.Meta existing) !! k with
               | Some v => Some v
               | None => main.Annotations (main.Meta cm) !! k
               end) ∧
       (∀ k, main.Labels (main.Meta cm') !! k =
               match main.Labels (main.Meta existing) !! k with
               | Some v => Some v
               | None => main.Labels (main.Meta cm) !! k
               end)).
Proof.
  split.
  - intros Hget. unfold main_go.upsertConfigMap. by rewrite Hget.
  - intros existing Hget. exists (main.adopt existing cm).
    rewrite (main_go_upsertConfigMap_present c cm existing Hget).
    repeat split; intros k; apply copyInto_lookup.
Qed.

Lemma main_go_upsertConfigMap_always_writes_witness :
  ∃ cm',
    (main_go.upsertConfigMap
       (fixtures.controllerOf
          (Some (fixtures.target (gomake [("ns_cm_a", "1"); ("ns_cm_b", "2")])))
          [fixtures.source])
       (fixtures.candidate (fixtures.controllerOf None [fixtures.source]))).1
      = [main.CallUpdate cm'] ∧
    main.Data cm' = gomake [("ns_cm_a", "1"); ("ns_cm_b", "2")] ∧
    main.ResourceVersion (main.Meta cm') = "41".
Proof.
  destruct (proj2 (main_go_upsertConfigMap_always_writes
                     (fixtures.controllerOf
                        (Some (fixtures.target (gomake [("ns_cm_a", "1"); ("ns_cm_b", "2")])))
                        [fixtures.source])
                     (fixtures.candidate (fixtures.controllerOf None [fixtures.source])))
              _ eq_refl)
    as (cm' & Hcalls & Hdata & Hversion & _).
  exists cm'. rewrite Hcalls. split; [reflexivity|]. split; [exact Hdata|exact Hversion].
Defined.

(** X16.  Copying the existing labels or annotations onto the candidate's
    gives the union of the two maps in which the existing entries win;
    adopting the same existing resource a second time changes nothing, and
    the data mapping is never touched. *)
Theorem adopt_union_idempotent (existing cm : main.ConfigMap) :
  main.Annotations (main.Meta (main.adopt existing cm))
    = main.Annotations (main.Meta existing) ∪ main.Annotations (main.Meta cm) ∧
  main.Labels (main.Meta (main.adopt existing cm))
    = main.Labels (main.Meta existing) ∪ main.Labels (main.Meta cm) ∧
  main.adopt existing (main.adopt existing cm) = main.adopt existing cm ∧
  main.Data (main.adopt existing cm) = main.Data cm.
Proof.
  assert (∀ m1 m2 : gmap string string, main.copyInto m1 m2 = m1 ∪ m2) as Hunion.
  { intros m1 m2. apply map_eq. intros k.
    rewrite copyInto_lookup, lookup_union.
    destruct (m1 !! k), (m2 !! k); done. }
  split; [apply Hunion|]. split; [apply Hunion|]. split; [|done].
  unfold main.adopt. simpl. rewrite !Hunion.
  by rewrite !(assoc_L (∪)), !(idemp_L (∪)).
Qed.

(** ** The controller: building the candidate, and the callers *)

Lemma collect_Ok_listed (flag_selector : string) (c : main.controller)
    (nss : list string) :
  ∀ (data d : entries) (q : list string),
    main.collect flag_selector c data nss = (q, Ok d) →
    ∃ lists, main.listed flag_selector c nss lists.
Proof.
  induction nss as [|n nss IH]; intros data d q Hcollect.
  - exists []. constructor.
  - simpl in Hcollect.
    destruct (main.getConfigMaps (main.client c) n flag_selector) as [list|e] eqn:Hn;
      [|done].
    destruct (main.collect flag_selector c _ nss) as [q' [d'|e]] eqn:Hrest; [|done].
    destruct (IH _ _ _ Hrest) as [lists Hlists].
    exists (list :: lists). by constructor.
Qed.

(** X10.  [createConfigMap] queries the namespaces in the configured order.
    The first failing query ends it: the namespaces after it are not
    queried, no candidate is returned, and the error is the cause wrapped
    with the namespace and the controller's selector.  When no query fails,
    every namespace was queried exactly once, in order. *)
Theorem createConfigMap_stops_at_first_failure (flag_selector : string)
    (c : main.controller) :
  (∀ pre n post e lists,
     main.namespaces c = pre ++ n :: post →
     main.listed flag_selector c pre lists →
     main.getConfigMaps (main.client c) n flag_selector = Err e →
     main.createConfigMap flag_selector c
       = (pre ++ [n],
          Err (errWrap e ("failed to get config maps for " +:+ n +:+ " "
                          +:+ main.selector c))))
  ∧
  (∀ q cm, main.createConfigMap flag_selector c = (q, Ok cm) →
           q = main.namespaces c).
Proof.
  split.
  - intros pre n post e lists Hnss Hpre Hn. unfold main.createConfigMap.
    by rewrite Hnss, (collect_fail_fast _ _ _ _ _ _ _ _ Hpre Hn).
  - intros q cm Hcreate. unfold main.createConfigMap in Hcreate.
    destruct (main.collect flag_selector c [] (main.namespaces c))
      as [q' [d|e]] eqn:Hcollect; [|done].
    destruct (collect_Ok_listed _ _ _ _ _ _ Hcollect) as [lists Hlists].
    rewrite (collect_listed _ _ _ _ _ Hlists) in Hcollect.
    injection Hcollect as <- _. by injection Hcreate as <- _.
Qed.

Lemma createConfigMap_stops_at_first_failure_witness :
  main.createConfigMap "app=web"
    (fixtures.brokenController ErrNotExist ["default"; "kube-system"; "staging"])
  = (["default"; "kube-system"],
     Err (errWrap (errNew "forbidden")
            "failed to get config maps for kube-system app=web")).
Proof.
  apply (proj1 (createConfigMap_stops_at_first_failure "app=web"
                  (fixtures.brokenController ErrNotExist
                     ["default"; "kube-system"; "staging"]))
           ["default"] "kube-system" ["staging"] (errNew "forbidden")
           [ {| main.Items := [fixtures.source] |} ]).
  - reflexivity.
  - repeat constructor.
  - reflexivity.
Defined.

(** X12.  Whenever [createConfigMap] returns a candidate, its data mapping
    is an allocated map in which no key occurs twice (also when composite
    keys collide), and it carries the ownership marker
    [configmap-aggregator = target]. *)
Theorem createConfigMap_candidate_well_formed (flag_selector : string)
    (c : main.controller) (q : list string) (cm : main.ConfigMap) :
  main.createConfigMap flag_selector c = (q, Ok cm) →
  wf (main.Data cm) ∧ is_nil (main.Data cm) = false ∧
  main.Annotations (main.Meta cm) !! "configmap-aggregator" = Some "target".
Proof.
  intros Hcreate. pose proof Hcreate as Hcreate'.
  unfold main.createConfigMap in Hcreate'.
  destruct (main.collect flag_selector c [] (main.namespaces c))
    as [q' [d|e]] eqn:Hcollect; [|done].
  destruct (collect_Ok_listed _ _ _ _ _ _ Hcollect) as [lists Hlists].
  destruct (createConfigMap_listed flag_selector c lists Hlists)
    as (cm' & Hcm' & Hdata & _ & _ & Hmark).
  rewrite Hcm' in Hcreate. injection Hcreate as _ <-.
  rewrite Hdata. split; [|done]. unfold wf. simpl.
  apply assign_NoDup. apply NoDup_nil_2.
Qed.

Lemma createConfigMap_candidate_well_formed_witness :
  wf (main.Data (fixtures.candidate (fixtures.controllerOf None fixtures.colliding))).
Proof.
  apply (createConfigMap_candidate_well_formed ""
           (fixtures.controllerOf None fixtures.colliding) [""]
           (fixtures.candidate (fixtures.controllerOf None fixtures.colliding))
           eq_refl).
Defined.

(** X13.  The composite key can be taken apart again: when the namespaces
    and the names are free of the delimiter, two composite keys are equal
    exactly when namespace, name and key are, also for keys that contain
    the delimiter.  The file names of [Once] are the same strings.  A name
    with a delimiter breaks this. *)
Theorem aggregateKey_decodes (ns1 name1 k1 ns2 name2 k2 : string) :
  (free_of "_" ns1 → free_of "_" name1 → free_of "_" ns2 → free_of "_" name2 →
   (main.aggregateKey ns1 name1 k1 = main.aggregateKey ns2 name2 k2 ↔
    (ns1, name1, k1) = (ns2, name2, k2)))
  ∧
  (∀ item,
     aggregator.Namespace (aggregator.Meta item) = ns1 →
     aggregator.Name (aggregator.Meta item) = name1 →
     aggregator.fileName item k1 = main.aggregateKey ns1 name1 k1)
  ∧
  main.aggregateKey "a" "b_c" "d" = main.aggregateKey "a_b" "c" "d".
Proof.
  split; [|split].
  - intros H1 H2 H3 H4. split.
    + intros Heq.
      by destruct (aggregateKey_inj _ _ _ _ _ _ H1 H2 H3 H4 Heq) as (-> & -> & ->).
    + by intros [= -> -> ->].
  - by intros item <- <-.
  - reflexivity.
Qed.

Lemma aggregateKey_decodes_witness :
  (main.aggregateKey "kube-system" "core-dns" "resolv_conf"
     = main.aggregateKey "kube-system" "core" "dns_resolv_conf" ↔
   ("kube-system", "core-dns", "resolv_conf") = ("kube-system", "core", "dns_resolv_conf"))
  ∧
  main.aggregateKey "kube-system" "core-dns" "resolv_conf"
    ≠ main.aggregateKey "kube-system" "core" "dns_resolv_conf"
  ∧
  main.aggregateKey "kube-system" "core-dns" "resolv_conf"
    ≠ main.aggregateKey "kube" "system" "core-dns_resolv_conf".
Proof.
  split; [|split].
  - apply (proj1 (aggregateKey_decodes "kube-system" "core-dns" "resolv_conf"
                    "kube-system" "core" "dns_resolv_conf"));
      simpl; repeat split; discriminate.
  - intros Heq.
    apply (proj1 (aggregateKey_decodes "kube-system" "core-dns" "resolv_conf"
                    "kube-system" "core" "dns_resolv_conf")) in Heq;
      [discriminate|simpl; repeat split; discriminate..].
  - intros Heq.
    apply (proj1 (aggregateKey_decodes "kube-system" "core-dns" "resolv_conf"
                    "kube" "system" "core-dns_resolv_conf")) in Heq;
      [discriminate|simpl; repeat split; discriminate..].
Defined.

(** X17.  [process] makes no call on the destination when building the
    candidate fails: the queries stop at the failing namespace and the
    error of [createConfigMap] is returned as it is.  When the candidate is
    built, the calls and the error are those of [upsertConfigMap] for it. *)
Theorem process_stops_before_upsert (flag_selector : string) (c : main.controller) :
  (∀ pre n post e lists,
     main.namespaces c = pre ++ n :: post →
     main.listed flag_selector c pre lists →
     main.getConfigMaps (main.client c) n flag_selector = Err e →
     main.process flag_selector c
       = (pre ++ [n], [],
          Some (errWrap e ("failed to get config maps for " +:+ n +:+ " "
                           +:+ main.selector c))))
  ∧
  (∀ lists,
     main.listed flag_selector c (main.namespaces c) lists →
     ∃ cm, main.createConfigMap flag_selector c = (main.namespaces c, Ok cm) ∧
           main.process flag_selector c
             = (main.namespaces c, (main.upsertConfigMap c cm).1,
                (main.upsertConfigMap c cm).2)).
Proof.
  split.
  - intros pre n post e lists Hnss Hpre Hn. unfold main.process, main.createConfigMap.
    by rewrite Hnss, (collect_fail_fast _ _ _ _ _ _ _ _ Hpre Hn).
  - intros lists Hlists.
    destruct (createConfigMap_listed flag_selector c lists Hlists) as (cm & Hcm & _).
    exists cm. split; [done|]. unfold main.process. by rewrite Hcm.
Qed.

Lemma process_stops_before_upsert_witness :
  main.process "app=web"
    (fixtures.brokenController ErrNotExist ["kube-system"; "default"])
  = (["kube-system"], [],
     Some (errWrap (errNew "forbidden")
             "failed to get config maps for kube-system app=web")).
Proof.
  apply (proj1 (process_stops_before_upsert "app=web"
                  (fixtures.brokenController ErrNotExist ["kube-system"; "default"]))
           [] "kube-system" ["default"] (errNew "forbidden") []).
  - reflexivity.
  - constructor.
  - reflexivity.
Defined.

(** X18.  [runAggregator] of [main.go].  With any number of arguments other
    than two it prints the usage line and exits with -2 without querying
    anything.  With two arguments it queries the configured namespaces (the
    single empty namespace when none was given); when a query fails it
    prints the error and exits with -4 without any call on the destination;
    otherwise it upserts the candidate, exits with -4 when that fails and
    returns normally when it succeeds. *)
Theorem runAggregator_outcomes (newk8sClient : string → main.k8sClient)
    (fl : main_go.flags) (args : list string) :
  (length args ≠ 2 →
   main_go.runAggregator newk8sClient fl args
     = {| main_go.printed := ["namespace and name of target configmap is required"];
          main_go.status := Some (-2)%Z; main_go.queried := [];
          main_go.calls := [] |})
  ∧
  (∀ targetNamespace targetName,
     args = [targetNamespace; targetName] →
     let c :=
       {| main.client := newk8sClient (main_go.flag_endpoint fl);
          main.targetNamespace := targetNamespace;
          main.targetName := targetName;
          main.selector := main_go.flag_selector fl;
          main.namespaces :=
            if decide (main_go.flag_namespaces fl = []) then [""]
            else main_go.flag_namespaces fl |} in
     (∀ pre n post e lists,
        main.namespaces c = pre ++ n :: post →
        main.listed (main_go.flag_selector fl) c pre lists →
        main.getConfigMaps (main.client c) n (main_go.flag_selector fl) = Err e →
        main_go.runAggregator newk8sClient fl args
          = {| main_go.printed :=
                 [Error (errWrap e ("failed to get config maps for " +:+ n +:+ " "
                                    +:+ main_go.flag_selector fl))];
               main_go.status := Some (-4)%Z;
               main_go.queried := pre ++ [n];
               main_go.calls := [] |})
     ∧
     (∀ lists,
        main.listed (main_go.flag_selector fl) c (main.namespaces c) lists →
        ∃ cm,
          main.createConfigMap (main_go.flag_selector fl) c
            = (main.namespaces c, Ok cm) ∧
          main_go.queried (main_go.runAggregator newk8sClient fl args)
            = main.namespaces c ∧
          main_go.calls (main_go.runAggregator newk8sClient fl args)
            = (main_go.upsertConfigMap c cm).1 ∧
          main_go.status (main_go.runAggregator newk8sClient fl args)
            = match (main_go.upsertConfigMap c cm).2 with
              | None => None
              | Some _ => Some (-4)%Z
              end ∧
          main_go.printed (main_go.runAggregator newk8sClient fl args)
            = match (main_go.upsertConfigMap c cm).2 with
              | None => []
              | Some e => [Error e]
              end)).
Proof.
  split.
  - intros Hlen. destruct args as [|x [|y [|z args]]]; done.
  - intros targetNamespace targetName -> c.
    assert (main_go.runAggregator newk8sClient fl [targetNamespace; targetName]
            = match main.createConfigMap (main_go.flag_selector fl) c with
              | (queried, Err e) =>
                  {| main_go.printed := [Error e]; main_go.status := Some (-4)%Z;
                     main_go.queried := queried; main_go.calls := [] |}
              | (queried, Ok cm) =>
                  match main_go.upsertConfigMap c cm with
                  | (calls, Some e) =>
                      {| main_go.printed := [Error e]; main_go.status := Some (-4)%Z;
                         main_go.queried := queried; main_go.calls := calls |}
                  | (calls, None) =>
                      {| main_go.printed := []; main_go.status := None;
                         main_go.queried := queried; main_go.calls := calls |}
                  end
              end) as ->.
    { unfold main_go.runAggregator, c.
      unfold main_go.createConfigMap.
      destruct (main_go.flag_namespaces fl) as [|n0 nss0]; reflexivity. }
    split.
    + intros pre n post e lists Hnss Hpre Hn.
      unfold main.createConfigMap.
      by rewrite Hnss, (collect_fail_fast _ _ _ _ _ _ _ _ Hpre Hn).
    + intros lists Hlists.
      destruct (createConfigMap_listed _ c lists Hlists) as (cm & Hcm & _).
      exists cm. split; [done|]. rewrite Hcm.
      by destruct (main_go.upsertConfigMap c cm) as [calls [e|]].
Qed.

Lemma runAggregator_outcomes_witness :
  main_go.runAggregator (λ _, fixtures.store None [fixtures.source])
    {| main_go.flag_selector := ""; main_go.flag_endpoint := "http://127.0.0.1:8001";
       main_go.flag_namespaces := [] |} ["default"]
  = {| main_go.printed := ["namespace and name of target configmap is required"];
       main_go.status := Some (-2)%Z; main_go.queried := []; main_go.calls := [] |}
  ∧
  main_go.runAggregator (λ _, fixtures.brokenStore ErrNotExist)
    {| main_go.flag_selector := "app=web"; main_go.flag_endpoint := "http://127.0.0.1:8001";
       main_go.flag_namespaces := ["kube-system"] |} ["default"; "target"]
  = {| main_go.printed := ["failed to get config maps for kube-system app=web: forbidden"];
       main_go.status := Some (-4)%Z; main_go.queried := ["kube-system"];
       main_go.calls := [] |}.
Proof.
  split.
  - apply (proj1 (runAggregator_outcomes _ _ ["default"])). simpl. discriminate.
  - apply (proj1 (proj2 (runAggregator_outcomes (λ _, fixtures.brokenStore ErrNotExist)
                           {| main_go.flag_selector := "app=web";
                              main_go.flag_endpoint := "http://127.0.0.1:8001";
                              main_go.flag_namespaces := ["kube-system"] |}
                           ["default"; "target"])
                    "default" "target" eq_refl)
             [] "kube-system" [] (errNew "forbidden") []).
    + reflexivity.
    + constructor.
    + reflexivity.
Defined.

(** ** The candidate does not depend on the iteration order of the maps *)

Lemma entries_get_Permutation (k : string) (l1 l2 : entries) :
  NoDup l1.*1 → l1 ≡ₚ l2 → entries_get k l1 = entries_get k l2.
Proof.
  intros Hnd Hperm.
  assert (NoDup l2.*1) as Hnd2 by by rewrite <- Hperm.
  destruct (entries_get k l1) as [v|] eqn:Hget.
  - symmetry. apply entries_elem_get; [done|].
    rewrite <- Hperm. by apply entries_get_Some_elem.
  - symmetry. apply entries_get_None. rewrite <- Hperm. by apply entries_get_None.
Qed.

Lemma aggregateKey_key_inj (ns name k1 k2 : string) :
  main.aggregateKey ns name k1 = main.aggregateKey ns name k2 → k1 = k2.
Proof.
  unfold main.aggregateKey. intros Heq.
  apply (inj (String.app ns)) in Heq. injection Heq as Heq.
  apply (inj (String.app name)) in Heq. by injection Heq.
Qed.

Lemma triplesOf_keys_NoDup (c : main.controller) (item : main.ConfigMap) :
  wf (main.Data item) → NoDup (main.triplesOf c item).*1.
Proof.
  intros Hwf. unfold main.triplesOf. destruct (main.isTarget c item).
  { apply NoDup_nil_2. }
  assert (((λ kv : string * string,
              (main.aggregateKey (main.Namespace (main.Meta item))
                 (main.Name (main.Meta item)) kv.1, kv.2))
             <$> range (main.Data item)).*1
          = main.aggregateKey (main.Namespace (main.Meta item))
              (main.Name (main.Meta item)) <$> (range (main.Data item)).*1) as ->.
  { rewrite <- !list_fmap_compose. by apply list_fmap_ext. }
  apply NoDup_fmap_2; [|done].
  intros k1 k2. apply aggregateKey_key_inj.
Qed.

Lemma triplesOf_sameItem (c c' : main.controller) (i1 i2 : main.ConfigMap)
    (k : string) :
  main.targetNamespace c = main.targetNamespace c' →
  main.targetName c = main.targetName c' →
  main.sameItem i1 i2 →
  entries_get k (reverse (main.triplesOf c i1))
    = entries_get k (reverse (main.triplesOf c' i2)).
Proof.
  intros Hns Hname (Hins & Hiname & Hwf1 & Hwf2 & Hsame).
  apply entries_get_Permutation.
  { rewrite fmap_reverse, reverse_Permutation. by apply triplesOf_keys_NoDup. }
  rewrite !reverse_Permutation. unfold main.triplesOf, main.isTarget.
  rewrite <- Hns, <- Hname, <- Hins, <- Hiname.
  destruct (bool_decide _ && bool_decide _); [done|].
  apply fmap_Permutation. by apply same_function_Permutation.
Qed.

Lemma triples_sameItems (c c' : main.controller) (items items' : list main.ConfigMap)
    (k : string) :
  main.targetNamespace c = main.targetNamespace c' →
  main.targetName c = main.targetName c' →
  Forall2 main.sameItem items items' →
  entries_get k (reverse (main.triples c items))
    = entries_get k (reverse (main.triples c' items')).
Proof.
  intros Hns Hname Hall. unfold main.triples.
  induction Hall as [|i1 i2 items items' Hitem _ IH]; [done|].
  rewrite !bind_cons, !reverse_app, !entries_get_app, IH.
  by rewrite (triplesOf_sameItem c c' i1 i2 k Hns Hname Hitem).
Qed.

(** X11.  The candidate is the same whatever order the maps of the listed
    collections hand out their entries in: for two runs whose listings agree
    collection by collection up to the order of the entries, the two
    candidates are the same key-to-value function and have the same hash, so
    [compareConfigMaps] holds between them. *)
Theorem createConfigMap_order_independent (flag_selector : string)
    (c c' : main.controller) (lists lists' : list main.ConfigMapList) :
  main.targetNamespace c = main.targetNamespace c' →
  main.targetName c = main.targetName c' →
  main.listed flag_selector c (main.namespaces c) lists →
  main.listed flag_selector c' (main.namespaces c') lists' →
  Forall2 main.sameItems lists lists' →
  ∃ cm cm',
    (main.createConfigMap flag_selector c).2 = Ok cm ∧
    (main.createConfigMap flag_selector c').2 = Ok cm' ∧
    same_function (main.Data cm) (main.Data cm') ∧
    main.hashConfigMap cm = main.hashConfigMap cm' ∧
    main.compareConfigMaps cm cm' = true.
Proof.
  intros Hns Hname Hlists Hlists' Hsame.
  destruct (createConfigMap_listed flag_selector c lists Hlists)
    as (cm & Hcm & Hdata & _).
  destruct (createConfigMap_listed flag_selector c' lists' Hlists')
    as (cm' & Hcm' & Hdata' & _).
  exists cm, cm'. rewrite Hcm, Hcm'. split; [done|]. split; [done|].
  assert (same_function (main.Data cm) (main.Data cm')) as Hfun.
  { intros k. unfold Go.index. rewrite Hdata, Hdata'. cbn [range].
    rewrite !entries_get_assign. cbn [entries_get].
    rewrite (triples_sameItems c c' (lists ≫= main.Items) (lists' ≫= main.Items) k);
      [done|done|done|].
    by apply Forall2_bind. }
  assert (wf (main.Data cm)) as Hwf.
  { rewrite Hdata. apply assign_NoDup, NoDup_nil_2. }
  assert (wf (main.Data cm')) as Hwf'.
  { rewrite Hdata'. apply assign_NoDup, NoDup_nil_2. }
  assert (is_nil (main.Data cm) = is_nil (main.Data cm')) as Hnil
    by by rewrite Hdata, Hdata'.
  split; [done|]. split.
  - unfold main.hashConfigMap. by rewrite (Sprintf_map_same _ _ Hwf Hwf' Hnil Hfun).
  - by apply compareConfigMaps_same.
Qed.

Lemma createConfigMap_order_independent_witness :
  main.hashConfigMap (fixtures.candidate (fixtures.controllerOf None [fixtures.source]))
  = main.hashConfigMap
      (fixtures.candidate (fixtures.controllerOf None [fixtures.sourceReordered])).
Proof.
  destruct (createConfigMap_order_independent ""
              (fixtures.controllerOf None [fixtures.source])
              (fixtures.controllerOf None [fixtures.sourceReordered])
              [ {| main.Items := [fixtures.source] |} ]
              [ {| main.Items := [fixtures.sourceReordered] |} ]
              eq_refl eq_refl)
    as (cm & cm' & Hcm & Hcm' & _ & Hhash & _).
  - repeat constructor.
  - repeat constructor.
  - constructor; [|constructor]. constructor; [|constructor].
    split; [reflexivity|]. split; [reflexivity|]. split; [|split].
    + apply (bool_decide_unpack _). vm_compute. exact I.
    + apply (bool_decide_unpack _). vm_compute. exact I.
    + intros k. unfold Go.index. simpl.
      repeat (case_decide; try reflexivity); congruence.
  - unfold fixtures.candidate. rewrite Hcm, Hcm'. exact Hhash.
Defined.

(** ** The effects of a cycle, for every output directory *)

Section effects.

Import aggregator.

(** The loop rule with the elements seen so far as a ghost. *)
Lemma outcome_forM_prefix {S A} (body : S → A → M S)
    (I : list A → S → World → Prop) (E : error → World → Prop) (l : list A) :
  (∀ pre x post s w,
     l = pre ++ x :: post → I pre s w → outcome (body s x) w (I (pre ++ [x])) E) →
  ∀ s w, I [] s w → outcome (forM body s l) w (I l) E.
Proof.
  intros Hbody.
  assert (∀ rest pre s w,
            l = pre ++ rest → I pre s w → outcome (forM body s rest) w (I l) E)
    as Hgen.
  { induction rest as [|x rest IH]; intros pre s w Hl HI; cbn [forM].
    - apply outcome_ret. by rewrite Hl, app_nil_r.
    - apply outcome_bind.
      eapply outcome_weaken; [by eapply Hbody| |done].
      intros s' w' HI'. cbn beta. apply (IH (pre ++ [x])); [|done].
      by rewrite <- (assoc_L (++)). }
  intros s w HI. by apply (Hgen l []).
Qed.

Variable a : Aggregator.
Variable l : ConfigMapLister.
Variable files : list afero.FileInfo.
Variable w0 : World.

Hypothesis Hlister : lister a = Some l.

Lemma phase1_aborted (cur : list string) (st : gmap string bool * bool) (w : World) :
  cur `prefix_of` namespaces a → phase1 a l files w0 cur st w → aborted1 a l w0 w.
Proof. intros Hcur (Hq & Hops & _). by exists cur. Qed.

Lemma syncKey_effects (cur : list string) (n : string) (list : ConfigMapList)
    (item : ConfigMap) (kv : string * string) (st : gmap string bool * bool)
    (w : World) :
  cur `prefix_of` namespaces a →
  n ∈ namespaces a → l n (selector a) = Ok list → item ∈ Items list →
  kv ∈ range (Data item) →
  phase1 a l files w0 cur st w →
  outcome (syncKey a item st kv) w
    (λ st' w', phase1 a l files w0 cur st' w') (λ _, aborted1 a l w0).
Proof.
  intros Hcur Hn Hlist Hitem Hkv Hphase.
  pose proof (phase1_aborted cur st w Hcur Hphase) as Habort.
  destruct Hphase as (Hq & (ops & Hops & Hwritten) & Htracked).
  assert (∀ E' changed' w',
            (∀ k, is_Some (E' !! k) → is_Some (st.1 !! k)) →
            afero.WriteFile (w_fs w)
              (filepath.Join (outputDir a) (fileName item kv.1)) kv.2 = Ok w' →
            phase1 a l files w0 cur (E', changed')
              {| w_fs := w';
                 w_ops := w_ops w ++
                   [OpWrite (filepath.Join (outputDir a) (fileName item kv.1)) kv.2];
                 w_queries := w_queries w; w_requests := w_requests w |})
    as Hwrite.
  { intros E' changed' w' HE' _. split; [done|]. split.
    - exists (ops ++ [OpWrite (filepath.Join (outputDir a) (fileName item kv.1)) kv.2]).
      split; [simpl; by rewrite Hops, (assoc_L (++))|].
      apply Forall_app. split; [done|]. apply Forall_singleton.
      by exists n, list, item, kv.
    - intros k Hk. apply Htracked, HE', Hk. }
  assert (∀ k, is_Some (delete (filepath.Join (outputDir a) (fileName item kv.1)) st.1 !! k)
               → is_Some (st.1 !! k)) as Hdel.
  { intros k [b Hb]. apply lookup_delete_Some in Hb as [_ Hb]. eauto. }
  unfold outcome, syncKey, bind, wrapf, readFile, writeFile, debug, ret, fail.
  repeat case_match; simplify_eq/=; try done.
  - split; [done|]. split; [eauto|]. intros k Hk. by apply Htracked, Hdel.
  - by apply Hwrite.
  - by apply Hwrite.
Qed.

Lemma syncNamespace_effects (pre post : list string) (n : string)
    (st : gmap string bool * bool) (w : World) :
  namespaces a = pre ++ n :: post →
  phase1 a l files w0 pre st w →
  outcome (syncNamespace a st n) w
    (λ st' w', phase1 a l files w0 (pre ++ [n]) st' w') (λ _, aborted1 a l w0).
Proof.
  intros Hnss (Hq & (ops & Hops & Hwritten) & Htracked).
  assert ((pre ++ [n]) `prefix_of` namespaces a) as Hcur.
  { exists post. by rewrite Hnss, <- (assoc_L (++)). }
  assert (n ∈ namespaces a) as Hn.
  { rewrite Hnss. apply elem_of_app. right. left. }
  unfold syncNamespace. apply outcome_bind, outcome_wrapf.
  unfold outcome at 1, list_configmaps. rewrite Hlister.
  destruct (l n (selector a)) as [list|e] eqn:Hlist.
  - apply (outcome_forM _ (λ st' w', phase1 a l files w0 (pre ++ [n]) st' w')).
    + intros st1 item w1 Hitem Hphase. unfold syncItem.
      apply (outcome_forM _ (λ st' w', phase1 a l files w0 (pre ++ [n]) st' w'));
        [|done].
      intros st2 kv w2 Hkv Hphase2. by eapply syncKey_effects.
    + split; [simpl; by rewrite Hq, (assoc_L (++))|]. split; [|done]. by exists ops.
  - exists (pre ++ [n]). split; [done|]. split; [simpl; by rewrite Hq, (assoc_L (++))|].
    by exists ops.
Qed.

Lemma removeLeft_effects (changed : bool) (k : string) (w : World) :
  listedFile files k →
  phase2 a l files w0 w →
  outcome (removeLeft changed k) w (λ _ w', phase2 a l files w0 w')
    (λ _, phase2 a l files w0).
Proof.
  intros Hk Hphase. pose proof Hphase as (Hq & ops & Hops & Hall).
  unfold outcome, removeLeft, bind, wrapf, remove, ret.
  repeat case_match; simplify_eq/=; try done.
  split; [done|]. exists (ops ++ [OpRemove k]).
  split; [by rewrite Hops, (assoc_L (++))|].
  apply Forall_app. split; [done|]. apply Forall_singleton. right. by exists k.
Qed.

(** What the synchronisation does, given the listing of the output
    directory: it returns from inside the loop over the namespaces, or it
    completes that loop and then removes names of the listing. *)
Lemma syncFiles_effects :
  afero.ReadDir (w_fs w0) (outputDir a) = Ok files →
  outcome (syncFiles a) w0
    (λ _ w', phase2 a l files w0 w')
    (λ _ w', aborted1 a l w0 w' ∨ phase2 a l files w0 w').
Proof.
  intros Hfiles. unfold syncFiles. apply outcome_bind, outcome_wrapf.
  unfold outcome at 1, readDir. rewrite Hfiles. apply outcome_bind.
  eapply outcome_weaken;
    [apply (outcome_forM_prefix _
              (λ pre st' w', phase1 a l files w0 pre st' w')
              (λ _, aborted1 a l w0))| |by left].
  - intros pre n post st w Hnss Hphase. by eapply syncNamespace_effects.
  - split; [by rewrite app_nil_r|]. split.
    + exists []. by rewrite app_nil_r.
    + intros k Hk. cbn [fst] in Hk. destruct Hk as [b Hb].
      apply trackFile_Some in Hb as [Hb|Hb]; [by rewrite lookup_empty in Hb|done].
  - intros st w (Hq & (ops & Hops & Hwritten) & Htracked). cbn beta.
    eapply outcome_weaken;
      [apply (outcome_forM _ (λ _ w', phase2 a l files w0 w')
                (λ _ w', phase2 a l files w0 w'))| |by right].
    + intros changed k w' Hk Hphase. apply removeLeft_effects; [|done].
      apply Htracked. apply list_elem_of_fmap in Hk as ([k' b] & -> & Hin).
      apply elem_of_map_to_list in Hin. eauto.
    + split; [done|]. exists ops. split; [done|].
      eapply Forall_impl; [exact Hwritten|]. by left.
    + done.
Qed.

End effects.

Lemma notify_queries (env : Env) (a : aggregator.Aggregator) (changed : bool)
    (w : aggregator.World) :
  aggregator.w_queries (aggregator.notify env a changed w).1 = aggregator.w_queries w.
Proof.
  unfold aggregator.notify, aggregator.bind, aggregator.wrapf,
    aggregator.do_request, aggregator.return_error, aggregator.ret, aggregator.fail.
  repeat case_match; simplify_eq/=; done.
Qed.

(** The effects of [Once] on the queries and on the store. *)
Lemma Once_effects (env : Env) (a : aggregator.Aggregator)
    (l : aggregator.ConfigMapLister) (files : list afero.FileInfo)
    (w : aggregator.World) :
  aggregator.lister a = Some l →
  afero.ReadDir (aggregator.w_fs w) (aggregator.outputDir a) = Ok files →
  (aggregator.aborted1 a l w (aggregator.Once env a w).1 ∧
   (aggregator.Once env a w).2 ≠ None)
  ∨ aggregator.phase2 a l files w (aggregator.Once env a w).1.
Proof.
  intros Hl Hfiles.
  pose proof (syncFiles_effects a l files w Hl Hfiles) as Hout.
  unfold aggregator.outcome in Hout. rewrite Once_unfold.
  destruct (aggregator.syncFiles a w) as [w1 [changed|e]].
  - right.
    assert (aggregator.phase2 a l files w (aggregator.notify env a changed w1).1)
      as Hphase.
    { destruct Hout as (Hq & ops & Hops & Hall). split.
      - by rewrite notify_queries.
      - exists ops. by rewrite (proj2 (notify_store env a changed w1)). }
    by destruct (aggregator.notify env a changed w1) as [w2 [[]|e]].
  - destruct Hout as [Habort|Hphase]; [left|right]; done.
Qed.
(** X3.  An aggregator with a lister queries the namespaces in the order
    of its list and each at most once per cycle: the namespaces queried by
    [Once] are a prefix of the configured ones, added after the earlier
    queries, and when [Once] returns nil every namespace was queried. *)
Theorem Once_queries_in_order (env : Env) (a : aggregator.Aggregator)
    (l : aggregator.ConfigMapLister) (w : aggregator.World) :
  aggregator.lister a = Some l →
  ∃ cur, cur `prefix_of` aggregator.namespaces a ∧
         aggregator.w_queries (aggregator.Once env a w).1
           = aggregator.w_queries w ++ cur ∧
         ((aggregator.Once env a w).2 = None → cur = aggregator.namespaces a).
Proof.
  intros Hl.
  destruct (afero.ReadDir (aggregator.w_fs w) (aggregator.outputDir a))
    as [files|e] eqn:Hfiles.
  - destruct (Once_effects env a l files w Hl Hfiles)
      as [[(cur & Hcur & Hq & _) Herr]|[Hq _]].
    + by exists cur.
    + exists (aggregator.namespaces a). done.
  - exists []. split; [apply prefix_nil|].
    unfold aggregator.Once, aggregator.syncFiles, aggregator.bind,
      aggregator.wrapf, aggregator.readDir.
    rewrite Hfiles. cbn [fst snd]. split; [by rewrite app_nil_r|done].
Qed.

Lemma Once_queries_in_order_witness :
  ∃ cur, cur `prefix_of` aggregator.namespaces fixtures.twoNamespaces ∧
         aggregator.w_queries
           (aggregator.Once (fixtures.sink 200) fixtures.twoNamespaces
              (fixtures.world fixtures.emptyFs)).1
           = aggregator.w_queries (fixtures.world fixtures.emptyFs) ++ cur ∧
         ((aggregator.Once (fixtures.sink 200) fixtures.twoNamespaces
             (fixtures.world fixtures.emptyFs)).2 = None →
          cur = aggregator.namespaces fixtures.twoNamespaces).
Proof.
  apply (Once_queries_in_order (fixtures.sink 200) fixtures.twoNamespaces
           fixtures.failingLister (fixtures.world fixtures.emptyFs)).
  vm_compute. reflexivity.
Defined.

(** X4.  An aggregator with a lister, started on an output directory that
    lists as [files], touches the store only in two ways: it writes the
    value of an entry that the lister returned for one of its namespaces,
    to the output directory joined with namespace_name_key, and it removes
    a name of a regular file of [files].  It removes nothing unless every
    namespace was queried. *)
Theorem Once_touches_only_listed (env : Env) (a : aggregator.Aggregator)
    (l : aggregator.ConfigMapLister) (files : list afero.FileInfo)
    (w : aggregator.World) :
  aggregator.lister a = Some l →
  afero.ReadDir (aggregator.w_fs w) (aggregator.outputDir a) = Ok files →
  ∃ ops, aggregator.w_ops (aggregator.Once env a w).1 = aggregator.w_ops w ++ ops ∧
         Forall (λ op, aggregator.written a l op ∨ aggregator.removedListed files op)
           ops ∧
         (aggregator.w_queries (aggregator.Once env a w).1
            ≠ aggregator.w_queries w ++ aggregator.namespaces a →
          Forall (aggregator.written a l) ops).
Proof.
  intros Hl Hfiles.
  destruct (Once_effects env a l files w Hl Hfiles)
    as [[(cur & Hcur & Hq & ops & Hops & Hall) Herr]|[Hq (ops & Hops & Hall)]].
  - exists ops. split; [done|]. split; [|done].
    eapply Forall_impl; [exact Hall|]. by left.
  - exists ops. done.
Qed.

Lemma Once_touches_only_listed_witness :
  ∃ ops, aggregator.w_ops
           (aggregator.Once (fixtures.sink 200) fixtures.tmpDir
              (fixtures.world fixtures.staleFs)).1
           = aggregator.w_ops (fixtures.world fixtures.staleFs) ++ ops ∧
         Forall (λ op, aggregator.written fixtures.tmpDir fixtures.mockLister op ∨
                       aggregator.removedListed
                         [{| afero.Name := "stale.txt"; afero.IsDir := false |}] op)
           ops ∧
         (aggregator.w_queries
            (aggregator.Once (fixtures.sink 200) fixtures.tmpDir
               (fixtures.world fixtures.staleFs)).1
            ≠ aggregator.w_queries (fixtures.world fixtures.staleFs)
                ++ aggregator.namespaces fixtures.tmpDir →
          Forall (aggregator.written fixtures.tmpDir fixtures.mockLister) ops).
Proof.
  apply (Once_touches_only_listed (fixtures.sink 200) fixtures.tmpDir
           fixtures.mockLister
           [{| afero.Name := "stale.txt"; afero.IsDir := false |}]
           (fixtures.world fixtures.staleFs)).
  - vm_compute. reflexivity.
  - vm_compute. reflexivity.
Defined.
(** ** An output directory given by an absolute path *)

Section rewriting.

Import aggregator.

Variable a : Aggregator.
Variable l : ConfigMapLister.
Variable files : list afero.FileInfo.
Variable w0 : World.
Variable full : entries.
Variable rest : list FsOp.

Hypothesis Hlister : lister a = Some l.
Hypothesis Hmiss : unmatched a files full.

Lemma writesOf_app (T1 T2 : entries) :
  writesOf a (T1 ++ T2) = writesOf a T1 ++ writesOf a T2.
Proof. unfold writesOf. by rewrite fmap_app. Qed.

Lemma writesOf_prefix (P : entries) :
  P `prefix_of` full → writesOf a P `prefix_of` (writesOf a full ++ rest).
Proof.
  intros [T ->]. rewrite writesOf_app, <- (assoc_L (++)). by apply prefix_app_r.
Qed.

Lemma syncKey_rewriting (P : entries) (item : ConfigMap) (kv : string * string)
    (st : gmap string bool * bool) (w : World) :
  (P ++ [(fileName item kv.1, kv.2)]) `prefix_of` full →
  rewriting a files w0 P st w →
  outcome (syncKey a item st kv) w
    (λ st' w', rewriting a files w0 (P ++ [(fileName item kv.1, kv.2)]) st' w')
    (λ _, stopped w0 (writesOf a full ++ rest)).
Proof.
  intros Hpre [Hst Hops].
  assert (st.1 !! filepath.Join (outputDir a) (fileName item kv.1) = None) as Hnone.
  { destruct (st.1 !! _) as [b|] eqn:Hb; [|done]. exfalso.
    rewrite Hst in Hb.
    apply trackFile_Some in Hb as [Hb|(f & Hf & _ & Hname)];
      [by rewrite lookup_empty in Hb|].
    apply (Hmiss f (fileName item kv.1, kv.2) Hf); [|done].
    destruct Hpre as [T ->]. apply elem_of_app. left. apply elem_of_app. right. left. }
  unfold syncKey. rewrite Hnone.
  unfold outcome, bind, wrapf, writeFile, ret.
  destruct (afero.WriteFile _ _ _) as [fs'|e]; cbn.
  - split; [done|]. by rewrite writesOf_app, Hops, (assoc_L (++)).
  - exists (writesOf a P). split; [|done].
    apply writesOf_prefix. destruct Hpre as [T ->]. rewrite <- (assoc_L (++)).
    by apply prefix_app_r.
Qed.

Lemma syncKeys_rewriting (item : ConfigMap) (kvs : entries) :
  ∀ (P : entries) (st : gmap string bool * bool) (w : World),
    (P ++ ((λ kv, (fileName item kv.1, kv.2)) <$> kvs)) `prefix_of` full →
    rewriting a files w0 P st w →
    outcome (forM (syncKey a item) st kvs) w
      (λ st' w',
         rewriting a files w0 (P ++ ((λ kv, (fileName item kv.1, kv.2)) <$> kvs)) st' w')
      (λ _, stopped w0 (writesOf a full ++ rest)).
Proof.
  induction kvs as [|kv kvs IH]; intros P st w Hpre Hrew; cbn [forM].
  - apply outcome_ret. by rewrite fmap_nil, app_nil_r.
  - rewrite fmap_cons in Hpre |- *.
    rewrite (cons_middle _ P), (assoc_L (++)) in Hpre |- *.
    apply outcome_bind.
    eapply outcome_weaken; [apply (syncKey_rewriting P); [|done]| |done].
    + by eapply prefix_app_l.
    + intros st' w' Hrew'. cbn beta. by apply IH.
Qed.

Lemma syncItems_rewriting (items : list ConfigMap) :
  ∀ (P : entries) (st : gmap string bool * bool) (w : World),
    (P ++ (items ≫= itemTriples)) `prefix_of` full →
    rewriting a files w0 P st w →
    outcome (forM (syncItem a) st items) w
      (λ st' w', rewriting a files w0 (P ++ (items ≫= itemTriples)) st' w')
      (λ _, stopped w0 (writesOf a full ++ rest)).
Proof.
  induction items as [|item items IH]; intros P st w Hpre Hrew; cbn [forM].
  - apply outcome_ret. by rewrite app_nil_r.
  - rewrite bind_cons in Hpre |- *. rewrite (assoc_L (++)) in Hpre |- *.
    apply outcome_bind.
    eapply outcome_weaken; [apply (syncKeys_rewriting item _ P); [|done]| |done].
    + by eapply prefix_app_l.
    + intros st' w' Hrew'. cbn beta. by apply IH.
Qed.

Lemma syncNamespaces_rewriting (nss : list string) (lists : list ConfigMapList) :
  Forall2 (λ n list, l n (selector a) = Ok list) nss lists →
  ∀ (P : entries) (st : gmap string bool * bool) (w : World),
    (P ++ fileTriples lists) `prefix_of` full →
    rewriting a files w0 P st w →
    outcome (forM (syncNamespace a) st nss) w
      (λ st' w', rewriting a files w0 (P ++ fileTriples lists) st' w')
      (λ _, stopped w0 (writesOf a full ++ rest)).
Proof.
  induction 1 as [|n list nss lists Hn _ IH]; intros P st w Hpre Hrew; cbn [forM].
  - apply outcome_ret. by rewrite app_nil_r.
  - rewrite fileTriples_cons in Hpre |- *. rewrite (assoc_L (++)) in Hpre |- *.
    apply outcome_bind. unfold syncNamespace at 1.
    apply outcome_bind, outcome_wrapf.
    unfold outcome at 1, list_configmaps. rewrite Hlister, Hn.
    eapply outcome_weaken; [apply (syncItems_rewriting _ P)| |done].
    + by eapply prefix_app_l.
    + destruct Hrew as [? ?]. by split.
    + intros st' w' Hrew'. cbn beta. by apply IH.
Qed.

End rewriting.

Section rewriting_cycle.

Import aggregator.

Variable a : Aggregator.
Variable l : ConfigMapLister.
Variable files : list afero.FileInfo.
Variable lists : list ConfigMapList.
Variable w0 : World.

Hypothesis Hlister : lister a = Some l.
Hypothesis Hmiss : unmatched a files (fileTriples lists).
Hypothesis Hfiles : afero.ReadDir (w_fs w0) (outputDir a) = Ok files.
Hypothesis Hlists :
  Forall2 (λ n list, l n (selector a) = Ok list) (namespaces a) lists.

(** The synchronisation writes every triple and then removes every tracked
    name, or stops on the way. *)
Lemma syncFiles_rewriting :
  let ks := (map_to_list (foldl trackFile ∅ files)).*1 in
  let full := writesOf a (fileTriples lists) ++ (OpRemove <$> ks) in
  outcome (syncFiles a) w0
    (λ _ w', w_ops w' = w_ops w0 ++ full)
    (λ _ w', stopped w0 full w').
Proof.
  intros ks full. unfold syncFiles. apply outcome_bind, outcome_wrapf.
  unfold outcome at 1, readDir. rewrite Hfiles. apply outcome_bind.
  eapply outcome_weaken;
    [apply (syncNamespaces_rewriting a l files w0 (fileTriples lists)
              (OpRemove <$> ks) Hlister Hmiss _ _ Hlists []); [done|]| |done].
  { split; [done|]. unfold writesOf. by rewrite fmap_nil, app_nil_r. }
  intros st w [Hst Hops]. rewrite app_nil_l in Hops. cbn beta.
  rewrite Hst. fold ks.
  eapply outcome_weaken;
    [apply (outcome_forM_prefix _
              (λ pre _ w', w_ops w' = w_ops w0 ++ writesOf a (fileTriples lists)
                                        ++ (OpRemove <$> pre))
              (λ _, stopped w0 full))| |done].
  - intros pre k post changed w' Hks Hops'.
    unfold outcome, removeLeft, bind, wrapf, remove, ret.
    destruct (afero.Remove _ _) as [fs'|e]; cbn.
    + by rewrite Hops', fmap_app, !(assoc_L (++)).
    + exists (writesOf a (fileTriples lists) ++ (OpRemove <$> pre)).
      split; [|done]. unfold full. apply prefix_app. rewrite Hks, fmap_app.
      by apply prefix_app_r.
  - by rewrite fmap_nil, app_nil_r.
  - intros changed w' Hops'. by rewrite Hops'.
Qed.

End rewriting_cycle.
Section absolute.

Import aggregator.

Lemma Clean_abs (rest : string) :
  ∃ s, filepath.Clean (String "/" rest) = String "/" s.
Proof.
  unfold filepath.Clean. rewrite decide_False by done.
  cbn [filepath.IsAbs]. rewrite bool_decide_eq_true_2 by done. eauto.
Qed.

Lemma Join_abs (dir x : string) :
  filepath.IsAbs dir = true → ∃ s, filepath.Join dir x = String "/" s.
Proof.
  destruct dir as [|c dir]; [done|]. cbn [filepath.IsAbs].
  intros Hc%bool_decide_eq_true. subst c.
  unfold filepath.Join. rewrite decide_False by done.
  destruct (decide (x = "")) as [_|_]; [apply Clean_abs|].
  change (String "/" dir +:+ "/" +:+ x) with (String "/" (dir +:+ "/" +:+ x)).
  apply Clean_abs.
Qed.

Lemma strip_prefix_elem (d p : list string) (n : string) :
  afero.strip_prefix d p = Some [n] → n ∈ p.
Proof.
  revert p. induction d as [|x d IH]; intros p; cbn [afero.strip_prefix].
  - intros [= ->]. left.
  - destruct p as [|y p]; [done|]. case_decide; [|done].
    intros Hp. right. by apply IH.
Qed.

Lemma ReadDir_names_plain (fs : afero.Fs) (dirname : string)
    (files : list afero.FileInfo) (f : afero.FileInfo) :
  afero.wf fs → afero.ReadDir fs dirname = Ok files → f ∈ files →
  filepath.plain (afero.Name f).
Proof.
  intros Hwf Hread Hf. unfold afero.ReadDir in Hread.
  destruct (afero.stat fs _) as [[content|]|]; try done.
  injection Hread as <-. rewrite merge_sort_Permutation in Hf.
  unfold afero.children in Hf.
  apply list_elem_of_omap in Hf as ([p nd] & Hin & Hinfo).
  apply elem_of_map_to_list in Hin. unfold afero.info_of, afero.child_name in Hinfo.
  cbn [fst snd] in Hinfo.
  destruct (afero.strip_prefix _ p) as [[|n [|? ?]]|] eqn:Hstrip; try done.
  injection Hinfo as <-. cbn [afero.Name].
  apply strip_prefix_elem in Hstrip.
  pose proof (Hwf p nd Hin) as Hall. rewrite Forall_forall in Hall. by apply Hall.
Qed.

Lemma absolute_unmatched (a : Aggregator) (fs : afero.Fs)
    (files : list afero.FileInfo) (T : entries) :
  filepath.IsAbs (outputDir a) = true → afero.wf fs →
  afero.ReadDir fs (outputDir a) = Ok files →
  unmatched a files T.
Proof.
  intros Habs Hwf Hread f nv Hf _ Hname.
  destruct (Join_abs (outputDir a) nv.1 Habs) as [s Hs].
  pose proof (ReadDir_names_plain fs _ files f Hwf Hread Hf) as (_ & _ & _ & Hfree).
  rewrite Hname, Hs in Hfree. cbn in Hfree. by destruct Hfree as [Hne _].
Qed.

Lemma tracked_names (files : list afero.FileInfo) :
  let ks := (map_to_list (foldl trackFile ∅ files)).*1 in
  NoDup ks ∧ ∀ k, k ∈ ks ↔ listedFile files k.
Proof.
  intros ks. split; [apply NoDup_fst_map_to_list|].
  intros k. unfold ks. split.
  - intros Hk. apply list_elem_of_fmap in Hk as ([k' b] & -> & Hin).
    apply elem_of_map_to_list in Hin.
    apply trackFile_Some in Hin as [Hin|Hin]; [by rewrite lookup_empty in Hin|done].
  - intros (f & Hf & Hdir & <-). apply list_elem_of_fmap.
    exists (afero.Name f, true). split; [done|].
    apply elem_of_map_to_list. by apply trackFile_elem.
Qed.

End absolute.

(** X19.  With the output directory given by an absolute path and a
    well-formed store, the lookup of a joined path in the tracking set, whose
    keys are base names, never succeeds.  So whatever the directory holds,
    a cycle whose listings succeed writes every listed entry, in the order
    of the loops, and then removes every regular-file name of the listing
    once, by its base name; a cycle that returns an error has done a first
    part of exactly these operations. *)
Theorem Once_absolute_dir_rewrites_all (env : Env) (a : aggregator.Aggregator)
    (l : aggregator.ConfigMapLister) (files : list afero.FileInfo)
    (lists : list aggregator.ConfigMapList) (w : aggregator.World) :
  filepath.IsAbs (aggregator.outputDir a) = true →
  afero.wf (aggregator.w_fs w) →
  aggregator.lister a = Some l →
  afero.ReadDir (aggregator.w_fs w) (aggregator.outputDir a) = Ok files →
  Forall2 (λ n list, l n (aggregator.selector a) = Ok list)
    (aggregator.namespaces a) lists →
  ∃ ks, NoDup ks ∧ (∀ k, k ∈ ks ↔ aggregator.listedFile files k) ∧
    ∃ ops,
      aggregator.w_ops (aggregator.Once env a w).1 = aggregator.w_ops w ++ ops ∧
      ops `prefix_of`
        (aggregator.writesOf a (aggregator.fileTriples lists)
           ++ (aggregator.OpRemove <$> ks)) ∧
      ((aggregator.Once env a w).2 = None →
       ops = aggregator.writesOf a (aggregator.fileTriples lists)
               ++ (aggregator.OpRemove <$> ks)).
Proof.
  intros Habs Hwf Hl Hfiles Hlists.
  exists (map_to_list (foldl aggregator.trackFile ∅ files)).*1.
  destruct (tracked_names files) as [Hnd Hks]. split; [done|]. split; [done|].
  pose proof (syncFiles_rewriting a l files lists w Hl
                (absolute_unmatched a _ files _ Habs Hwf Hfiles) Hfiles Hlists)
    as Hout.
  cbn zeta in Hout. unfold aggregator.outcome in Hout. rewrite Once_unfold.
  destruct (aggregator.syncFiles a w) as [w1 [changed|e]].
  - eexists. split; [|split; [reflexivity|done]].
    rewrite <- Hout.
    destruct (aggregator.notify env a changed w1) as [w2 [[]|e]] eqn:Hnotify;
      cbn [fst]; by rewrite <- (proj2 (notify_store env a changed w1)), Hnotify.
  - destruct Hout as (ops & Hpre & Hops). exists ops. by repeat split.
Qed.

Lemma Once_absolute_dir_rewrites_all_witness :
  ∃ ks, NoDup ks ∧
    (∀ k, k ∈ ks ↔
          aggregator.listedFile
            [{| afero.Name := "stale.txt"; afero.IsDir := false |}] k) ∧
    ∃ ops,
      aggregator.w_ops
        (aggregator.Once (fixtures.sink 200) fixtures.tmpDir
           (fixtures.world fixtures.staleFs)).1
        = aggregator.w_ops (fixtures.world fixtures.staleFs) ++ ops ∧
      ops `prefix_of`
        (aggregator.writesOf fixtures.tmpDir
           (aggregator.fileTriples [fixtures.mockConfigMaps])
           ++ (aggregator.OpRemove <$> ks)) ∧
      ((aggregator.Once (fixtures.sink 200) fixtures.tmpDir
          (fixtures.world fixtures.staleFs)).2 = None →
       ops = aggregator.writesOf fixtures.tmpDir
               (aggregator.fileTriples [fixtures.mockConfigMaps])
               ++ (aggregator.OpRemove <$> ks)).
Proof.
  apply (Once_absolute_dir_rewrites_all (fixtures.sink 200) fixtures.tmpDir
           fixtures.mockLister
           [{| afero.Name := "stale.txt"; afero.IsDir := false |}]
           [fixtures.mockConfigMaps] (fixtures.world fixtures.staleFs)).
  - vm_compute. reflexivity.
  - exact staleFs_wf.
  - vm_compute. reflexivity.
  - vm_compute. reflexivity.
  - repeat constructor.
Defined.
